(** * Risk normalization (safe-f / CAR25): a shallow embedding of
      [risk_normalization.cpp] and its verified properties.

    The C++ program works on [double]s, on [int] counters and on one
    [std::mt19937] generator threaded by reference through every layer.

    - [double] is an interface ([Double]): the functions are translated once,
      over any carrier, and are then read at two instances: the real numbers
      (exact arithmetic) and the kernel's IEEE 754 binary64 numbers (the
      machine's own arithmetic).  Statements that depend on no property of
      the arithmetic are proved for every instance.  Bounds on the values
      the program computes are proved in binary64, for all doubles, from the
      rounding to nearest of [SpecFloat], and in exact arithmetic.
      Equalities with a real-valued formula are statements of exact
      arithmetic.  The fixtures are evaluated in both.
    - [int] parameters are [Z]; the places where the program leaves the
      [int] or [size_t] range are written out.
    - the generator is an abstract state with the draw of
      [std::uniform_int_distribution<>] as a function on it; every simulation
      function passes the state explicitly.
    - what C++ leaves undefined (reading [v[0]] of an empty vector, a
      distribution on an empty range, signed overflow) and the exception of an
      over-long vector are outcomes of their own ([Fault], [Stop]). *)

From Stdlib Require Import String.
From Stdlib Require Import Reals Lra Lia List ZArith Bool Floats.
From Stdlib Require Import Sorting.Sorted Sorting.Permutation.
Import ListNotations.

Set Implicit Arguments.
Set Warnings "-inexact-float".

(** ** The arithmetic of [double] *)

Class Double (D : Type) : Type := {
  of_Z  : Z -> D;            (* an integer literal or [static_cast<double>] *)
  add   : D -> D -> D;
  sub   : D -> D -> D;
  mul   : D -> D -> D;
  div   : D -> D -> D;
  ltb   : D -> D -> bool;    (* operator<  *)
  leb   : D -> D -> bool;    (* operator<= *)
  fabs  : D -> D;            (* std::abs   *)
  sqrt  : D -> D;            (* std::sqrt  *)
  pow   : D -> D -> D;       (* std::pow   *)
  ceil  : D -> D;            (* std::ceil  *)
  trunc : D -> option Z      (* the integer a cast to an integer type keeps,
                                when the value has one *)
}.

Declare Scope double_scope.
Delimit Scope double_scope with D.
Infix "+" := add : double_scope.
Infix "-" := sub : double_scope.
Infix "*" := mul : double_scope.
Infix "/" := div : double_scope.
Infix "<?" := ltb : double_scope.
Infix "<=?" := leb : double_scope.
Notation "x >? y" := (ltb y x) (only parsing) : double_scope.

(** A decimal literal [n/d], e.g. [0.003] is [dec 3 1000]: correctly rounded
    division makes it the double nearest to the decimal. *)
Definition dec {D} `{Double D} (n d : Z) : D := (of_Z n / of_Z d)%D.

(** *** Exact arithmetic: the real numbers *)

Module RealArith.

Definition Rltb (x y : R) : bool := if Rlt_dec x y then true else false.
Definition Rleb (x y : R) : bool := if Rle_dec x y then true else false.

(** Rounding toward zero. *)
Definition Ztrunc (x : R) : Z := if Rle_dec 0 x then Zfloor x else Zceil x.

#[global] Instance real : Double R := {|
  of_Z := IZR;
  add := Rplus; sub := Rminus; mul := Rmult; div := Rdiv;
  ltb := Rltb; leb := Rleb;
  fabs := Rabs;
  sqrt := R_sqrt.sqrt;
  pow := Rpower;
  ceil := fun x => IZR (Zceil x);
  trunc := fun x => Some (Ztrunc x)
|}.

End RealArith.

(** *** Machine arithmetic: IEEE 754 binary64 *)

Module Binary64.

(** The double nearest to an integer below [2^63] in absolute value. *)
Definition Z2float (z : Z) : float :=
  match z with
  | Z0 => PrimFloat.zero
  | Zpos _ => PrimFloat.of_uint63 (Uint63.of_Z z)
  | Zneg p => PrimFloat.opp (PrimFloat.of_uint63 (Uint63.of_Z (Zpos p)))
  end.

(** The value [(-1)^s * m * 2^e] of a finite float, rounded up or toward
    zero to an integer. *)
Definition SFceil (x : spec_float) : option Z :=
  match x with
  | S754_zero _ => Some 0%Z
  | S754_finite s m e =>
      let v := if s then Zneg m else Zpos m in
      Some (if (0 <=? e)%Z then (v * 2 ^ e)%Z
            else (- ((- v) / 2 ^ (- e)))%Z)
  | _ => None
  end.

Definition SFtrunc (x : spec_float) : option Z :=
  match x with
  | S754_zero _ => Some 0%Z
  | S754_finite s m e =>
      let v := if s then Zneg m else Zpos m in
      Some (if (0 <=? e)%Z then (v * 2 ^ e)%Z
            else Z.quot v (2 ^ (- e)))
  | _ => None
  end.

Definition float_ceil (x : float) : float :=
  match SFceil (Prim2SF x) with
  | Some z => Z2float z
  | None => x
  end.

(** [std::pow] is not an IEEE 754 basic operation and the kernel has no
    counterpart of it: the instance takes it as a parameter. *)
Definition binary64 (pow : float -> float -> float) : Double float := {|
  of_Z := Z2float;
  add := PrimFloat.add; sub := PrimFloat.sub;
  mul := PrimFloat.mul; div := PrimFloat.div;
  ltb := PrimFloat.ltb; leb := PrimFloat.leb;
  fabs := PrimFloat.abs;
  sqrt := PrimFloat.sqrt;
  pow := pow;
  ceil := float_ceil;
  trunc := fun x => SFtrunc (Prim2SF x)
|}.

(** A curve that never decreases from [peak] on, by the [<=] of doubles. *)
Fixpoint rising (peak : float) (curve : list float) : Prop :=
  match curve with
  | [] => True
  | e :: rest => PrimFloat.leb peak e = true /\ rising e rest
  end.

(** A positive finite double. *)
Definition positive_finite (x : float) : Prop :=
  PrimFloat.ltb PrimFloat.zero x = true
  /\ PrimFloat.ltb x PrimFloat.infinity = true.

(** A product with a zero factor is a zero or not a number. *)
Definition zero_or_nan (z : spec_float) : Prop :=
  (exists s, z = S754_zero s) \/ z = S754_nan.

(** A value of a curve at fraction [0]: the capital, or not a number once
    an infinite or undefined return has been drawn. *)
Definition flat (capital e : float) : Prop :=
  Prim2SF e = Prim2SF capital \/ Prim2SF e = S754_nan.

(** A double above zero (infinity included), and one not below zero. *)
Definition positive (x : float) : Prop :=
  PrimFloat.ltb PrimFloat.zero x = true.

Definition nonnegative (x : float) : Prop :=
  PrimFloat.leb PrimFloat.zero x = true.

(** The instance for the code that never calls [std::pow]. *)
Definition binary64_nopow : Double float := binary64 (fun x _ => x).

(** [std::pow] where its exponent is [0.5], as in a forecast of two years
    ([504] days): the correctly rounded square root. *)
Definition pow_half (x y : float) : float := PrimFloat.sqrt x.

End Binary64.

(** ** Outcomes of a call *)

Inductive fault : Type :=
| UB            (* undefined behaviour of the C++ abstract machine *)
| LengthError.  (* std::length_error thrown by the vector constructor *)

Inductive outcome (A : Type) : Type :=
| Done (a : A)
| Fault (f : fault).

Arguments Done {A} a.
Arguments Fault {A} f.

Definition INT_MAX : Z := 2147483647.
Definition SIZE_MAX : Z := 18446744073709551615.

(** Arithmetic of [size_t]: modulo [2^64]. *)
Definition size_t_wrap (z : Z) : Z := z mod (SIZE_MAX + 1).

(** [static_cast<size_t>(x)] of a double: undefined unless the truncated
    value is representable. *)
Definition cast_size_t {D} `{Double D} (x : D) : outcome Z :=
  match trunc x with
  | Some z => if ((0 <=? z) && (z <=? SIZE_MAX))%Z then Done z else Fault UB
  | None => Fault UB
  end.

(** [static_cast<int>(x)] of a double. *)
Definition cast_int {D} `{Double D} (x : D) : outcome Z :=
  match trunc x with
  | Some z => if ((- INT_MAX - 1 <=? z) && (z <=? INT_MAX))%Z then Done z
              else Fault UB
  | None => Fault UB
  end.

(** ** Statistics utilities, drawdown and CAGR *)

Section Utilities.

Context {D : Type} `{Double D}.

Definition size (data : list D) : Z := Z.of_nat (length data).

(** [std::accumulate(first, last, init)]: a left fold. *)
Definition accumulate (data : list D) (init : D) : D :=
  fold_left add data init.

Definition computeMean (data : list D) : D :=
  match data with
  | [] => of_Z 0
  | _ => (accumulate data (of_Z 0) / of_Z (size data))%D
  end.

Definition computeStdDev (data : list D) (mean : D) : D :=
  if (size data <? 2)%Z then of_Z 0
  else
    let accum :=
      fold_left (fun accum x => (accum + (x - mean) * (x - mean))%D)
                data (of_Z 0) in
    sqrt (accum / of_Z (size_t_wrap (size data - 1)))%D.

(** The body of the loop of [calculateDrawdown], on the pair
    [(peak, max_drawdown)]. *)
Definition drawdown_step (st : D * D) (equity : D) : D * D :=
  let '(peak, max_drawdown) := st in
  let peak := if (equity >? peak)%D then equity else peak in
  let drawdown := ((peak - equity) / peak)%D in
  let max_drawdown :=
    if (drawdown >? max_drawdown)%D then drawdown else max_drawdown in
  (peak, max_drawdown).

Definition calculateDrawdown (equity_curve : list D) : outcome D :=
  match equity_curve with
  | [] => Fault UB                      (* equity_curve[0] *)
  | e0 :: _ =>
      Done (snd (fold_left drawdown_step equity_curve (e0, of_Z 0)))
  end.

(** The pairs [(peak, max_drawdown)] after each pass of that loop, and the
    peaks the passes divide by: the peak of a pass is the one it has just
    updated. *)
Fixpoint drawdown_states (st : D * D) (equity_curve : list D)
    : list (D * D) :=
  match equity_curve with
  | [] => []
  | equity :: rest =>
      drawdown_step st equity :: drawdown_states (drawdown_step st equity) rest
  end.

Definition divisors (equity_curve : list D) : list D :=
  match equity_curve with
  | [] => []
  | e0 :: _ => map fst (drawdown_states (e0, of_Z 0) equity_curve)
  end.

Definition calculateCAGR (initial_equity final_equity years : D) : D :=
  if (initial_equity <=? of_Z 0)%D || (final_equity <=? of_Z 0)%D
     || (years <=? of_Z 0)%D
  then of_Z 0
  else ((pow (final_equity / initial_equity) (of_Z 1 / years)
         - of_Z 1) * of_Z 100)%D.

Definition computeStatistics (data : list D) : D * D :=
  let mean := computeMean data in
  let stdev := computeStdDev data mean in
  (mean, stdev).

End Utilities.

(** ** Vectors *)

Section Vectors.

Context {A : Type}.

(** [v[i] = x] on a vector: the element is replaced; an index outside the
    vector has no defined meaning (reported as [None]). *)
Fixpoint vec_set (v : list A) (i : nat) (x : A) : option (list A) :=
  match v, i with
  | [], _ => None
  | _ :: v', O => Some (x :: v')
  | y :: v', S i' =>
      match vec_set v' i' x with
      | Some w => Some (y :: w)
      | None => None
      end
  end.

(** [v[i]] for an index of type [size_t]: defined inside the vector. *)
Definition vec_get (v : list A) (i : Z) : option A :=
  if ((0 <=? i) && (i <? Z.of_nat (length v)))%Z
  then nth_error v (Z.to_nat i) else None.

(** [v.back()]. *)
Fixpoint back (v : list A) : option A :=
  match v with
  | [] => None
  | [x] => Some x
  | _ :: v' => back v'
  end.

End Vectors.

(** [std::sort] with [operator<]: the sorted arrangement, built by
    insertion. *)
Section Sort.

Context {D : Type} `{Double D}.

Fixpoint insert (x : D) (l : list D) : list D :=
  match l with
  | [] => [x]
  | y :: l' => if (y <? x)%D then y :: insert x l' else x :: l
  end.

Definition sort (l : list D) : list D := fold_right insert [] l.

End Sort.

(** ** The simulation engine *)

(** The output of [main] and of [risk_normalization]. *)
Record statistics (D : Type) : Type := {
  safe_f_mean  : D;
  safe_f_stdev : D;
  CAR25_mean   : D;
  CAR25_stdev  : D;
  printed      : list D   (* the CAR25 written to std::cout, one per repetition *)
}.

Inductive run (A : Type) : Type :=
| Ret (a : A)              (* the call returns *)
| Stop (f : fault)         (* the call leaves defined behaviour, or throws *)
| OutOfFuel.               (* the model stopped following a loop *)

Arguments Ret {A} a.
Arguments Stop {A} f.
Arguments OutOfFuel {A}.

Section Engine.

Context {D : Type} `{Double D}.

(** The state of the [std::mt19937] generator, and one draw of
    [std::uniform_int_distribution<>(0, hi)] from it. *)
Variable G : Type.
Variable dist : nat -> G -> nat * G.

(** A computation that draws from the generator. *)
Definition sim (A : Type) : Type := G -> run (A * G).

Definition ret {A} (a : A) : sim A := fun rng => Ret (a, rng).

Definition bind {A B} (m : sim A) (k : A -> sim B) : sim B :=
  fun rng =>
    match m rng with
    | Ret (a, rng') => k a rng'
    | Stop f => Stop f
    | OutOfFuel => OutOfFuel
    end.

Definition lift {A} (o : outcome A) : sim A :=
  fun rng =>
    match o with
    | Done a => Ret (a, rng)
    | Fault f => Stop f
    end.

(** A read or write through an index that must be inside the vector. *)
Definition defined {A} (o : option A) : sim A :=
  fun rng =>
    match o with
    | Some a => Ret (a, rng)
    | None => Stop UB
    end.

Notation "x <- m ;; k" := (bind m (fun x => k))
  (at level 61, m at next level, right associativity).
Notation "' p <- m ;; k" := (bind m (fun x => let 'p := x in k))
  (at level 61, p pattern, m at next level, right associativity).

(** The bounds [(0, trades.size() - 1)] of the distribution: the
    subtraction is in [size_t], the parameter is an [int]. *)
Definition int_wrap (z : Z) : Z :=
  ((z + (INT_MAX + 1)) mod (2 * (INT_MAX + 1)) - (INT_MAX + 1))%Z.

Definition dist_upper (trades : list D) : Z :=
  int_wrap (size_t_wrap (size trades - 1)).

(** The loop [for (int i = 1; i <= number_trades_in_forecast; ++i)] of
    [make_one_equity_sequence], [n] passes from index [i] on. *)
Fixpoint equity_loop (n : nat) (i : nat) (trades : list D) (fraction : D)
    (hi : nat) (equity_curve : list D) : sim (list D) :=
  match n with
  | O => ret equity_curve
  | S n' =>
      fun rng =>
        let (idx, rng') := dist hi rng in
        (t <- defined (nth_error trades idx) ;;
         prev <- defined (nth_error equity_curve (i - 1)) ;;
         let trade_return := (t * fraction * prev)%D in
         curve' <- defined (vec_set equity_curve i (prev + trade_return)%D) ;;
         equity_loop n' (S i) trades fraction hi curve') rng'
  end.

Definition make_one_equity_sequence (trades : list D) (fraction : D)
    (number_trades_in_forecast : Z) (initial_capital : D)
    : sim (list D * D) :=
  if (number_trades_in_forecast =? INT_MAX)%Z then
    fun _ => Stop UB                         (* N + 1 overflows *)
  else if (number_trades_in_forecast + 1 <? 0)%Z then
    fun _ => Stop LengthError                (* std::vector<double>(N + 1) *)
  else
    let equity_curve :=
      repeat (of_Z 0) (Z.to_nat (number_trades_in_forecast + 1)) in
    equity_curve <- defined (vec_set equity_curve 0 initial_capital) ;;
    if (dist_upper trades <? 0)%Z then
      fun _ => Stop UB                       (* dist(a, b) requires a <= b *)
    else
      equity_curve <-
        equity_loop (Z.to_nat number_trades_in_forecast) 1 trades fraction
                    (Z.to_nat (dist_upper trades)) equity_curve ;;
      max_drawdown <- lift (calculateDrawdown equity_curve) ;;
      ret (equity_curve, max_drawdown).

(** The loop of [analyze_distribution_of_drawdown]. *)
Fixpoint exceed_loop (n : nat) (trades : list D) (fraction : D)
    (number_trades_in_forecast : Z) (initial_capital drawdown_tolerance : D)
    (count_exceed : Z) : sim Z :=
  match n with
  | O => ret count_exceed
  | S n' =>
      '(_, max_drawdown) <-
        make_one_equity_sequence trades fraction number_trades_in_forecast
                                 initial_capital ;;
      exceed_loop n' trades fraction number_trades_in_forecast
        initial_capital drawdown_tolerance
        (if (max_drawdown >? drawdown_tolerance)%D
         then (count_exceed + 1)%Z else count_exceed)
  end.

Definition analyze_distribution_of_drawdown (trades : list D) (fraction : D)
    (number_trades_in_forecast : Z) (initial_capital drawdown_tolerance : D)
    (number_equity_in_CDF : Z) : sim D :=
  count_exceed <-
    exceed_loop (Z.to_nat number_equity_in_CDF) trades fraction
      number_trades_in_forecast initial_capital drawdown_tolerance 0%Z ;;
  ret (of_Z count_exceed / of_Z number_equity_in_CDF)%D.

(** *** The bisection of [risk_normalization] *)

(** The variables of one repetition that the [while] loop reads and
    writes. *)
Record bisection : Type := {
  fraction    : D;
  lower_bound : D;
  upper_bound : D;
  tail_risk   : D;
  done        : bool;
  iteration   : Z
}.

Definition desired_accuracy : D := dec 3 1000.
Definition max_iterations : Z := 1000.

Definition bisection_init : bisection := {|
  fraction := of_Z 1;
  lower_bound := of_Z 0;
  upper_bound := of_Z 10;
  tail_risk := of_Z 0;
  done := false;
  iteration := 0
|}.

(** The condition [!done && iteration < max_iterations]. *)
Definition bisection_cond (st : bisection) : bool :=
  negb (done st) && (iteration st <? max_iterations)%Z.

(** [iteration++]. *)
Definition next_iteration (st : bisection) : bisection :=
  {| fraction := fraction st; lower_bound := lower_bound st;
     upper_bound := upper_bound st; tail_risk := tail_risk st;
     done := done st; iteration := (iteration st + 1)%Z |}.

(** One pass through the body of the [while] loop; [fraction'] and
    [tail_risk'] are the values the pass assigns to [fraction] and
    [tail_risk]. *)
Definition bisection_body (trades : list D)
    (number_trades_in_forecast : Z)
    (initial_capital tail_percentile drawdown_tolerance : D)
    (number_equity_in_CDF : Z) (st : bisection) : sim bisection :=
  let tolerance := desired_accuracy in
  let fraction' := ((lower_bound st + upper_bound st) / of_Z 2)%D in
  tail_risk' <-
    analyze_distribution_of_drawdown trades fraction'
      number_trades_in_forecast initial_capital drawdown_tolerance
      number_equity_in_CDF ;;
  let target := (tail_percentile / of_Z 100)%D in
  ret (next_iteration
    (if (fabs (tail_risk' - target) <? tolerance)%D then
       {| fraction := fraction'; lower_bound := lower_bound st;
          upper_bound := upper_bound st; tail_risk := tail_risk';
          done := true; iteration := iteration st |}
     else if (tail_risk' >? target)%D then
       {| fraction := fraction'; lower_bound := lower_bound st;
          upper_bound := fraction'; tail_risk := tail_risk';
          done := done st; iteration := iteration st |}
     else
       {| fraction := fraction'; lower_bound := fraction';
          upper_bound := upper_bound st; tail_risk := tail_risk';
          done := done st; iteration := iteration st |})).

(** The [while] loop, followed for at most [fuel] passes. *)
Fixpoint bisection_loop (fuel : nat) (trades : list D)
    (number_trades_in_forecast : Z)
    (initial_capital tail_percentile drawdown_tolerance : D)
    (number_equity_in_CDF : Z) (st : bisection) : sim bisection :=
  if bisection_cond st then
    match fuel with
    | O => fun _ => OutOfFuel
    | S fuel' =>
        st' <- bisection_body trades number_trades_in_forecast
                 initial_capital tail_percentile drawdown_tolerance
                 number_equity_in_CDF st ;;
        bisection_loop fuel' trades number_trades_in_forecast
          initial_capital tail_percentile drawdown_tolerance
          number_equity_in_CDF st'
    end
  else ret st.

(** *** The CAR distribution of one repetition *)

(** The loop that collects [number_equity_in_CDF] CAR values. *)
Fixpoint CAR_loop (n : nat) (trades : list D) (fraction : D)
    (number_days_in_forecast number_trades_in_forecast : Z)
    (initial_capital : D) (CAR_list : list D) : sim (list D) :=
  match n with
  | O => ret CAR_list
  | S n' =>
      '(equity_curve, _) <-
        make_one_equity_sequence trades fraction number_trades_in_forecast
                                 initial_capital ;;
      let years := (of_Z number_days_in_forecast / of_Z 252)%D in
      final <- defined (back equity_curve) ;;
      let CAGR := calculateCAGR initial_capital final years in
      CAR_loop n' trades fraction number_days_in_forecast
        number_trades_in_forecast initial_capital (CAR_list ++ [CAGR])
  end.

(** Lines 202-205: the 25th percentile of the collected CAR values. *)
Definition CAR25_of (CAR_list : list D) : outcome D :=
  let CAR_list := sort CAR_list in
  match cast_size_t (ceil (dec 1 4 * of_Z (size CAR_list))%D) with
  | Fault f => Fault f
  | Done c =>
      let index := size_t_wrap (c - 1) in
      let index := Z.min index (size_t_wrap (size CAR_list - 1)) in
      match vec_get CAR_list index with
      | Some CAR25 => Done CAR25
      | None => Fault UB
      end
  end.

(** The body of the loop over the repetitions: the pair
    [(fraction, CAR25)] it pushes on the two lists. *)
Definition repetition (fuel : nat) (trades : list D)
    (number_days_in_forecast number_trades_in_forecast : Z)
    (initial_capital tail_percentile drawdown_tolerance : D)
    (number_equity_in_CDF : Z) : sim (D * D) :=
  st <- bisection_loop fuel trades number_trades_in_forecast
          initial_capital tail_percentile drawdown_tolerance
          number_equity_in_CDF bisection_init ;;
  CAR_list <-
    CAR_loop (Z.to_nat number_equity_in_CDF) trades (fraction st)
      number_days_in_forecast number_trades_in_forecast initial_capital [] ;;
  CAR25 <- lift (CAR25_of CAR_list) ;;
  ret (fraction st, CAR25).

Fixpoint repetitions (n : nat) (fuel : nat) (trades : list D)
    (number_days_in_forecast number_trades_in_forecast : Z)
    (initial_capital tail_percentile drawdown_tolerance : D)
    (number_equity_in_CDF : Z) (safe_f_list CAR25_list : list D)
    : sim (list D * list D) :=
  match n with
  | O => ret (safe_f_list, CAR25_list)
  | S n' =>
      '(safe_f, CAR25) <-
        repetition fuel trades number_days_in_forecast
          number_trades_in_forecast initial_capital tail_percentile
          drawdown_tolerance number_equity_in_CDF ;;
      repetitions n' fuel trades number_days_in_forecast
        number_trades_in_forecast initial_capital tail_percentile
        drawdown_tolerance number_equity_in_CDF
        (safe_f_list ++ [safe_f]) (CAR25_list ++ [CAR25])
  end.

(** [risk_normalization]; [fuel] bounds the passes the model follows in
    each [while] loop, the generator state [rng] is the one
    [std::random_device] seeded. *)
Definition risk_normalization (fuel : nat) (trades : list D)
    (number_days_in_forecast number_trades_in_forecast : Z)
    (initial_capital tail_percentile drawdown_tolerance : D)
    (number_equity_in_CDF number_repetitions : Z) : sim (statistics D) :=
  '(safe_f_list, CAR25_list) <-
    repetitions (Z.to_nat number_repetitions) fuel trades
      number_days_in_forecast number_trades_in_forecast initial_capital
      tail_percentile drawdown_tolerance number_equity_in_CDF [] [] ;;
  let '(safe_f_mean, safe_f_stdev) := computeStatistics safe_f_list in
  let '(CAR25_mean, CAR25_stdev) := computeStatistics CAR25_list in
  ret {| safe_f_mean := safe_f_mean; safe_f_stdev := safe_f_stdev;
         CAR25_mean := CAR25_mean; CAR25_stdev := CAR25_stdev;
         printed := CAR25_list |}.

(** *** [main], from the trades that [readTradesFromCSV] returned *)

Record exit (A : Type) : Type := {
  status : Z;                 (* the value [main] returns *)
  complaint : option string;  (* what it wrote to std::cerr *)
  report : option A           (* the statistics it printed *)
}.

Definition main (fuel : nat) (trades : list D) : sim (exit (statistics D)) :=
  match trades with
  | [] =>
      ret {| status := 1;
             complaint := Some "No trades data found."%string;
             report := None |}
  | _ =>
      let number_of_years_in_CSV : D := of_Z 28 in
      let average_trades_per_year :=
        (of_Z (size trades) / number_of_years_in_CSV)%D in
      let years_to_forecast : D := of_Z 2 in
      number_days_in_forecast <-
        lift (cast_int (years_to_forecast * of_Z 252)%D) ;;
      number_trades_in_forecast <-
        lift (cast_int (average_trades_per_year * years_to_forecast)%D) ;;
      stats <-
        risk_normalization fuel trades number_days_in_forecast
          number_trades_in_forecast (of_Z 100000) (of_Z 5) (dec 1 10)
          10000 5 ;;
      ret {| status := 0; complaint := None; report := Some stats |}
  end.

End Engine.

(** ** A concrete generator

    A linear congruential generator in the place of [std::mt19937], to run
    the engine on concrete inputs: the state is the last output, a draw in
    [[0, hi]] is the next output modulo [hi + 1]. *)

Module Lcg.

Definition state : Type := Z.

Definition next (s : state) : state :=
  ((s * 1103515245 + 12345) mod 2147483648)%Z.

Definition dist (hi : nat) (s : state) : nat * state :=
  let s' := next s in
  (Z.to_nat ((s' / 65536) mod (Z.of_nat hi + 1)), s').

End Lcg.

(** ** What the generator is assumed to do, and valid parameters *)

(** A draw of [uniform_int_distribution<>(0, hi)] lies in [[0, hi]]. *)
Definition in_range {G : Type} (dist : nat -> G -> nat * G) : Prop :=
  forall hi rng, (fst (dist hi rng) <= hi)%nat.

(** The indices of the next [n] draws in [[0, hi]] from [rng], in order. *)
Fixpoint draws {G : Type} (dist : nat -> G -> nat * G) (hi : nat) (n : nat)
    (rng : G) : list nat :=
  match n with
  | O => []
  | S n' => let (idx, rng') := dist hi rng in idx :: draws dist hi n' rng'
  end.

(** The step of a curve from point [k] to point [k + 1]: the return applied
    is [trades[idx]] for the [k]-th index [idx] of the draws [idxs]. *)
Definition step_of {D : Type} `{Double D} (trades : list D) (fraction : D)
    (idxs : list nat) (curve : list D) (k : nat) : Prop :=
  exists idx r prev,
    nth_error idxs k = Some idx
    /\ (idx < length trades)%nat
    /\ nth_error trades idx = Some r
    /\ nth_error curve k = Some prev
    /\ nth_error curve (S k) = Some (prev + r * fraction * prev)%D.

(** A trade series the program can index: non-empty, and its last index
    fits the [int] bound of the distribution. *)
Definition valid_series {D : Type} (trades : list D) : Prop :=
  trades <> [] /\ (Z.of_nat (length trades) <= INT_MAX + 1)%Z.

(** A path length for which [number_trades_in_forecast + 1] slots can be
    allocated. *)
Definition valid_path_length (number_trades_in_forecast : Z) : Prop :=
  (0 <= number_trades_in_forecast < INT_MAX)%Z.

(** ** The quantities of the specification, over the real numbers *)

Module Spec.

Local Open Scope R_scope.

Definition sum (data : list R) : R := fold_right Rplus 0 data.

(** Arithmetic mean. *)
Definition mean (data : list R) : R := sum data / INR (length data).

(** Sample standard deviation, with Bessel's correction. *)
Definition sample_stdev (data : list R) : R :=
  R_sqrt.sqrt
    (sum (map (fun x => (x - mean data) * (x - mean data)) data)
     / (INR (length data) - 1)).

(** The running peak at each point of a curve: the largest value up to
    and including that point. *)
Fixpoint running_peaks (peak : R) (curve : list R) : list R :=
  match curve with
  | [] => []
  | e :: rest => Rmax peak e :: running_peaks (Rmax peak e) rest
  end.

Definition peaks (curve : list R) : list R :=
  match curve with
  | [] => []
  | e0 :: _ => running_peaks e0 curve
  end.

(** The relative decline [(peak - equity) / peak] at each point of a curve
    scanned from a given peak, and of a whole curve. *)
Definition declines_from (peak : R) (curve : list R) : list R :=
  map (fun pe => (fst pe - snd pe) / fst pe)
      (combine (running_peaks peak curve) curve).

Definition declines (curve : list R) : list R :=
  map (fun pe => (fst pe - snd pe) / fst pe) (combine (peaks curve) curve).

(** The largest element of a list ([0] for the empty list). *)
Definition maximum (l : list R) : R :=
  match l with
  | [] => 0
  | x :: l' => fold_right Rmax x l'
  end.

(** Maximum peak-to-trough relative decline. *)
Definition max_drawdown (curve : list R) : R := maximum (declines curve).

(** A curve that never decreases. *)
Definition never_decreases (curve : list R) : Prop :=
  forall i x y, nth_error curve i = Some x ->
                nth_error curve (S i) = Some y -> x <= y.

(** The element of 1-indexed rank [r] of a list. *)
Definition at_rank (r : Z) (l : list R) : option R :=
  if (r <? 1)%Z then None else nth_error l (Z.to_nat (r - 1)).

(** The rank [ceil(0.25 * count)], clamped to [[1, count]]. *)
Definition rank25 (count : Z) : Z :=
  Z.max 1 (Z.min count (Zceil (0.25 * IZR count))).

(** The invariant of the bisection: the bracket stays inside [[0, 10]] and
    so does the fraction. *)
Definition bracketed (st : @bisection R) : Prop :=
  0 <= lower_bound st /\ lower_bound st <= upper_bound st
  /\ upper_bound st <= 10 /\ 0 <= fraction st <= 10.

End Spec.

(** ** The simulator as a function of the draws *)

(** The generator after [n] draws in [[0, hi]]. *)
Fixpoint advance {G : Type} (dist : nat -> G -> nat * G) (hi : nat) (n : nat)
    (rng : G) : G :=
  match n with
  | O => rng
  | S n' => advance dist hi n' (snd (dist hi rng))
  end.

(** The equity curve that the indices [idxs] build from [equity]: each index
    selects the return applied to the last value. *)
Fixpoint path {D : Type} `{Double D} (trades : list D) (fraction equity : D)
    (idxs : list nat) : list D :=
  match idxs with
  | [] => [equity]
  | idx :: rest =>
      equity :: path trades fraction
                     (equity + nth idx trades (of_Z 0) * fraction * equity)%D
                     rest
  end.

(** ** Reading the trades

    [readTradesFromCSV] and the start of [main].  The file system is the
    function [open] from a file name to the content of the file, when it
    can be opened; [stod] is [std::stod], with [None] where it throws. *)

Definition newline : Ascii.ascii := Ascii.ascii_of_nat 10.

(** The lines that successive calls of [std::getline] return, [line] being
    what the current call has extracted: a call ends at a newline, which it
    drops, or at the end of the stream, where it fails if it has extracted
    nothing. *)
Fixpoint getlines (line content : string) : list string :=
  match content with
  | EmptyString =>
      match line with
      | EmptyString => []
      | _ => [line]
      end
  | String c rest =>
      if Ascii.eqb c newline then line :: getlines EmptyString rest
      else getlines (String.append line (String c EmptyString)) rest
  end.

(** The body of the [while] loop: [push_back] unless [std::stod] throws. *)
Definition push_parsed {D : Type} (stod : string -> option D)
    (trades : list D) (line : string) : list D :=
  match stod line with
  | Some value => trades ++ [value]
  | None => trades
  end.

(** The trades read, and what was written to [std::cerr]. *)
Definition readTradesFromCSV {D : Type} (stod : string -> option D)
    (open : string -> option string) (filename : string)
    : list D * option string :=
  match open filename with
  | None => ([], Some (String.append "Unable to open file: " filename))
  | Some content =>
      (fold_left (push_parsed stod) (getlines EmptyString content) [], None)
  end.

(** [main] from its first line: the file is read, then the trades are
    passed on. *)
Definition program {D : Type} `{Double D} {G : Type}
    (dist : nat -> G -> nat * G) (stod : string -> option D)
    (open : string -> option string) (fuel : nat)
    : sim G (option string * exit (statistics D)) :=
  let file_name := "./data/generated_normal_trades.csv"%string in
  let '(trades, unopened) := readTradesFromCSV stod open file_name in
  bind (main dist fuel trades) (fun e => ret (unopened, e)).

(** A text file written line by line, and the values of its lines. *)
Fixpoint has_newline (s : string) : bool :=
  match s with
  | EmptyString => false
  | String c rest => Ascii.eqb c newline || has_newline rest
  end.

Definition unlines (lines : list string) : string :=
  fold_right (fun line rest => String.append line (String newline rest))
             EmptyString lines.

Definition parsed {D : Type} (stod : string -> option D)
    (lines : list string) : list D :=
  flat_map (fun line => match stod line with
                        | Some value => [value]
                        | None => []
                        end) lines.

(** ** Counting the values of a list against a threshold *)

Definition count_at_most (x : R) (l : list R) : nat :=
  length (filter (fun y => RealArith.Rleb y x) l).

Definition count_below (x : R) (l : list R) : nat :=
  length (filter (fun y => RealArith.Rltb y x) l).

(** ** The bisection under a constant estimate

    What one pass of the [while] loop does to its variables once the
    estimator has returned [tail_risk'], and the loop when the estimator
    returns the same [tail] at every pass. *)
Definition bisection_update {D : Type} `{Double D}
    (tail_percentile tail_risk' : D) (st : bisection) : bisection :=
  let fraction' := ((lower_bound st + upper_bound st) / of_Z 2)%D in
  let target := (tail_percentile / of_Z 100)%D in
  next_iteration
    (if (fabs (tail_risk' - target) <? desired_accuracy)%D then
       {| fraction := fraction'; lower_bound := lower_bound st;
          upper_bound := upper_bound st; tail_risk := tail_risk';
          done := true; iteration := iteration st |}
     else if (tail_risk' >? target)%D then
       {| fraction := fraction'; lower_bound := lower_bound st;
          upper_bound := fraction'; tail_risk := tail_risk';
          done := done st; iteration := iteration st |}
     else
       {| fraction := fraction'; lower_bound := fraction';
          upper_bound := upper_bound st; tail_risk := tail_risk';
          done := done st; iteration := iteration st |}).

Fixpoint bisection_constant {D : Type} `{Double D} (fuel : nat)
    (tail_percentile tail : D) (st : bisection) : option bisection :=
  if bisection_cond st then
    match fuel with
    | O => None
    | S fuel' =>
        bisection_constant fuel' tail_percentile tail
                           (bisection_update tail_percentile tail st)
    end
  else Some st.

(** ** The bracket of the bisection

    What holds of the variables of the [while] loop after [iteration] passes
    towards the tail risk [target]: the bracket has been halved at every pass
    that did not accept, an accepted fraction is the midpoint of the bracket
    and its tail risk is within [desired_accuracy] of the target. *)
Definition searched (target : R) (st : @bisection R) : Prop :=
  (0 <= iteration st <= max_iterations)%Z
  /\ (0 <= lower_bound st)%R /\ (upper_bound st <= 10)%R
  /\ (if done st then
        (1 <= iteration st)%Z
        /\ (upper_bound st - lower_bound st
            = 10 / 2 ^ Z.to_nat (iteration st - 1))%R
        /\ (fraction st = (lower_bound st + upper_bound st) / 2)%R
        /\ (Rabs (tail_risk st - target) < 3 / 1000)%R
      else
        (upper_bound st - lower_bound st = 10 / 2 ^ Z.to_nat (iteration st))%R
        /\ ((1 <= iteration st)%Z ->
            (0 < fraction st < 10)%R
            /\ (fraction st = lower_bound st \/ fraction st = upper_bound st))).

(** ** The CAR values of a repetition

    The values that the loop over [number_equity_in_CDF] curves collects
    from the generator state [rng] on: the CAGR of the last equity of each
    curve, in the order of the curves. *)
Fixpoint collected {D : Type} `{Double D} {G : Type}
    (dist : nat -> G -> nat * G) (trades : list D) (fraction : D)
    (days N : Z) (capital : D) (n : nat) (rng : G) : list D :=
  match n with
  | O => []
  | S n' =>
      let hi := (length trades - 1)%nat in
      let curve :=
        path trades fraction capital (draws dist hi (Z.to_nat N) rng) in
      calculateCAGR capital (last curve capital) (of_Z days / of_Z 252)%D
      :: collected dist trades fraction days N capital n'
                   (advance dist hi (Z.to_nat N) rng)
  end.

(** The repetitions that ran from the generator state [rng] to [rng'], with
    the pair of the safe fraction and the CAR25 that each one pushed. *)
Inductive ran {D : Type} `{Double D} {G : Type}
    (dist : nat -> G -> nat * G) (fuel : nat) (trades : list D)
    (days N : Z) (capital tail_percentile tolerance : D) (n : Z)
    : G -> list (D * D) -> G -> Prop :=
| ran_none (rng : G) :
    ran dist fuel trades days N capital tail_percentile tolerance n rng []
        rng
| ran_next (rng : G) (safe_f CAR25 : D) (rng1 : G) (rest : list (D * D))
    (rng' : G) :
    repetition dist fuel trades days N capital tail_percentile tolerance n
               rng
    = Ret (safe_f, CAR25, rng1) ->
    ran dist fuel trades days N capital tail_percentile tolerance n rng1
        rest rng' ->
    ran dist fuel trades days N capital tail_percentile tolerance n rng
        ((safe_f, CAR25) :: rest) rng'.

(** ** Doubles within bounds

    [10 = mant10 * 2 ^ -49], [20 = mant10 * 2 ^ -48] and
    [2 = 2 ^ 52 * 2 ^ -51] as doubles. *)
Definition mant10 : positive := 5629499534213120.

(** The double [1]. *)
Definition SFone : spec_float := S754_finite false 4503599627370496 (-52).

(** A double of the bracket of the bisection. *)
Definition in_bracket (x : float) : Prop :=
  PrimFloat.leb 0 x = true /\ PrimFloat.leb x 10 = true.

(** A double of [[0, b]], for [b = mant10 * 2 ^ eB]: a zero, or a finite
    positive double at most [b]. *)
Definition within (eB : Z) (x : spec_float) : Prop :=
  (exists s, x = S754_zero s)
  \/ (exists m e, x = S754_finite false m e
                  /\ bounded prec emax m e = true
                  /\ SFleb x (S754_finite false mant10 eB) = true).

(** A double of [[0, v * 2 ^ emin]], for an integer [v]: a zero, or a
    finite positive double [m * 2 ^ e] with [m * 2 ^ (e - emin) <= v]. *)
Definition below (v : Z) (x : spec_float) : Prop :=
  (exists s, x = S754_zero s)
  \/ (exists m e, x = S754_finite false m e
                  /\ bounded prec emax m e = true
                  /\ (Z.pos m * 2 ^ (e - emin) <= v)%Z).

(** * Properties *)

(** ** Comparisons of real numbers *)

Section RealComparisons.

Import RealArith.
Local Open Scope R_scope.

Lemma Rltb_true (x y : R) : x < y -> Rltb x y = true.
Proof. intro Hxy. unfold Rltb. destruct (Rlt_dec x y); [reflexivity | contradiction]. Qed.

Lemma Rltb_false (x y : R) : y <= x -> Rltb x y = false.
Proof. intro Hyx. unfold Rltb. destruct (Rlt_dec x y); [lra | reflexivity]. Qed.

Lemma Rleb_true (x y : R) : x <= y -> Rleb x y = true.
Proof. intro Hxy. unfold Rleb. destruct (Rle_dec x y); [reflexivity | contradiction]. Qed.

Lemma Rleb_false (x y : R) : y < x -> Rleb x y = false.
Proof. intro Hyx. unfold Rleb. destruct (Rle_dec x y); [lra | reflexivity]. Qed.

(** [if (x > y) x else y] is the maximum. *)
Lemma Rltb_max (x y : R) : (if Rltb y x then x else y) = Rmax y x.
Proof.
  unfold Rltb, Rmax.
  destruct (Rlt_dec y x), (Rle_dec y x); try reflexivity; lra.
Qed.

End RealComparisons.

(** Decide the comparisons of the goal whose outcome [lra] can tell. *)
Ltac decide_comparisons :=
  repeat match goal with
    | |- context [RealArith.Rltb ?x ?y] =>
        first [ rewrite (@Rltb_true x y) by lra
              | rewrite (@Rltb_false x y) by lra ]
    | |- context [RealArith.Rleb ?x ?y] =>
        first [ rewrite (@Rleb_true x y) by lra
              | rewrite (@Rleb_false x y) by lra ]
    end.

(** ** Statistics utilities *)

Section StatisticsProofs.

Import RealArith.
Local Open Scope R_scope.

Lemma accumulate_sum (data : list R) (init : R) :
  accumulate data init = init + Spec.sum data.
Proof.
  unfold accumulate. revert init.
  induction data as [|x data IH]; intro init; simpl.
  - lra.
  - rewrite IH. lra.
Qed.

Lemma squares_sum (data : list R) (m init : R) :
  fold_left (fun accum x => (accum + (x - m) * (x - m))%D) data init
  = init + Spec.sum (map (fun x => (x - m) * (x - m)) data).
Proof.
  revert init.
  induction data as [|x data IH]; intro init; simpl.
  - lra.
  - rewrite IH. lra.
Qed.

Lemma computeMean_mean (data : list R) :
  data <> [] -> computeMean data = Spec.mean data.
Proof.
  intro Hne. destruct data as [|x data]; [contradiction|].
  unfold computeMean, Spec.mean, size.
  rewrite accumulate_sum. cbn [of_Z real div].
  rewrite <- INR_IZR_INZ. f_equal. lra.
Qed.

Lemma computeStdDev_small {D : Type} `{Double D} (data : list D) (m : D) :
  (length data < 2)%nat -> computeStdDev data m = of_Z 0.
Proof.
  intro Hlt. unfold computeStdDev, size.
  replace (Z.of_nat (length data) <? 2)%Z with true; [reflexivity|].
  symmetry. apply Z.ltb_lt. lia.
Qed.

Lemma computeStdDev_sample (data : list R) :
  (2 <= length data)%nat ->
  (Z.of_nat (length data) <= SIZE_MAX)%Z ->
  computeStdDev data (computeMean data) = Spec.sample_stdev data.
Proof.
  intros Hge Hmax.
  assert (Hne : data <> []) by (destruct data; [simpl in Hge; lia | discriminate]).
  unfold computeStdDev, size.
  replace (Z.of_nat (length data) <? 2)%Z with false
    by (symmetry; apply Z.ltb_ge; lia).
  rewrite squares_sum, (computeMean_mean Hne).
  unfold Spec.sample_stdev, size_t_wrap. cbn [of_Z real div sqrt].
  rewrite Z.mod_small by (unfold SIZE_MAX in *; lia).
  rewrite minus_IZR, <- INR_IZR_INZ. f_equal. f_equal. lra.
Qed.

Lemma fixture_mean : computeMean [2; 4; 4; 4; 5; 5; 7; 9] = 5.
Proof.
  unfold computeMean, accumulate, size. cbn [fold_left length of_Z real add div].
  replace (Z.of_nat 8) with 8%Z by reflexivity. lra.
Qed.

Lemma fixture_stdev :
  Rabs (computeStdDev [2; 4; 4; 4; 5; 5; 7; 9] 5 - 2.138) < 0.0005.
Proof.
  unfold computeStdDev, size, size_t_wrap.
  cbn [fold_left length of_Z real add sub mul div sqrt].
  replace (Z.of_nat 8 <? 2)%Z with false by reflexivity.
  replace ((Z.of_nat 8 - 1) mod (SIZE_MAX + 1))%Z with 7%Z by reflexivity.
  match goal with |- context [R_sqrt.sqrt ?a] => replace a with (32 / 7) by lra end.
  assert (Hlo : 2.1375 < R_sqrt.sqrt (32 / 7)).
  { rewrite <- (sqrt_square 2.1375) by lra. apply sqrt_lt_1; lra. }
  assert (Hhi : R_sqrt.sqrt (32 / 7) < 2.1385).
  { assert (Hsq : R_sqrt.sqrt (32 / 7) < R_sqrt.sqrt (2.1385 * 2.1385))
      by (apply sqrt_lt_1; lra).
    rewrite sqrt_square in Hsq by lra. exact Hsq. }
  apply Rabs_def1; lra.
Qed.

End StatisticsProofs.

(** ** The repetition loop without repetitions *)

Section NoRepetition.

Context {D : Type} `{Double D}.
Variable G : Type.
Variable dist : nat -> G -> nat * G.

Lemma risk_normalization_no_repetition
    fuel trades days N capital tail_percentile tolerance n reps rng :
  (reps <= 0)%Z ->
  risk_normalization dist fuel trades days N capital tail_percentile
                     tolerance n reps rng
  = Ret ({| safe_f_mean := of_Z 0; safe_f_stdev := of_Z 0;
            CAR25_mean := of_Z 0; CAR25_stdev := of_Z 0;
            printed := [] |}, rng).
Proof.
  intro Hreps. unfold risk_normalization.
  replace (Z.to_nat reps) with O by lia.
  reflexivity.
Qed.

End NoRepetition.

(** ** CAGR *)

Section CAGRProofs.

Import RealArith.
Local Open Scope R_scope.

Lemma calculateCAGR_positive (initial final years : R) :
  0 < initial -> 0 < final -> 0 < years ->
  calculateCAGR initial final years
  = (Rpower (final / initial) (1 / years) - 1) * 100.
Proof.
  intros Hi Hf Hy. unfold calculateCAGR. cbn [of_Z real leb pow sub mul div].
  decide_comparisons. reflexivity.
Qed.

Lemma calculateCAGR_sentinel (initial final years : R) :
  initial <= 0 \/ final <= 0 \/ years <= 0 ->
  calculateCAGR initial final years = 0.
Proof.
  intro Hnp. unfold calculateCAGR. cbn [of_Z real leb].
  destruct Hnp as [Hi | [Hf | Hy]].
  - rewrite (@Rleb_true initial 0) by lra. reflexivity.
  - rewrite (@Rleb_true final 0) by lra. now rewrite orb_true_r.
  - rewrite (@Rleb_true years 0) by lra. now rewrite orb_true_r.
Qed.

Lemma fixture_CAGR : calculateCAGR 100000 121000 2 = 10.
Proof.
  rewrite calculateCAGR_positive by lra.
  replace (121000 / 100000) with 1.21 by lra.
  replace (1 / 2) with (/ 2) by lra.
  rewrite Rpower_sqrt by lra.
  replace 1.21 with (1.1 * 1.1) by lra.
  rewrite sqrt_square by lra. lra.
Qed.

End CAGRProofs.

(** ** Drawdown *)

Section DrawdownProofs.

Import RealArith.
Local Open Scope R_scope.

(** One pass of the loop, in exact arithmetic. *)
Lemma drawdown_step_real (peak m equity : R) :
  drawdown_step (peak, m) equity
  = (Rmax peak equity,
     Rmax m ((Rmax peak equity - equity) / Rmax peak equity)).
Proof.
  unfold drawdown_step. cbn [ltb real sub div].
  rewrite Rltb_max.
  set (d := (Rmax peak equity - equity) / Rmax peak equity).
  now rewrite Rltb_max.
Qed.

Lemma last_cons_default {A : Type} (l : list A) (x d : A) :
  last (x :: l) d = last l x.
Proof.
  revert x d. induction l as [|y l IH]; intros x d; [reflexivity|].
  change (last (x :: y :: l) d) with (last (y :: l) d).
  now rewrite (IH y d), (IH y x).
Qed.

(** The loop's final pair is the last of its states. *)
Lemma fold_drawdown_states {D : Type} `{Double D} (curve : list D) (st : D * D) :
  fold_left drawdown_step curve st = last (drawdown_states st curve) st.
Proof.
  revert st. induction curve as [|e curve IH]; intro st; [reflexivity|].
  cbn [fold_left drawdown_states]. rewrite IH.
  now rewrite last_cons_default.
Qed.

Lemma peaks_of_states (curve : list R) (peak m : R) :
  map fst (drawdown_states (peak, m) curve) = Spec.running_peaks peak curve.
Proof.
  revert peak m. induction curve as [|e curve IH]; intros peak m; [reflexivity|].
  cbn [drawdown_states Spec.running_peaks map].
  rewrite drawdown_step_real. cbn [fst]. now rewrite IH.
Qed.

Lemma fold_right_Rmax_base (l : list R) (m d : R) :
  fold_right Rmax (Rmax m d) l = Rmax (fold_right Rmax m l) d.
Proof.
  induction l as [|x l IH]; [reflexivity|].
  cbn [fold_right]. rewrite IH.
  rewrite Rmax_assoc. reflexivity.
Qed.

Lemma fold_right_Rmax_ge (l : list R) (m : R) : m <= fold_right Rmax m l.
Proof.
  induction l as [|x l IH]; cbn [fold_right]; [lra|].
  eapply Rle_trans; [exact IH | apply Rmax_r].
Qed.

Lemma fold_drawdown_max (curve : list R) (peak m : R) :
  snd (fold_left drawdown_step curve (peak, m))
  = fold_right Rmax m (Spec.declines_from peak curve).
Proof.
  revert peak m. induction curve as [|e curve IH]; intros peak m; [reflexivity|].
  cbn [fold_left]. rewrite drawdown_step_real, IH.
  unfold Spec.declines_from. cbn [Spec.running_peaks combine map fold_right fst snd].
  rewrite fold_right_Rmax_base. apply Rmax_comm.
Qed.

Lemma calculateDrawdown_declines (e0 : R) (rest : list R) :
  calculateDrawdown (e0 :: rest)
  = Done (fold_right Rmax 0 (Spec.declines_from e0 (e0 :: rest))).
Proof.
  unfold calculateDrawdown. f_equal. apply fold_drawdown_max.
Qed.

Lemma calculateDrawdown_max (e0 : R) (rest : list R) :
  calculateDrawdown (e0 :: rest) = Done (Spec.max_drawdown (e0 :: rest)).
Proof.
  unfold calculateDrawdown. f_equal.
  rewrite fold_drawdown_max.
  unfold Spec.max_drawdown, Spec.declines, Spec.peaks, Spec.declines_from.
  cbn [Spec.running_peaks combine map Spec.maximum fold_right fst snd of_Z real].
  set (ds := map _ _).
  replace ((Rmax e0 e0 - e0) / Rmax e0 e0) with 0.
  - rewrite Rmax_right by apply fold_right_Rmax_ge. reflexivity.
  - unfold Rmax. destruct (Rle_dec e0 e0); unfold Rdiv; rewrite Rminus_diag; lra.
Qed.

Lemma never_decreases_tail (x : R) (curve : list R) :
  Spec.never_decreases (x :: curve) -> Spec.never_decreases curve.
Proof. intros Hnd i a b Ha Hb. exact (Hnd (S i) a b Ha Hb). Qed.

Lemma fold_drawdown_monotone (curve : list R) (peak : R) :
  Spec.never_decreases (peak :: curve) ->
  snd (fold_left drawdown_step curve (peak, 0)) = 0.
Proof.
  revert peak. induction curve as [|e curve IH]; intros peak Hnd; [reflexivity|].
  cbn [fold_left]. rewrite drawdown_step_real.
  assert (Hle : peak <= e) by (apply (Hnd O); reflexivity).
  rewrite (Rmax_right peak e Hle).
  replace ((e - e) / e) with 0 by (unfold Rdiv; rewrite Rminus_diag; lra).
  rewrite Rmax_left by lra.
  apply IH. eapply never_decreases_tail; exact Hnd.
Qed.

Lemma calculateDrawdown_monotone (curve : list R) :
  curve <> [] -> Spec.never_decreases curve -> calculateDrawdown curve = Done 0.
Proof.
  intros Hne Hnd. destruct curve as [|e0 rest]; [contradiction|].
  unfold calculateDrawdown. f_equal.
  cbn [fold_left of_Z real]. rewrite drawdown_step_real.
  rewrite Rmax_left by lra.
  replace ((e0 - e0) / e0) with 0 by (unfold Rdiv; rewrite Rminus_diag; lra).
  rewrite Rmax_left by lra.
  now apply fold_drawdown_monotone.
Qed.

Lemma fixture_drawdown : calculateDrawdown [100; 90; 95; 80; 120] = Done 0.2.
Proof.
  unfold calculateDrawdown. f_equal.
  cbn [fold_left of_Z real].
  repeat (rewrite drawdown_step_real;
          match goal with
          | |- context [Rmax ?p ?e] =>
              first [ rewrite (Rmax_left p e) by lra
                    | rewrite (Rmax_right p e) by lra ]
          end;
          match goal with
          | |- context [Rmax ?m ?d] =>
              first [ rewrite (Rmax_left m d) by lra
                    | rewrite (Rmax_right m d) by lra ]
          end).
  cbn [snd]. lra.
Qed.

End DrawdownProofs.

(** ** Vectors *)

Section VectorProofs.

Context {A : Type}.

Lemma vec_set_inside (v : list A) (i : nat) (x : A) :
  (i < length v)%nat ->
  exists w, vec_set v i x = Some w
            /\ length w = length v
            /\ nth_error w i = Some x
            /\ forall j, j <> i -> nth_error w j = nth_error v j.
Proof.
  revert i. induction v as [|y v IH]; intros i Hi; [simpl in Hi; lia|].
  destruct i as [|i].
  - exists (x :: v). repeat split.
    intros [|j] Hj; [contradiction | reflexivity].
  - destruct (IH i) as (w & Hset & Hlen & Hget & Hother); [simpl in Hi; lia|].
    exists (y :: w). cbn [vec_set]. rewrite Hset.
    repeat split; [simpl; now rewrite Hlen | exact Hget |].
    intros [|j] Hj; [reflexivity|]. cbn [nth_error]. apply Hother. lia.
Qed.

Lemma nth_error_inside (v : list A) (i : nat) :
  (i < length v)%nat -> exists x, nth_error v i = Some x.
Proof.
  intro Hi. destruct (nth_error v i) as [x|] eqn:Hx; [now exists x|].
  apply nth_error_None in Hx. lia.
Qed.

Lemma back_last (v : list A) (x : A) : back (v ++ [x]) = Some x.
Proof.
  induction v as [|y v IH]; [reflexivity|].
  cbn [app back]. destruct (v ++ [x]) eqn:Hv; [|exact IH].
  destruct v; discriminate.
Qed.

Lemma back_inside (v : list A) : v <> [] -> exists x, back v = Some x.
Proof.
  intro Hne. destruct (exists_last Hne) as (v' & x & ->).
  exists x. apply back_last.
Qed.

End VectorProofs.

(** ** The equity path simulator *)

Section SimulatorProofs.

Context {D : Type} `{Double D}.
Variable G : Type.
Variable dist : nat -> G -> nat * G.
Hypothesis dist_in_range : in_range dist.

Lemma bind_ret {A B : Type} (m : sim G A) (k : A -> sim G B) rng a rng' :
  m rng = Ret (a, rng') -> bind m k rng = k a rng'.
Proof. intro Hm. unfold bind. now rewrite Hm. Qed.

Lemma dist_upper_valid (trades : list D) :
  valid_series trades -> dist_upper trades = (Z.of_nat (length trades) - 1)%Z.
Proof.
  intros [Hne Hmax]. unfold dist_upper, int_wrap, size_t_wrap, size.
  assert (0 < length trades)%nat by (destruct trades; [contradiction | simpl; lia]).
  unfold INT_MAX, SIZE_MAX in *.
  rewrite (Z.mod_small (Z.of_nat (length trades) - 1)) by lia.
  rewrite Z.mod_small by lia. lia.
Qed.

Lemma equity_loop_spec (trades : list D) (fraction : D) (hi : nat) :
  length trades = S hi ->
  forall n i curve rng,
    (length curve = S i + n)%nat ->
    exists curve' rng',
      equity_loop dist n (S i) trades fraction hi curve rng = Ret (curve', rng')
      /\ length curve' = length curve
      /\ (forall j, (j <= i)%nat -> nth_error curve' j = nth_error curve j)
      /\ forall k, (k < n)%nat ->
           exists idx r prev,
             nth_error (draws dist hi n rng) k = Some idx
             /\ (idx < length trades)%nat
             /\ nth_error trades idx = Some r
             /\ nth_error curve' (i + k) = Some prev
             /\ nth_error curve' (S (i + k)) = Some (prev + r * fraction * prev)%D.
Proof.
  intros Hhi n. induction n as [|n IH]; intros i curve rng Hlen.
  - exists curve, rng. repeat split. intros k Hk. lia.
  - cbn [equity_loop draws].
    pose proof (dist_in_range hi rng) as Hidx.
    destruct (dist hi rng) as [idx rng1]. cbn [fst] in Hidx.
    destruct (@nth_error_inside _ trades idx) as (r & Hr); [lia|].
    destruct (@nth_error_inside _ curve i) as (prev & Hprev); [lia|].
    destruct (@vec_set_inside _ curve (S i) (prev + r * fraction * prev)%D)
      as (curve1 & Hset & Hlen1 & Hnew & Hold); [lia|].
    destruct (IH (S i) curve1 rng1) as (curve' & rng' & Hrun & Hlen' & Hkeep & Hsteps);
      [lia|].
    exists curve', rng'.
    split.
    { unfold bind, defined. rewrite Hr.
      replace (S i - 1)%nat with i by lia. rewrite Hprev, Hset. exact Hrun. }
    split; [congruence|].
    split.
    { intros j Hj. rewrite Hkeep by lia. apply Hold. lia. }
    intros [|k] Hk.
    + exists idx, r, prev. rewrite Nat.add_0_r.
      repeat split; [lia | exact Hr | |].
      * rewrite Hkeep by lia. rewrite Hold by lia. exact Hprev.
      * rewrite Hkeep by lia. exact Hnew.
    + destruct (Hsteps k) as (idx' & r' & prev' & Hd & Hi' & Hr' & Hp & Hn); [lia|].
      exists idx', r', prev'.
      replace (i + S k)%nat with (S i + k)%nat by lia.
      repeat split; assumption.
Qed.

Lemma make_one_equity_sequence_spec (trades : list D) (fraction : D) (N : Z)
    (initial_capital : D) (rng : G) :
  valid_series trades -> valid_path_length N ->
  exists curve dd rng',
    make_one_equity_sequence dist trades fraction N initial_capital rng
    = Ret (curve, dd, rng')
    /\ length curve = S (Z.to_nat N)
    /\ nth_error curve 0 = Some initial_capital
    /\ calculateDrawdown curve = Done dd
    /\ forall k, (k < Z.to_nat N)%nat ->
         step_of trades fraction
                 (draws dist (length trades - 1) (Z.to_nat N) rng) curve k.
Proof.
  intros Hseries [HN0 HNmax].
  pose proof (dist_upper_valid Hseries) as Hupper.
  destruct Hseries as [Hne Hmax].
  assert (Hpos : (0 < length trades)%nat)
    by (destruct trades; [contradiction | simpl; lia]).
  unfold make_one_equity_sequence.
  replace (N =? INT_MAX)%Z with false by (symmetry; apply Z.eqb_neq; lia).
  replace (N + 1 <? 0)%Z with false by (symmetry; apply Z.ltb_ge; lia).
  replace (Z.to_nat (N + 1)) with (S (Z.to_nat N)) by lia.
  cbn [repeat vec_set].
  rewrite Hupper.
  replace (Z.of_nat (length trades) - 1 <? 0)%Z with false
    by (symmetry; apply Z.ltb_ge; lia).
  replace (Z.to_nat (Z.of_nat (length trades) - 1)) with (length trades - 1)%nat
    by lia.
  set (curve0 := initial_capital :: repeat (of_Z 0) (Z.to_nat N)).
  destruct (@equity_loop_spec trades fraction (length trades - 1)) with
    (n := Z.to_nat N) (i := O) (curve := curve0) (rng := rng)
    as (curve & rng' & Hrun & Hlen & Hkeep & Hsteps).
  { lia. }
  { unfold curve0. cbn [length]. rewrite repeat_length. lia. }
  assert (Hlen0 : length curve = S (Z.to_nat N)).
  { rewrite Hlen. unfold curve0. cbn [length]. now rewrite repeat_length. }
  destruct curve as [|e0 rest] eqn:Hcurve; [discriminate|].
  exists (e0 :: rest), (snd (fold_left drawdown_step (e0 :: rest) (e0, of_Z 0))), rng'.
  split.
  { unfold bind at 1. unfold defined at 1.
    unfold bind at 1. rewrite Hrun.
    unfold bind, lift, ret. cbn [calculateDrawdown]. reflexivity. }
  split; [exact Hlen0|].
  split; [rewrite (Hkeep O) by lia; reflexivity|].
  split; [reflexivity|].
  intros k Hk. destruct (Hsteps k Hk) as (idx & r & prev & Hd).
  exists idx, r, prev. exact Hd.
Qed.

End SimulatorProofs.

Lemma Lcg_in_range : in_range Lcg.dist.
Proof.
  intros hi s. unfold Lcg.dist. cbn [fst].
  pose proof (Z.mod_pos_bound (Lcg.next s / 65536) (Z.of_nat hi + 1)) as Hmod.
  lia.
Qed.

(** ** The drawdown-tail estimator *)

Section EstimatorProofs.

Context {D : Type} `{Double D}.
Variable G : Type.
Variable dist : nat -> G -> nat * G.
Hypothesis dist_in_range : in_range dist.

Variable trades : list D.
Variable N : Z.
Hypothesis trades_valid : valid_series trades.
Hypothesis N_valid : valid_path_length N.

Lemma make_one_equity_sequence_returns (fraction capital : D) (rng : G) :
  exists curve dd rng',
    make_one_equity_sequence dist trades fraction N capital rng
    = Ret (curve, dd, rng')
    /\ curve <> [].
Proof.
  destruct (make_one_equity_sequence_spec dist_in_range fraction capital rng
              trades_valid N_valid)
    as (curve & dd & rng' & Hrun & Hlen & _).
  exists curve, dd, rng'. split; [exact Hrun|].
  destruct curve; [discriminate Hlen | discriminate].
Qed.

(** The loop of the estimator returns, with between [0] and [n] more
    exceedances counted. *)
Lemma exceed_loop_returns (fraction capital tolerance : D) :
  forall n count rng,
    exists count' rng',
      exceed_loop dist n trades fraction N capital tolerance count rng
      = Ret (count', rng')
      /\ (count <= count' <= count + Z.of_nat n)%Z.
Proof.
  induction n as [|n IH]; intros count rng.
  - exists count, rng. split; [reflexivity | lia].
  - cbn [exceed_loop].
    destruct (make_one_equity_sequence_returns fraction capital rng)
      as (curve & dd & rng1 & Hrun & _).
    erewrite bind_ret by exact Hrun.
    destruct (IH (if (dd >? tolerance)%D then (count + 1)%Z else count) rng1)
      as (count' & rng' & Hloop & Hbound).
    exists count', rng'. split; [exact Hloop|].
    destruct (dd >? tolerance)%D; lia.
Qed.

Lemma analyze_distribution_of_drawdown_returns
    (fraction capital tolerance : D) (n : Z) (rng : G) :
  exists tail rng',
    analyze_distribution_of_drawdown dist trades fraction N capital tolerance
                                     n rng
    = Ret (tail, rng').
Proof.
  unfold analyze_distribution_of_drawdown.
  destruct (exceed_loop_returns fraction capital tolerance (Z.to_nat n) 0 rng)
    as (count & rng' & Hloop & _).
  erewrite bind_ret by exact Hloop. eexists _, _. reflexivity.
Qed.

End EstimatorProofs.

(** ** Risk fraction zero *)

Section ZeroFraction.

Import RealArith.
Local Open Scope R_scope.

Variable G : Type.
Variable dist : nat -> G -> nat * G.
Hypothesis dist_in_range : in_range dist.

Variable trades : list R.
Variable N : Z.
Hypothesis trades_valid : valid_series trades.
Hypothesis N_valid : valid_path_length N.

Lemma never_decreases_repeat (c : R) (n : nat) :
  Spec.never_decreases (repeat c n).
Proof.
  intros i x y Hx Hy.
  apply nth_error_In, repeat_spec in Hx.
  apply nth_error_In, repeat_spec in Hy. lra.
Qed.

Lemma flat_curve (capital : R) (rng : G) :
  exists rng',
    make_one_equity_sequence dist trades 0 N capital rng
    = Ret (repeat capital (S (Z.to_nat N)), 0, rng').
Proof.
  destruct (make_one_equity_sequence_spec dist_in_range 0 capital rng
              trades_valid N_valid)
    as (curve & dd & rng' & Hrun & Hlen & Hfirst & Hdd & Hsteps).
  assert (Hall : forall j, (j <= Z.to_nat N)%nat -> nth_error curve j = Some capital).
  { induction j as [|j IHj]; intro Hj; [exact Hfirst|].
    destruct (Hsteps j) as (idx & r & prev & _ & _ & _ & Hprev & Hnext); [lia|].
    rewrite IHj in Hprev by lia. injection Hprev as <-.
    rewrite Hnext. f_equal. cbn [add mul real]. lra. }
  assert (Hcurve : curve = repeat capital (S (Z.to_nat N))).
  { apply nth_error_ext. intro j.
    destruct (Nat.le_gt_cases j (Z.to_nat N)) as [Hj | Hj].
    - rewrite Hall by exact Hj. symmetry. apply nth_error_repeat. lia.
    - transitivity (@None R); [|symmetry].
      + apply nth_error_None. lia.
      + apply nth_error_None. rewrite repeat_length. lia. }
  subst curve. exists rng'. rewrite Hrun. do 3 f_equal.
  rewrite calculateDrawdown_monotone in Hdd;
    [now injection Hdd | discriminate | apply never_decreases_repeat].
Qed.

Lemma exceed_loop_zero (capital tolerance : R) :
  0 <= tolerance ->
  forall n rng,
    exists rng',
      exceed_loop dist n trades 0 N capital tolerance 0%Z rng = Ret (0%Z, rng').
Proof.
  intros Htol. induction n as [|n IH]; intro rng.
  - exists rng. reflexivity.
  - cbn [exceed_loop].
    destruct (flat_curve capital rng) as (rng1 & Hrun).
    erewrite bind_ret by exact Hrun. cbn [ltb real].
    rewrite (@Rltb_false tolerance 0) by lra.
    apply IH.
Qed.

Lemma analyze_zero (capital tolerance : R) (n : Z) (rng : G) :
  0 <= tolerance ->
  exists rng',
    analyze_distribution_of_drawdown dist trades 0 N capital tolerance n rng
    = Ret (0, rng').
Proof.
  intro Htol. unfold analyze_distribution_of_drawdown.
  destruct (exceed_loop_zero capital Htol (Z.to_nat n) rng) as (rng' & Hloop).
  erewrite bind_ret by exact Hloop. exists rng'. unfold ret. do 2 f_equal.
  cbn [of_Z div real]. unfold Rdiv. apply Rmult_0_l.
Qed.

End ZeroFraction.

(** ** The range of the drawdown of a simulated curve *)

Section DrawdownRange.

Import RealArith.
Local Open Scope R_scope.

Lemma running_peaks_ge (curve : list R) (peak : R) :
  Forall (fun p => peak <= p) (Spec.running_peaks peak curve).
Proof.
  revert peak. induction curve as [|e curve IH]; intro peak; [constructor|].
  cbn [Spec.running_peaks]. constructor; [apply Rmax_l|].
  eapply Forall_impl; [|apply IH].
  intros p Hp. cbn beta in Hp. eapply Rle_trans; [apply Rmax_l | exact Hp].
Qed.

Lemma divisors_ge_first (e0 : R) (rest : list R) :
  Forall (fun p => e0 <= p) (divisors (e0 :: rest)).
Proof.
  unfold divisors. rewrite peaks_of_states. apply running_peaks_ge.
Qed.

Lemma calculateDrawdown_nonneg (curve : list R) (dd : R) :
  calculateDrawdown curve = Done dd -> 0 <= dd.
Proof.
  destruct curve as [|e0 rest]; [discriminate|].
  rewrite calculateDrawdown_declines. intro Hdd.
  assert (Heq : dd = fold_right Rmax 0 (Spec.declines_from e0 (e0 :: rest)))
    by congruence.
  rewrite Heq.
  apply fold_right_Rmax_ge.
Qed.

Lemma fold_right_Rmax_lt (l : list R) (m b : R) :
  m < b -> Forall (fun d => d < b) l -> fold_right Rmax m l < b.
Proof.
  intros Hm Hl. induction Hl as [|d l Hd Hl IH]; [exact Hm|].
  cbn [fold_right]. apply Rmax_lub_lt; assumption.
Qed.

Lemma declines_below_one (curve : list R) (peak : R) :
  0 < peak -> Forall (fun e => 0 < e) curve ->
  Forall (fun d => d < 1) (Spec.declines_from peak curve).
Proof.
  intros Hpeak Hcurve. revert peak Hpeak.
  induction Hcurve as [|e curve He Hcurve IH]; intros peak Hpeak; [constructor|].
  unfold Spec.declines_from. cbn [Spec.running_peaks combine map fst snd].
  assert (Hmax : 0 < Rmax peak e)
    by (eapply Rlt_le_trans; [exact Hpeak | apply Rmax_l]).
  constructor; [|apply IH; exact Hmax].
  apply Rmult_lt_reg_r with (r := Rmax peak e); [exact Hmax|].
  unfold Rdiv. rewrite Rmult_assoc, Rinv_l by lra. lra.
Qed.

Lemma calculateDrawdown_below_one (curve : list R) (dd : R) :
  Forall (fun e => 0 < e) curve ->
  calculateDrawdown curve = Done dd -> dd < 1.
Proof.
  intros Hpos. destruct curve as [|e0 rest]; [discriminate|].
  rewrite calculateDrawdown_declines. intro Hdd.
  assert (Heq : dd = fold_right Rmax 0 (Spec.declines_from e0 (e0 :: rest)))
    by congruence.
  rewrite Heq.
  apply fold_right_Rmax_lt; [lra|].
  apply declines_below_one; [|exact Hpos].
  now inversion Hpos.
Qed.

Variable G : Type.
Variable dist : nat -> G -> nat * G.
Hypothesis dist_in_range : in_range dist.

Lemma simulated_drawdown_range (trades : list R) (fraction : R) (N : Z)
    (capital : R) (rng : G) :
  valid_series trades -> valid_path_length N -> 0 < capital ->
  exists curve dd rng',
    make_one_equity_sequence dist trades fraction N capital rng
    = Ret (curve, dd, rng')
    /\ 0 <= dd
    /\ Forall (fun peak => 0 < peak) (divisors curve)
    /\ ((forall r, In r trades -> 0 < 1 + r * fraction) ->
        Forall (fun e => 0 < e) curve /\ dd < 1).
Proof.
  intros Hseries HN Hcap.
  destruct (make_one_equity_sequence_spec dist_in_range fraction capital rng
              Hseries HN)
    as (curve & dd & rng' & Hrun & Hlen & Hfirst & Hdd & Hsteps).
  exists curve, dd, rng'.
  split; [exact Hrun|].
  split; [exact (calculateDrawdown_nonneg _ Hdd)|].
  split.
  { destruct curve as [|e0 rest]; [discriminate|].
    injection Hfirst as ->.
    eapply Forall_impl; [|apply divisors_ge_first].
    intros p Hp. cbn beta in Hp. lra. }
  intro Hgain.
  assert (Hall : forall j e, (j <= Z.to_nat N)%nat ->
                             nth_error curve j = Some e -> 0 < e).
  { induction j as [|j IHj]; intros e Hj He.
    - rewrite Hfirst in He. now injection He as <-.
    - destruct (Hsteps j) as (idx & r & prev & _ & _ & Hr & Hprev & Hnext); [lia|].
      rewrite Hnext in He. injection He as <-.
      assert (0 < prev) by (apply IHj; [lia | exact Hprev]).
      assert (0 < 1 + r * fraction) by (apply Hgain; eapply nth_error_In; exact Hr).
      cbn [add mul real]. nra. }
  assert (Hpos : Forall (fun e => 0 < e) curve).
  { apply Forall_forall. intros e He.
    destruct (In_nth_error _ _ He) as (j & Hj).
    apply (Hall j); [|exact Hj].
    assert (j < length curve)%nat by (apply nth_error_Some; congruence). lia. }
  split; [exact Hpos | exact (calculateDrawdown_below_one Hpos Hdd)].
Qed.

End DrawdownRange.

(** Decide the maxima of the goal whose arguments [lra] can compare. *)
Ltac decide_maxima :=
  repeat match goal with
    | |- context [Rmax ?p ?e] =>
        first [ rewrite (Rmax_left p e) by lra
              | rewrite (Rmax_right p e) by lra ]
    end.

(** ** Sorting and the 25th percentile *)

Section PercentileProofs.

Import RealArith.
Local Open Scope R_scope.

Lemma insert_length {D : Type} `{Double D} (x : D) (l : list D) :
  length (insert x l) = S (length l).
Proof.
  induction l as [|y l IH]; [reflexivity|].
  cbn [insert]. destruct (y <? x)%D; cbn [length]; [now rewrite IH | reflexivity].
Qed.

Lemma sort_length {D : Type} `{Double D} (l : list D) :
  length (sort l) = length l.
Proof.
  induction l as [|x l IH]; [reflexivity|].
  cbn [sort fold_right]. fold (sort l). rewrite insert_length. now rewrite IH.
Qed.

Lemma insert_permutation {D : Type} `{Double D} (x : D) (l : list D) :
  Permutation (x :: l) (insert x l).
Proof.
  induction l as [|y l IH]; [apply Permutation_refl|].
  cbn [insert]. destruct (y <? x)%D; [|apply Permutation_refl].
  eapply perm_trans; [apply perm_swap|]. now apply perm_skip.
Qed.

Lemma sort_permutation {D : Type} `{Double D} (l : list D) :
  Permutation l (sort l).
Proof.
  induction l as [|x l IH]; [apply perm_nil|].
  cbn [sort fold_right]. fold (sort l).
  eapply perm_trans; [apply perm_skip; exact IH | apply insert_permutation].
Qed.

Lemma insert_sorted (x : R) (l : list R) :
  Sorted Rle l -> Sorted Rle (insert x l).
Proof.
  induction 1 as [|y l Hl IH Hy]; [repeat constructor|].
  cbn [insert ltb real]. unfold Rltb. destruct (Rlt_dec y x) as [Hlt | Hge].
  - constructor; [exact IH|].
    destruct l as [|z l]; cbn [insert ltb real].
    + constructor. lra.
    + unfold Rltb. destruct (Rlt_dec z x); constructor; [now inversion Hy | lra].
  - constructor; [now constructor|]. constructor. lra.
Qed.

Lemma sort_sorted (l : list R) : Sorted Rle (sort l).
Proof.
  induction l as [|x l IH]; [constructor|].
  cbn [sort fold_right]. fold (sort l). now apply insert_sorted.
Qed.

Lemma Zceil_IZR (z : Z) : Zceil (IZR z) = z.
Proof. unfold Zceil. rewrite ZfloorNZ. lia. Qed.

Lemma Ztrunc_IZR (z : Z) : Ztrunc (IZR z) = z.
Proof.
  unfold Ztrunc. destruct (Rle_dec 0 (IZR z)); [apply ZfloorZ | apply Zceil_IZR].
Qed.

(** The rank [ceil(0.25 * n)] of a count [n >= 1] lies in [[1, n]]. *)
Lemma quarter_rank_bounds (n : Z) :
  (1 <= n)%Z -> (1 <= Zceil (1 / 4 * IZR n) <= n)%Z.
Proof.
  intro Hn. pose proof (Zceil_bound (1 / 4 * IZR n)) as [Hlo Hhi].
  apply IZR_le in Hn.
  split.
  - assert (Hpos : IZR 0 < IZR (Zceil (1 / 4 * IZR n))) by lra.
    apply lt_IZR in Hpos. lia.
  - assert (Hlt : IZR (Zceil (1 / 4 * IZR n) - 1) < IZR n)
      by (rewrite minus_IZR; lra).
    apply lt_IZR in Hlt. lia.
Qed.

Lemma CAR25_of_rank (CAR_list : list R) :
  CAR_list <> [] -> (size CAR_list <= SIZE_MAX)%Z ->
  exists CAR25,
    CAR25_of CAR_list = Done CAR25
    /\ Spec.at_rank (Spec.rank25 (size CAR_list)) (sort CAR_list) = Some CAR25
    /\ Spec.rank25 (size CAR_list) = Zceil (0.25 * IZR (size CAR_list)).
Proof.
  intros Hne Hmax.
  assert (Hn : (1 <= size CAR_list)%Z)
    by (unfold size; destruct CAR_list; [contradiction | simpl; lia]).
  pose proof (quarter_rank_bounds Hn) as Hrank.
  assert (Hsize : size (sort CAR_list) = size CAR_list)
    by (unfold size; now rewrite sort_length).
  set (c := Zceil (1 / 4 * IZR (size CAR_list))) in *.
  assert (Hq : Zceil (0.25 * IZR (size CAR_list)) = c)
    by (unfold c; f_equal; lra).
  assert (Hr25 : Spec.rank25 (size CAR_list) = c)
    by (unfold Spec.rank25; rewrite Hq; lia).
  destruct (@nth_error_inside _ (sort CAR_list) (Z.to_nat (c - 1))) as (x & Hx).
  { rewrite sort_length. unfold size in *. lia. }
  exists x. split; [|split].
  - unfold CAR25_of, cast_size_t, dec. cbn [trunc ceil mul div of_Z real].
    rewrite Hsize. fold c. rewrite Ztrunc_IZR.
    replace ((0 <=? c) && (c <=? SIZE_MAX))%Z with true
      by (symmetry; apply andb_true_intro; split; apply Z.leb_le; lia).
    unfold size_t_wrap. unfold SIZE_MAX in *.
    rewrite !Z.mod_small by lia.
    rewrite Z.min_l by lia.
    unfold vec_get. rewrite sort_length.
    replace ((0 <=? c - 1) && (c - 1 <? Z.of_nat (length CAR_list)))%Z with true.
    + now rewrite Hx.
    + symmetry. apply andb_true_intro. unfold size in *.
      split; [apply Z.leb_le | apply Z.ltb_lt]; lia.
  - rewrite Hr25. unfold Spec.at_rank.
    replace (c <? 1)%Z with false by (symmetry; apply Z.ltb_ge; lia). exact Hx.
  - now rewrite Hr25.
Qed.

Lemma fixture_CAR25 : CAR25_of [1; 2; 3; 4; 5; 6; 7; 8] = Done 2.
Proof.
  destruct (@CAR25_of_rank [1; 2; 3; 4; 5; 6; 7; 8]) as (x & Hrun & Hrank & Hr25);
    [discriminate | vm_compute; discriminate |].
  rewrite Hrun. f_equal.
  rewrite Hr25 in Hrank.
  replace (0.25 * IZR (size [1; 2; 3; 4; 5; 6; 7; 8])) with (IZR 2) in Hrank
    by (unfold size; cbn [length]; replace (Z.of_nat 8) with 8%Z by reflexivity; lra).
  rewrite Zceil_IZR in Hrank.
  unfold Spec.at_rank in Hrank.
  change (2 <? 1)%Z with false in Hrank.
  change (Z.to_nat (2 - 1)) with 1%nat in Hrank.
  cbn [sort fold_right] in Hrank.
  repeat (cbn [insert ltb real] in Hrank;
          repeat match type of Hrank with
            | context [Rltb ?a ?b] =>
                first [ rewrite (@Rltb_true a b) in Hrank by lra
                      | rewrite (@Rltb_false a b) in Hrank by lra ]
            end).
  cbn [nth_error] in Hrank. congruence.
Qed.

End PercentileProofs.

(** ** The repetition: bisection, CAR distribution, percentile *)

Section RepetitionProofs.

Context {D : Type} `{Double D}.
Variable G : Type.
Variable dist : nat -> G -> nat * G.

Lemma bind_inv {A B : Type} (m : sim G A) (k : A -> sim G B) rng b rng' :
  bind m k rng = Ret (b, rng') ->
  exists a rng1, m rng = Ret (a, rng1) /\ k a rng1 = Ret (b, rng').
Proof.
  unfold bind. destruct (m rng) as [[a rng1] | f |]; try discriminate.
  intro Hk. now exists a, rng1.
Qed.

Lemma CAR_loop_length trades fraction days N capital :
  forall n CAR_list rng CAR_list' rng',
    CAR_loop dist n trades fraction days N capital CAR_list rng
    = Ret (CAR_list', rng') ->
    length CAR_list' = (length CAR_list + n)%nat.
Proof.
  induction n as [|n IH]; intros CAR_list rng CAR_list' rng' Hrun.
  - injection Hrun as <- _. lia.
  - cbn [CAR_loop] in Hrun.
    apply bind_inv in Hrun. destruct Hrun as ([curve dd] & rng1 & _ & Hrun).
    apply bind_inv in Hrun. destruct Hrun as (final & rng2 & _ & Hrun).
    apply IH in Hrun. rewrite Hrun, length_app. simpl. lia.
Qed.

(** What a repetition pushes as CAR25 is the percentile of the
    [number_equity_in_CDF] CAR values it collected. *)
Lemma repetition_percentile fuel trades days N capital tail_percentile
    tolerance n rng safe_f CAR25 rng' :
  repetition dist fuel trades days N capital tail_percentile tolerance n rng
  = Ret (safe_f, CAR25, rng') ->
  exists CAR_list,
    length CAR_list = Z.to_nat n /\ CAR25_of CAR_list = Done CAR25.
Proof.
  unfold repetition. intro Hrun.
  apply bind_inv in Hrun. destruct Hrun as (st & rng1 & _ & Hrun).
  apply bind_inv in Hrun. destruct Hrun as (CAR_list & rng2 & Hloop & Hrun).
  apply bind_inv in Hrun. destruct Hrun as (c & rng3 & Hlift & Hret).
  exists CAR_list. split; [now apply CAR_loop_length in Hloop|].
  unfold lift in Hlift. destruct (CAR25_of CAR_list); [|discriminate].
  injection Hlift as -> _. injection Hret as _ <- _. reflexivity.
Qed.

Hypothesis dist_in_range : in_range dist.

Variable trades : list D.
Variable N : Z.
Hypothesis trades_valid : valid_series trades.
Hypothesis N_valid : valid_path_length N.

Lemma CAR_loop_returns fraction days capital :
  forall n CAR_list rng,
    exists CAR_list' rng',
      CAR_loop dist n trades fraction days N capital CAR_list rng
      = Ret (CAR_list', rng').
Proof.
  induction n as [|n IH]; intros CAR_list rng.
  - exists CAR_list, rng. reflexivity.
  - cbn [CAR_loop].
    destruct (make_one_equity_sequence_returns dist_in_range trades_valid
                N_valid fraction capital rng)
      as (curve & dd & rng1 & Hrun & Hne).
    erewrite bind_ret by exact Hrun.
    destruct (back_inside Hne) as (final & Hback).
    unfold bind at 1. unfold defined. rewrite Hback.
    apply IH.
Qed.

Variables capital tail_percentile tolerance : D.
Variable n : Z.

(** A pass of the bisection returns, and counts one more iteration. *)
Lemma bisection_body_returns (st : bisection) (rng : G) :
  exists st' rng',
    bisection_body dist trades N capital tail_percentile tolerance n st rng
    = Ret (st', rng')
    /\ iteration st' = (iteration st + 1)%Z.
Proof.
  unfold bisection_body.
  destruct (analyze_distribution_of_drawdown_returns dist_in_range trades_valid
              N_valid ((lower_bound st + upper_bound st) / of_Z 2)%D capital
              tolerance n rng)
    as (tail & rng' & Hrun).
  erewrite bind_ret by exact Hrun.
  eexists _, rng'. split; [reflexivity|].
  destruct (fabs _ <? _)%D; [reflexivity|].
  destruct (_ <? tail)%D; reflexivity.
Qed.

(** The [while] loop leaves within [max_iterations] passes, with any
    invariant of its body, whenever the fuel covers the passes that remain. *)
Lemma bisection_loop_terminates (Inv : bisection -> Prop) :
  (forall st rng st' rng',
      Inv st ->
      bisection_body dist trades N capital tail_percentile tolerance n st rng
      = Ret (st', rng') ->
      Inv st') ->
  forall fuel st rng,
    Inv st ->
    (Z.to_nat (max_iterations - iteration st) <= fuel)%nat ->
    exists st' rng',
      bisection_loop dist fuel trades N capital tail_percentile tolerance n
                     st rng
      = Ret (st', rng')
      /\ Inv st'
      /\ bisection_cond st' = false
      /\ (iteration st <= iteration st' <= Z.max (iteration st) max_iterations)%Z.
Proof.
  intros Hbody fuel. induction fuel as [|fuel IH]; intros st rng Hinv Hfuel.
  - exists st, rng.
    assert (Hcond : bisection_cond st = false).
    { unfold bisection_cond. apply andb_false_intro2. apply Z.ltb_ge. lia. }
    cbn [bisection_loop]. rewrite Hcond.
    split; [reflexivity|]. split; [exact Hinv|]. split; [reflexivity | lia].
  - cbn [bisection_loop]. destruct (bisection_cond st) eqn:Hcond.
    + destruct (bisection_body_returns st rng) as (st1 & rng1 & Hrun & Hiter).
      erewrite bind_ret by exact Hrun.
      assert (Hlt : (iteration st < max_iterations)%Z).
      { unfold bisection_cond in Hcond. apply andb_prop in Hcond.
        apply Z.ltb_lt. exact (proj2 Hcond). }
      destruct (IH st1 rng1) as (st' & rng' & Hloop & Hinv' & Hcond' & Hiter').
      { eapply Hbody; [exact Hinv | exact Hrun]. }
      { lia. }
      exists st', rng'.
      split; [exact Hloop|]. split; [exact Hinv'|]. split; [exact Hcond' | lia].
    + exists st, rng.
      split; [reflexivity|]. split; [exact Hinv|]. split; [exact Hcond | lia].
Qed.

End RepetitionProofs.

(** ** The bisection in exact arithmetic *)

Section BisectionRange.

Import RealArith.
Local Open Scope R_scope.

Variable G : Type.
Variable dist : nat -> G -> nat * G.
Hypothesis dist_in_range : in_range dist.

Variable trades : list R.
Variable N : Z.
Hypothesis trades_valid : valid_series trades.
Hypothesis N_valid : valid_path_length N.

Variables capital tail_percentile tolerance : R.
Variable n : Z.

Lemma bracketed_init : Spec.bracketed bisection_init.
Proof. unfold Spec.bracketed, bisection_init. cbn [lower_bound upper_bound fraction of_Z real]. lra. Qed.

Lemma bracketed_body (st : bisection) (rng : G) (st' : bisection) (rng' : G) :
  Spec.bracketed st ->
  bisection_body dist trades N capital tail_percentile tolerance n st rng
  = Ret (st', rng') ->
  Spec.bracketed st'.
Proof.
  intros (Hl & Hlu & Hu & Hf) Hrun. unfold bisection_body in Hrun.
  apply bind_inv in Hrun. destruct Hrun as (tail & rng1 & _ & Hret).
  unfold ret in Hret. injection Hret as <- _.
  unfold Spec.bracketed, next_iteration.
  repeat match goal with
    | |- context [if ?c then _ else _] => destruct c
    end;
    cbn [lower_bound upper_bound fraction add div of_Z real]; lra.
Qed.

Lemma bisection_returns (fuel : nat) (rng : G) :
  (1000 <= fuel)%nat ->
  exists st rng',
    bisection_loop dist fuel trades N capital tail_percentile tolerance n
                   bisection_init rng
    = Ret (st, rng')
    /\ Spec.bracketed st
    /\ bisection_cond st = false
    /\ (0 <= iteration st <= 1000)%Z.
Proof.
  intro Hfuel.
  destruct (@bisection_loop_terminates R real G dist dist_in_range trades N
              trades_valid N_valid capital tail_percentile tolerance n
              Spec.bracketed bracketed_body fuel bisection_init rng bracketed_init)
    as (st & rng' & Hrun & Hinv & Hcond & Hiter).
  { unfold max_iterations, bisection_init. cbn [iteration]. lia. }
  exists st, rng'. unfold max_iterations, bisection_init in Hiter.
  cbn [iteration] in Hiter.
  split; [exact Hrun|]. split; [exact Hinv|]. split; [exact Hcond | lia].
Qed.

Variable days : Z.
Hypothesis n_valid : (0 < n <= INT_MAX)%Z.

Lemma repetition_returns (fuel : nat) (rng : G) :
  (1000 <= fuel)%nat ->
  exists safe_f CAR25 rng',
    repetition dist fuel trades days N capital tail_percentile tolerance n rng
    = Ret (safe_f, CAR25, rng')
    /\ 0 <= safe_f <= 10.
Proof.
  intro Hfuel. unfold repetition.
  destruct (bisection_returns rng Hfuel) as (st & rng1 & Hrun & Hinv & _).
  erewrite bind_ret by exact Hrun.
  destruct (@CAR_loop_returns R real G dist dist_in_range trades N trades_valid
              N_valid (fraction st) days capital (Z.to_nat n) [] rng1)
    as (CAR_list & rng2 & Hloop).
  erewrite bind_ret by exact Hloop.
  apply CAR_loop_length in Hloop. cbn [length] in Hloop.
  destruct (@CAR25_of_rank CAR_list) as (CAR25 & Hperc & _).
  { destruct CAR_list; [simpl in Hloop; lia | discriminate]. }
  { unfold size. rewrite Hloop. unfold INT_MAX, SIZE_MAX in *. lia. }
  exists (fraction st), CAR25, rng2.
  split; [|exact (proj2 (proj2 (proj2 Hinv)))].
  unfold bind, lift. rewrite Hperc. reflexivity.
Qed.

Lemma repetitions_return (fuel : nat) :
  (1000 <= fuel)%nat ->
  forall reps safe_f_list CAR25_list rng,
    Forall (fun f => 0 <= f <= 10) safe_f_list ->
    exists safe_f_list' CAR25_list' rng',
      repetitions dist reps fuel trades days N capital tail_percentile
                  tolerance n safe_f_list CAR25_list rng
      = Ret (safe_f_list', CAR25_list', rng')
      /\ length safe_f_list' = (length safe_f_list + reps)%nat
      /\ length CAR25_list' = (length CAR25_list + reps)%nat
      /\ Forall (fun f => 0 <= f <= 10) safe_f_list'.
Proof.
  intros Hfuel reps. induction reps as [|reps IH]; intros fs cs rng Hfs.
  - exists fs, cs, rng. repeat split; [lia | lia | exact Hfs].
  - cbn [repetitions].
    destruct (repetition_returns rng Hfuel) as (f & c & rng1 & Hrun & Hf).
    erewrite bind_ret by exact Hrun.
    destruct (IH (fs ++ [f]) (cs ++ [c]) rng1) as (fs' & cs' & rng' & Hloop & Hlf & Hlc & Hall).
    { apply Forall_app. split; [exact Hfs | now constructor]. }
    exists fs', cs', rng'. rewrite length_app in Hlf, Hlc. cbn [length] in Hlf, Hlc.
    split; [exact Hloop|]. split; [lia|]. split; [lia | exact Hall].
Qed.

End BisectionRange.

(** ** The empty trade series *)

Section EmptySeries.

Context {D : Type} `{Double D}.
Variable G : Type.
Variable dist : nat -> G -> nat * G.

(** With no trade to draw, the bounds of the distribution are [(0, -1)]. *)
Lemma make_one_equity_sequence_empty (fraction : D) (N : Z) (capital : D)
    (rng : G) :
  valid_path_length N ->
  make_one_equity_sequence dist [] fraction N capital rng = Stop UB.
Proof.
  intros [HN0 HNmax]. unfold make_one_equity_sequence.
  replace (N =? INT_MAX)%Z with false by (symmetry; apply Z.eqb_neq; lia).
  replace (N + 1 <? 0)%Z with false by (symmetry; apply Z.ltb_ge; lia).
  replace (Z.to_nat (N + 1)) with (S (Z.to_nat N)) by lia.
  reflexivity.
Qed.

Lemma risk_normalization_empty fuel days N capital tail_percentile tolerance
    n reps rng :
  valid_path_length N -> (0 < n)%Z -> (0 < reps)%Z -> (0 < fuel)%nat ->
  risk_normalization dist fuel [] days N capital tail_percentile tolerance
                     n reps rng
  = Stop UB.
Proof.
  intros HN Hn Hreps Hfuel.
  unfold risk_normalization.
  destruct (Z.to_nat reps) as [|reps'] eqn:Hr; [lia|].
  destruct fuel as [|fuel']; [lia|].
  destruct (Z.to_nat n) as [|n'] eqn:Hn'; [lia|].
  cbn [repetitions]. unfold repetition.
  cbn [bisection_loop]. unfold bisection_cond, bisection_init at 1 2.
  cbn [done iteration negb andb].
  change (0 <? max_iterations)%Z with true. cbv iota.
  unfold bisection_body, analyze_distribution_of_drawdown.
  rewrite Hn'. cbn [exceed_loop].
  unfold bind. now rewrite (make_one_equity_sequence_empty _ _ _ HN).
Qed.

Lemma main_empty (fuel : nat) (rng : G) :
  main dist fuel [] rng
  = Ret ({| status := 1;
            complaint := Some "No trades data found."%string;
            report := None |}, rng).
Proof. reflexivity. Qed.

End EmptySeries.

(** ** Drawdown in binary64 *)

Section SpecFloatCases.

Lemma SFltb_irrefl (x : spec_float) : SFltb x x = false.
Proof.
  unfold SFltb. destruct x as [s | s | | s m e]; try (destruct s; reflexivity).
  - reflexivity.
  - cbn [SFcompare]. rewrite Z.compare_refl.
    change (Pos.compare_cont Eq m m) with (Pos.compare m m).
    rewrite Pos.compare_refl. destruct s; reflexivity.
Qed.

Lemma SFsub_diag_finite (s : bool) (m : positive) (e : Z) :
  SF64sub (S754_finite s m e) (S754_finite s m e) = S754_zero false.
Proof.
  unfold SF64sub, SFsub. rewrite Z.sub_diag. reflexivity.
Qed.

(** [(x - x) / x] is never above [+0]. *)
Lemma decline_of_peak (x : spec_float) :
  SFltb (S754_zero false) (SF64div (SF64sub x x) x) = false.
Proof.
  destruct x as [s | s | | s m e].
  - destruct s; reflexivity.
  - destruct s; reflexivity.
  - reflexivity.
  - rewrite SFsub_diag_finite. reflexivity.
Qed.

Lemma SFcompare_Eq_cases (x y : spec_float) :
  SFcompare x y = Some Eq ->
  x = y \/ (exists s t, x = S754_zero s /\ y = S754_zero t).
Proof.
  destruct x as [s | s | | s m e], y as [t | t | | t n f]; cbn [SFcompare];
    try discriminate;
    try (destruct s; discriminate); try (destruct t; discriminate).
  - intros _. right. now exists s, t.
  - destruct s, t; try discriminate; intros _; now left.
  - destruct s, t; try discriminate;
      (destruct (Z.compare e f) eqn:Hef; try discriminate;
       apply Z.compare_eq in Hef; subst f;
       change (Pos.compare_cont Eq m n) with (Pos.compare m n);
       destruct (Pos.compare m n) eqn:Hmn; try discriminate;
       apply Pos.compare_eq in Hmn; subst n; intros _; now left).
Qed.

Lemma decline_of_equal (x y : spec_float) :
  SFcompare x y = Some Eq ->
  SFltb (S754_zero false) (SF64div (SF64sub x y) x) = false.
Proof.
  intro Heq. destruct (@SFcompare_Eq_cases _ _ Heq) as [<- | (s & t & -> & ->)].
  - apply decline_of_peak.
  - destruct s, t; reflexivity.
Qed.

Lemma SFcompare_Eq_left (x y z : spec_float) :
  SFcompare x y = Some Eq -> SFcompare x z = SFcompare y z.
Proof.
  intro Heq. destruct (@SFcompare_Eq_cases _ _ Heq) as [<- | (s & t & -> & ->)];
    [reflexivity|].
  destruct z; reflexivity.
Qed.

Lemma SFleb_not_ltb (x y : spec_float) :
  SFleb x y = true -> SFltb x y = false -> SFcompare x y = Some Eq.
Proof.
  unfold SFleb, SFltb. destruct (SFcompare x y) as [[| |]|]; congruence.
Qed.

End SpecFloatCases.

Section FloatDrawdown.

Variable fpow : float -> float -> float.
Local Abbreviation b64 := (Binary64.binary64 fpow).

Lemma rising_from_equal (p e : float) (rest : list float) :
  SFcompare (Prim2SF p) (Prim2SF e) = Some Eq ->
  Binary64.rising e rest -> Binary64.rising p rest.
Proof.
  intros Heq. destruct rest as [|y rest]; [trivial|].
  cbn [Binary64.rising]. intros [Hle Hrest]. split; [|exact Hrest].
  rewrite leb_spec in *. unfold SFleb in *.
  now rewrite (@SFcompare_Eq_left _ _ _ Heq).
Qed.

Lemma drawdown_step_same (e : float) :
  @drawdown_step float b64 (e, PrimFloat.zero) e = (e, PrimFloat.zero).
Proof.
  unfold drawdown_step. cbn [ltb sub div Binary64.binary64].
  rewrite (ltb_spec e e), SFltb_irrefl.
  rewrite ltb_spec, div_spec, sub_spec.
  change (Prim2SF PrimFloat.zero) with (S754_zero false).
  now rewrite decline_of_peak.
Qed.

Lemma drawdown_step_rising (peak e : float) :
  PrimFloat.leb peak e = true ->
  exists peak',
    @drawdown_step float b64 (peak, PrimFloat.zero) e = (peak', PrimFloat.zero)
    /\ (peak' = e \/ (peak' = peak
                     /\ SFcompare (Prim2SF peak) (Prim2SF e) = Some Eq)).
Proof.
  intro Hle. unfold drawdown_step. cbn [ltb sub div Binary64.binary64].
  destruct (PrimFloat.ltb peak e) eqn:Hlt.
  - exists e. split; [|now left].
    rewrite ltb_spec, div_spec, sub_spec.
    change (Prim2SF PrimFloat.zero) with (S754_zero false).
    now rewrite decline_of_peak.
  - assert (Heq : SFcompare (Prim2SF peak) (Prim2SF e) = Some Eq)
      by (apply SFleb_not_ltb; [now rewrite <- leb_spec | now rewrite <- ltb_spec]).
    exists peak. split; [|now right].
    rewrite ltb_spec, div_spec, sub_spec.
    change (Prim2SF PrimFloat.zero) with (S754_zero false).
    now rewrite (@decline_of_equal _ _ Heq).
Qed.

Lemma fold_drawdown_rising (curve : list float) (peak : float) :
  Binary64.rising peak curve ->
  snd (fold_left (@drawdown_step float b64) curve (peak, PrimFloat.zero))
  = PrimFloat.zero.
Proof.
  revert peak. induction curve as [|e rest IH]; intros peak Hup; [reflexivity|].
  destruct Hup as [Hle Hrest]. cbn [fold_left].
  destruct (@drawdown_step_rising _ _ Hle) as (peak' & -> & [-> | [-> Heq]]).
  - now apply IH.
  - apply IH. eapply rising_from_equal; eassumption.
Qed.

Lemma calculateDrawdown_rising (e0 : float) (rest : list float) :
  Binary64.rising e0 rest ->
  @calculateDrawdown float b64 (e0 :: rest) = Done PrimFloat.zero.
Proof.
  intro Hup. unfold calculateDrawdown. f_equal. cbn [fold_left].
  change (@of_Z float b64 0) with PrimFloat.zero.
  rewrite drawdown_step_same. now apply fold_drawdown_rising.
Qed.

End FloatDrawdown.

(** ** Risk fraction zero in binary64 *)

Section IntegerToDouble.

Lemma digits2_pos_shift (p k : positive) :
  digits2_pos (Pos.iter xO p k) = (digits2_pos p + k)%positive.
Proof.
  induction k as [|k IH] using Pos.peano_ind.
  - cbn. lia.
  - rewrite Pos.iter_succ. cbn [digits2_pos]. rewrite IH. lia.
Qed.

Lemma digits2_pos_size (p : positive) : digits2_pos p = Pos.size p.
Proof. induction p as [p IH | p IH |]; cbn; congruence. Qed.

Lemma digits2_pos_bound (p : positive) (k : Z) :
  (0 <= k)%Z -> (Zpos p < 2 ^ k)%Z -> (Zpos (digits2_pos p) <= k)%Z.
Proof.
  intros Hk Hp. rewrite digits2_pos_size.
  pose proof (Pos.size_le p) as Hle.
  apply Pos2Z.pos_le_pos in Hle. rewrite Pos2Z.inj_pow in Hle.
  assert (Hlt : (2 ^ Zpos (Pos.size p) < 2 ^ (k + 1))%Z).
  { rewrite Z.pow_add_r by lia. change (2 ^ 1)%Z with 2%Z.
    change (Zpos p~0) with (2 * Zpos p)%Z in Hle. lia. }
  apply Z.pow_lt_mono_r_iff in Hlt; lia.
Qed.

Lemma binary_round_small (p : positive) :
  (Zpos (digits2_pos p) < 53)%Z ->
  exists m e, binary_round prec emax false p 0 = S754_finite false m e.
Proof.
  intro Hd. unfold binary_round, shl_align.
  set (d := Zpos (digits2_pos p)) in *.
  assert (Hfexp : fexp prec emax (d + 0) = (d - 53)%Z).
  { unfold fexp, emin, prec, emax. unfold d. lia. }
  rewrite Hfexp.
  destruct (d - 53 - 0)%Z as [|k|k] eqn:Hk; try lia.
  unfold binary_round_aux, shr_fexp.
  cbn [Zdigits2]. rewrite digits2_pos_shift.
  assert (Hfexp' : fexp prec emax (Zpos (digits2_pos p + k) + (d - 53)) = (d - 53)%Z).
  { unfold fexp, emin, prec, emax. fold d. rewrite Pos2Z.inj_add. fold d. lia. }
  rewrite Hfexp'. rewrite Z.sub_diag. cbn [shr shr_record_of_loc shr_m round_nearest_even loc_of_shr_record].
  cbn [Zdigits2]. rewrite digits2_pos_shift, Hfexp', Z.sub_diag.
  cbn [shr shr_record_of_loc shr_m].
  replace (d - 53 <=? emax - prec)%Z with true
    by (symmetry; apply Z.leb_le; unfold emax, prec; lia).
  eexists _, _. reflexivity.
Qed.

Lemma Z2float_positive (n : Z) :
  (0 < n < 2 ^ 31)%Z ->
  exists m e, Prim2SF (Binary64.Z2float n) = S754_finite false m e.
Proof.
  intros [Hpos Hmax]. destruct n as [|p|p]; try lia.
  cbn [Binary64.Z2float]. rewrite of_uint63_spec, Uint63.of_Z_spec.
  rewrite Z.mod_small by (change Uint63.wB with (2 ^ 63)%Z; lia).
  cbn [binary_normalize]. apply binary_round_small.
  pose proof (@digits2_pos_bound p 31 ltac:(lia) Hmax). lia.
Qed.

End IntegerToDouble.

Section ZeroFractionBinary64.

Lemma positive_finite_spec (x : float) :
  Binary64.positive_finite x ->
  exists m e, Prim2SF x = S754_finite false m e.
Proof.
  intros [Hpos Hfin]. rewrite ltb_spec in Hpos, Hfin.
  change (Prim2SF PrimFloat.zero) with (S754_zero false) in Hpos.
  change (Prim2SF PrimFloat.infinity) with (S754_infinity false) in Hfin.
  destruct (Prim2SF x) as [s | s | | s m e]; try discriminate.
  - destruct s; discriminate.
  - destruct s; [discriminate|]. now exists m, e.
Qed.

Lemma above_zero_not_below (x : float) :
  PrimFloat.ltb PrimFloat.zero x = true -> PrimFloat.ltb x PrimFloat.zero = false.
Proof.
  rewrite !ltb_spec.
  change (Prim2SF PrimFloat.zero) with (S754_zero false).
  destruct (Prim2SF x) as [s | s | | s m e]; try discriminate;
    destruct s; try discriminate; reflexivity.
Qed.

Lemma SFmul_zero_r (x : spec_float) (s : bool) :
  Binary64.zero_or_nan (SF64mul x (S754_zero s)).
Proof.
  destruct x as [t | t | | t m e]; cbn; unfold Binary64.zero_or_nan; eauto.
Qed.

Lemma SFmul_zero_l (z : spec_float) (s : bool) (m : positive) (e : Z) :
  Binary64.zero_or_nan z -> Binary64.zero_or_nan (SF64mul z (S754_finite s m e)).
Proof.
  intros [[t ->] | ->]; cbn; unfold Binary64.zero_or_nan; eauto.
Qed.

Lemma SFadd_zero_r (s : bool) (m : positive) (e : Z) (z : spec_float) :
  Binary64.zero_or_nan z ->
  SF64add (S754_finite s m e) z = S754_finite s m e
  \/ SF64add (S754_finite s m e) z = S754_nan.
Proof.
  intros [[t ->] | ->]; cbn; auto.
Qed.

Variable fpow : float -> float -> float.
Local Abbreviation b64 := (Binary64.binary64 fpow).

Variable capital : float.
Hypothesis capital_valid : Binary64.positive_finite capital.

Local Abbreviation flat := (Binary64.flat capital).

Lemma flat_step (prev r : float) :
  flat prev ->
  flat (PrimFloat.add prev (PrimFloat.mul (PrimFloat.mul r PrimFloat.zero) prev)).
Proof.
  destruct (positive_finite_spec capital_valid) as (m & e & Hcap).
  unfold Binary64.flat. rewrite add_spec, !mul_spec, Hcap.
  change (Prim2SF PrimFloat.zero) with (S754_zero false).
  intros [-> | ->].
  - destruct (@SFadd_zero_r false m e
                (SF64mul (SF64mul (Prim2SF r) (S754_zero false))
                         (S754_finite false m e))) as [-> | ->]; auto.
    apply SFmul_zero_l, SFmul_zero_r.
  - right. destruct (SF64mul (Prim2SF r) (S754_zero false)); reflexivity.
Qed.

Lemma drawdown_step_flat (e : float) :
  flat e ->
  @drawdown_step float b64 (capital, PrimFloat.zero) e
  = (capital, PrimFloat.zero).
Proof.
  destruct (positive_finite_spec capital_valid) as (m & x & Hcap).
  intro He. unfold drawdown_step. cbn [ltb sub div Binary64.binary64].
  assert (Hlt : PrimFloat.ltb capital e = false).
  { rewrite ltb_spec. destruct He as [-> | ->]; [apply SFltb_irrefl|].
    rewrite Hcap. reflexivity. }
  rewrite Hlt. rewrite ltb_spec, div_spec, sub_spec.
  change (Prim2SF PrimFloat.zero) with (S754_zero false).
  destruct He as [-> | ->]; [now rewrite decline_of_peak|].
  rewrite Hcap. reflexivity.
Qed.

Lemma fold_drawdown_flat (curve : list float) :
  Forall flat curve ->
  fold_left (@drawdown_step float b64) curve (capital, PrimFloat.zero)
  = (capital, PrimFloat.zero).
Proof.
  induction 1 as [|e curve He Hcurve IH]; [reflexivity|].
  cbn [fold_left]. now rewrite drawdown_step_flat.
Qed.

Variable G : Type.
Variable dist : nat -> G -> nat * G.
Hypothesis dist_in_range : in_range dist.

Variable trades : list float.
Variable N : Z.
Hypothesis trades_valid : valid_series trades.
Hypothesis N_valid : valid_path_length N.

Lemma flat_curve_binary64 (rng : G) :
  exists curve rng',
    @make_one_equity_sequence float b64 G dist trades PrimFloat.zero N capital
                              rng
    = Ret (curve, PrimFloat.zero, rng')
    /\ Forall flat curve.
Proof.
  destruct (@make_one_equity_sequence_spec float b64 G dist dist_in_range
              trades PrimFloat.zero N capital rng trades_valid N_valid)
    as (curve & dd & rng' & Hrun & Hlen & Hfirst & Hdd & Hsteps).
  assert (Hall : forall j e, (j <= Z.to_nat N)%nat ->
                             nth_error curve j = Some e -> flat e).
  { induction j as [|j IHj]; intros e Hj He.
    - rewrite Hfirst in He. injection He as <-. now left.
    - destruct (Hsteps j) as (idx & r & prev & _ & _ & _ & Hprev & Hnext); [lia|].
      rewrite Hnext in He. injection He as <-.
      apply flat_step. apply (IHj prev); [lia | exact Hprev]. }
  assert (Hflat : Forall flat curve).
  { apply Forall_forall. intros e He.
    destruct (In_nth_error _ _ He) as (j & Hj).
    apply (Hall j); [|exact Hj].
    assert (j < length curve)%nat by (apply nth_error_Some; congruence). lia. }
  exists curve, rng'. split; [|exact Hflat].
  rewrite Hrun. do 3 f_equal.
  destruct curve as [|e0 rest]; [discriminate|].
  injection Hfirst as ->.
  unfold calculateDrawdown in Hdd.
  change (@of_Z float b64 0) with PrimFloat.zero in Hdd.
  rewrite (fold_drawdown_flat Hflat) in Hdd. now injection Hdd.
Qed.

Variable tolerance : float.
Hypothesis tolerance_positive : PrimFloat.ltb PrimFloat.zero tolerance = true.

Lemma exceed_loop_zero_binary64 :
  forall n rng,
    exists rng',
      @exceed_loop float b64 G dist n trades PrimFloat.zero N capital
                   tolerance 0%Z rng
      = Ret (0%Z, rng').
Proof.
  induction n as [|n IH]; intro rng.
  - exists rng. reflexivity.
  - cbn [exceed_loop].
    destruct (flat_curve_binary64 rng) as (curve & rng1 & Hrun & _).
    erewrite bind_ret by exact Hrun.
    cbn [ltb Binary64.binary64].
    rewrite (above_zero_not_below tolerance_positive).
    apply IH.
Qed.

Lemma analyze_zero_binary64 (n : Z) (rng : G) :
  (0 < n <= INT_MAX)%Z ->
  exists rng',
    @analyze_distribution_of_drawdown float b64 G dist trades PrimFloat.zero N
      capital tolerance n rng
    = Ret (PrimFloat.zero, rng').
Proof.
  intro Hn. unfold analyze_distribution_of_drawdown.
  destruct (exceed_loop_zero_binary64 (Z.to_nat n) rng) as (rng' & Hloop).
  erewrite bind_ret by exact Hloop. exists rng'. unfold ret. do 2 f_equal.
  cbn [of_Z div Binary64.binary64 Binary64.Z2float].
  apply Prim2SF_inj. rewrite div_spec.
  destruct (@Z2float_positive n) as (m & e & ->);
    [unfold INT_MAX in Hn; lia | reflexivity].
Qed.

End ZeroFractionBinary64.

(** ** The sign of the drawdown and of its divisors in binary64 *)

Section DrawdownSignBinary64.

(** Above a positive value there are only positive values. *)
Lemma SFltb_above_positive (x y : spec_float) :
  SFltb (S754_zero false) x = true -> SFltb x y = true ->
  SFltb (S754_zero false) y = true.
Proof.
  destruct x as [s | s | | s m e]; try discriminate;
    destruct s; try discriminate;
    destruct y as [t | t | | t n f]; try discriminate;
    destruct t; try discriminate; reflexivity.
Qed.

(** Above a non-negative value there are only non-negative values. *)
Lemma SFltb_above_nonnegative (x y : spec_float) :
  SFleb (S754_zero false) x = true -> SFltb x y = true ->
  SFleb (S754_zero false) y = true.
Proof.
  destruct x as [s | s | | s m e]; try discriminate;
    try (destruct s; try discriminate);
    destruct y as [t | t | | t n f]; try discriminate;
    destruct t; try discriminate; reflexivity.
Qed.

Variable fpow : float -> float -> float.
Local Abbreviation b64 := (Binary64.binary64 fpow).

Lemma drawdown_step_signs (peak m e : float) :
  Binary64.positive peak -> Binary64.nonnegative m ->
  Binary64.positive (fst (@drawdown_step float b64 (peak, m) e))
  /\ Binary64.nonnegative (snd (@drawdown_step float b64 (peak, m) e)).
Proof.
  unfold Binary64.positive, Binary64.nonnegative. intros Hpeak Hm.
  unfold drawdown_step. cbn [ltb sub div Binary64.binary64 fst snd].
  split.
  - destruct (PrimFloat.ltb peak e) eqn:Hlt; [|exact Hpeak].
    rewrite ltb_spec in *. eapply SFltb_above_positive; eassumption.
  - match goal with |- context [if ?c then _ else _] => destruct c eqn:Hlt end;
      [|exact Hm].
    rewrite leb_spec in *. rewrite ltb_spec in Hlt.
    eapply SFltb_above_nonnegative; eassumption.
Qed.

Lemma drawdown_states_signs (curve : list float) (peak m : float) :
  Binary64.positive peak -> Binary64.nonnegative m ->
  Forall (fun st => Binary64.positive (fst st) /\ Binary64.nonnegative (snd st))
         (@drawdown_states float b64 (peak, m) curve).
Proof.
  revert peak m. induction curve as [|e rest IH]; intros peak m Hpeak Hm;
    [constructor|].
  cbn [drawdown_states].
  destruct (drawdown_step_signs e Hpeak Hm) as [Hp' Hm'].
  constructor; [now split|].
  destruct (@drawdown_step float b64 (peak, m) e) as [peak' m'].
  now apply IH.
Qed.

(** On a curve that starts from a positive value the loop divides by
    positive peaks only and returns a non-negative drawdown. *)
Lemma calculateDrawdown_signs (e0 : float) (rest : list float) :
  Binary64.positive e0 ->
  Forall Binary64.positive (@divisors float b64 (e0 :: rest))
  /\ exists dd, @calculateDrawdown float b64 (e0 :: rest) = Done dd
                /\ Binary64.nonnegative dd.
Proof.
  intro He0.
  assert (Hzero : Binary64.nonnegative (@of_Z float b64 0)) by reflexivity.
  pose proof (@drawdown_states_signs (e0 :: rest) e0 (@of_Z float b64 0) He0 Hzero)
    as Hall.
  split.
  - unfold divisors. apply Forall_map.
    eapply Forall_impl; [|exact Hall]. now intros st [Hp _].
  - eexists. split; [reflexivity|].
    rewrite fold_drawdown_states.
    set (states := drawdown_states _ _) in *.
    assert (Hlast : Binary64.positive (fst (last states (e0, @of_Z float b64 0)))
                    /\ Binary64.nonnegative (snd (last states (e0, @of_Z float b64 0)))).
    { destruct (@exists_last _ states) as (l & st & Heq);
        [unfold states; discriminate|].
      rewrite Heq in *. rewrite last_last.
      apply Forall_app in Hall. destruct Hall as [_ Hst]. now inversion Hst. }
    exact (proj2 Hlast).
Qed.

End DrawdownSignBinary64.

(** ** Simulated curves and CAGR in binary64 *)

Section SimulatorBinary64.

Variable fpow : float -> float -> float.
Local Abbreviation b64 := (Binary64.binary64 fpow).

Variable G : Type.
Variable dist : nat -> G -> nat * G.
Hypothesis dist_in_range : in_range dist.

Lemma simulated_drawdown_signs (trades : list float) (fraction : float)
    (N : Z) (capital : float) (rng : G) :
  valid_series trades -> valid_path_length N -> Binary64.positive capital ->
  exists curve dd rng',
    @make_one_equity_sequence float b64 G dist trades fraction N capital rng
    = Ret (curve, dd, rng')
    /\ Forall Binary64.positive (@divisors float b64 curve)
    /\ Binary64.nonnegative dd.
Proof.
  intros Hseries HN Hcap.
  destruct (@make_one_equity_sequence_spec float b64 G dist dist_in_range
              trades fraction N capital rng Hseries HN)
    as (curve & dd & rng' & Hrun & _ & Hfirst & Hdd & _).
  exists curve, dd, rng'. split; [exact Hrun|].
  destruct curve as [|e0 rest]; [discriminate|].
  injection Hfirst as ->.
  destruct (@calculateDrawdown_signs fpow capital rest Hcap)
    as (Hdiv & dd' & Hdd' & Hnonneg).
  split; [exact Hdiv|].
  rewrite Hdd in Hdd'. now injection Hdd' as ->.
Qed.

Lemma calculateCAGR_sentinel_binary64 (initial final years : float) :
  PrimFloat.leb initial PrimFloat.zero = true
  \/ PrimFloat.leb final PrimFloat.zero = true
  \/ PrimFloat.leb years PrimFloat.zero = true ->
  @calculateCAGR float b64 initial final years = PrimFloat.zero.
Proof.
  intro Hnp. unfold calculateCAGR.
  cbn [leb of_Z Binary64.binary64 Binary64.Z2float].
  destruct Hnp as [-> | [-> | ->]];
    [reflexivity | now rewrite orb_true_r | now rewrite orb_true_r].
Qed.

End SimulatorBinary64.

(** ** The simulator as a function of the draws *)

Section PathProofs.

Context {D : Type} `{Double D}.
Variable G : Type.
Variable dist : nat -> G -> nat * G.
Hypothesis dist_in_range : in_range dist.

Lemma vec_set_app {A : Type} (pre l : list A) (i : nat) (x : A) :
  vec_set (pre ++ l) (length pre + i) x
  = match vec_set l i x with
    | Some w => Some (pre ++ w)
    | None => None
    end.
Proof.
  induction pre as [|y pre IH]; cbn [app length Nat.add].
  - destruct (vec_set l i x); reflexivity.
  - cbn [vec_set]. rewrite IH. destruct (vec_set l i x); reflexivity.
Qed.

Lemma draws_length (hi n : nat) (rng : G) : length (draws dist hi n rng) = n.
Proof.
  revert rng. induction n as [|n IH]; intro rng; [reflexivity|].
  cbn [draws]. destruct (dist hi rng) as [idx rng1]. cbn [length].
  now rewrite IH.
Qed.

Lemma path_length (trades : list D) (fraction equity : D) (idxs : list nat) :
  length (path trades fraction equity idxs) = S (length idxs).
Proof.
  revert equity. induction idxs as [|idx rest IH]; intro equity; [reflexivity|].
  cbn [path length]. now rewrite IH.
Qed.

Lemma advance_add (hi a b : nat) (rng : G) :
  advance dist hi (a + b) rng = advance dist hi b (advance dist hi a rng).
Proof.
  revert rng. induction a as [|a IH]; intro rng; [reflexivity|].
  cbn [Nat.add advance]. apply IH.
Qed.

Lemma equity_loop_path (trades : list D) (fraction : D) (hi : nat) :
  length trades = S hi ->
  forall n pre prev rng,
    equity_loop dist n (S (length pre)) trades fraction hi
                (pre ++ prev :: repeat (of_Z 0) n) rng
    = Ret (pre ++ path trades fraction prev (draws dist hi n rng),
           advance dist hi n rng).
Proof.
  intros Hhi n. induction n as [|n IH]; intros pre prev rng; [reflexivity|].
  cbn [equity_loop draws advance repeat].
  pose proof (dist_in_range hi rng) as Hidx.
  destruct (dist hi rng) as [idx rng1]. cbn [fst snd] in *.
  assert (Ht : nth_error trades idx = Some (nth idx trades (of_Z 0)))
    by (apply nth_error_nth'; lia).
  unfold bind, defined. rewrite Ht.
  replace (S (length pre) - 1)%nat with (length pre + 0)%nat by lia.
  rewrite nth_error_app2 by lia.
  replace (length pre + 0 - length pre)%nat with O by lia. cbn [nth_error].
  replace (S (length pre)) with (length pre + 1)%nat at 1 by lia.
  rewrite vec_set_app. cbn [vec_set].
  set (next := (prev + nth idx trades (of_Z 0) * fraction * prev)%D).
  specialize (IH (pre ++ [prev]) next rng1).
  rewrite length_app, <- app_assoc in IH. cbn [length app] in IH.
  replace (length pre + 1)%nat with (S (length pre)) in IH by lia.
  rewrite IH. cbn [path]. now rewrite <- app_assoc.
Qed.

Lemma make_one_equity_sequence_path (trades : list D) (fraction : D) (N : Z)
    (capital : D) (rng : G) :
  valid_series trades -> valid_path_length N ->
  exists dd,
    calculateDrawdown
      (path trades fraction capital
            (draws dist (length trades - 1) (Z.to_nat N) rng))
    = Done dd
    /\ make_one_equity_sequence dist trades fraction N capital rng
       = Ret (path trades fraction capital
                   (draws dist (length trades - 1) (Z.to_nat N) rng),
              dd,
              advance dist (length trades - 1) (Z.to_nat N) rng).
Proof.
  intros Hseries [HN0 HNmax].
  pose proof (dist_upper_valid Hseries) as Hupper.
  destruct Hseries as [Hne Hmax].
  assert (Hpos : (0 < length trades)%nat)
    by (destruct trades; [contradiction | simpl; lia]).
  set (idxs := draws dist (length trades - 1) (Z.to_nat N) rng).
  destruct (path trades fraction capital idxs) as [|e0 rest] eqn:Hpath.
  { pose proof (path_length trades fraction capital idxs) as Hlen.
    rewrite Hpath in Hlen. discriminate. }
  eexists. split; [reflexivity|].
  unfold make_one_equity_sequence.
  replace (N =? INT_MAX)%Z with false by (symmetry; apply Z.eqb_neq; lia).
  replace (N + 1 <? 0)%Z with false by (symmetry; apply Z.ltb_ge; lia).
  replace (Z.to_nat (N + 1)) with (S (Z.to_nat N)) by lia.
  cbn [repeat vec_set]. rewrite Hupper.
  replace (Z.of_nat (length trades) - 1 <? 0)%Z with false
    by (symmetry; apply Z.ltb_ge; lia).
  replace (Z.to_nat (Z.of_nat (length trades) - 1)) with (length trades - 1)%nat
    by lia.
  unfold bind at 1. unfold defined at 1. unfold bind at 1.
  pose proof (@equity_loop_path trades fraction (length trades - 1) ltac:(lia)
                (Z.to_nat N) [] capital rng) as Hloop.
  cbn [app length] in Hloop. rewrite Hloop.
  fold idxs. rewrite Hpath.
  unfold bind, lift, ret. cbn [calculateDrawdown]. reflexivity.
Qed.

End PathProofs.

(** ** The estimator: draws consumed, range, tolerance *)

Section EstimatorCounts.

Context {D : Type} `{Double D}.
Variable G : Type.
Variable dist : nat -> G -> nat * G.
Hypothesis dist_in_range : in_range dist.

Variable trades : list D.
Variable N : Z.
Hypothesis trades_valid : valid_series trades.
Hypothesis N_valid : valid_path_length N.

Lemma exceed_loop_draws (fraction capital tolerance : D) :
  forall n count rng,
    exists count',
      exceed_loop dist n trades fraction N capital tolerance count rng
      = Ret (count', advance dist (length trades - 1) (n * Z.to_nat N) rng)
      /\ (count <= count' <= count + Z.of_nat n)%Z.
Proof.
  induction n as [|n IH]; intros count rng.
  - exists count. split; [reflexivity | lia].
  - cbn [exceed_loop].
    destruct (make_one_equity_sequence_path dist_in_range fraction capital rng
                trades_valid N_valid) as (dd & _ & Hrun).
    erewrite bind_ret by exact Hrun.
    destruct (IH (if (dd >? tolerance)%D then (count + 1)%Z else count)
                 (advance dist (length trades - 1) (Z.to_nat N) rng))
      as (count' & Hloop & Hbound).
    exists count'. split.
    + rewrite Hloop. cbn [Nat.mul]. now rewrite advance_add.
    + destruct (dd >? tolerance)%D; lia.
Qed.

Lemma analyze_distribution_of_drawdown_draws
    (fraction capital tolerance : D) (n : Z) (rng : G) :
  exists count,
    analyze_distribution_of_drawdown dist trades fraction N capital tolerance
                                     n rng
    = Ret ((of_Z count / of_Z n)%D,
           advance dist (length trades - 1) (Z.to_nat n * Z.to_nat N) rng)
    /\ (0 <= count <= Z.max 0 n)%Z.
Proof.
  unfold analyze_distribution_of_drawdown.
  destruct (exceed_loop_draws fraction capital tolerance (Z.to_nat n) 0 rng)
    as (count & Hloop & Hbound).
  erewrite bind_ret by exact Hloop. exists count. split; [reflexivity | lia].
Qed.

End EstimatorCounts.

Section EstimatorReal.

Import RealArith.
Local Open Scope R_scope.

Variable G : Type.
Variable dist : nat -> G -> nat * G.
Hypothesis dist_in_range : in_range dist.

Variable trades : list R.
Variable N : Z.
Hypothesis trades_valid : valid_series trades.
Hypothesis N_valid : valid_path_length N.

Lemma analyze_unit_interval (fraction capital tolerance : R) (n : Z) (rng : G) :
  (0 < n)%Z ->
  exists tail rng',
    analyze_distribution_of_drawdown dist trades fraction N capital tolerance
                                     n rng
    = Ret (tail, rng')
    /\ 0 <= tail <= 1.
Proof.
  intro Hn.
  destruct (analyze_distribution_of_drawdown_draws dist_in_range trades_valid
              N_valid fraction capital tolerance n rng)
    as (count & Hrun & Hcount).
  eexists _, _. split; [exact Hrun|].
  cbn [of_Z div real].
  assert (HnR : 0 < IZR n) by (apply IZR_lt; exact Hn).
  assert (Hc0 : 0 <= IZR count) by (apply IZR_le; lia).
  assert (Hcn : IZR count <= IZR n) by (apply IZR_le; lia).
  split.
  - apply Rmult_le_pos; [exact Hc0 | left; now apply Rinv_0_lt_compat].
  - apply Rmult_le_reg_r with (r := IZR n); [exact HnR|].
    unfold Rdiv. rewrite Rmult_assoc, Rinv_l by lra. lra.
Qed.

(** With the same generator state the two runs draw the same curves: a
    larger tolerance counts no more of them. *)
Lemma exceed_loop_tolerance (fraction capital tol1 tol2 : R) :
  tol1 <= tol2 ->
  forall n count1 count2 rng out1 out2 rng1 rng2,
    (count2 <= count1)%Z ->
    exceed_loop dist n trades fraction N capital tol1 count1 rng
    = Ret (out1, rng1) ->
    exceed_loop dist n trades fraction N capital tol2 count2 rng
    = Ret (out2, rng2) ->
    (out2 <= out1)%Z /\ rng1 = rng2.
Proof.
  intros Htol. induction n as [|n IH];
    intros count1 count2 rng out1 out2 rng1 rng2 Hcount Hrun1 Hrun2.
  - injection Hrun1 as <- <-. injection Hrun2 as <- <-. now split.
  - cbn [exceed_loop] in Hrun1, Hrun2.
    apply bind_inv in Hrun1. destruct Hrun1 as ([curve dd] & rngA & Hone & Hrun1).
    apply bind_inv in Hrun2. destruct Hrun2 as ([curve' dd'] & rngB & Hone' & Hrun2).
    rewrite Hone in Hone'. injection Hone' as <- <- <-.
    refine (IH _ _ _ _ _ _ _ _ Hrun1 Hrun2).
    cbn [ltb real]. unfold Rltb.
    destruct (Rlt_dec tol1 dd), (Rlt_dec tol2 dd); lia || lra.
Qed.

Lemma analyze_tolerance (fraction capital tol1 tol2 : R) (n : Z) (rng : G) :
  (0 < n)%Z -> tol1 <= tol2 ->
  exists tail1 tail2 rng',
    analyze_distribution_of_drawdown dist trades fraction N capital tol1 n rng
    = Ret (tail1, rng')
    /\ analyze_distribution_of_drawdown dist trades fraction N capital tol2 n
                                        rng
       = Ret (tail2, rng')
    /\ tail2 <= tail1.
Proof.
  intros Hn Htol. unfold analyze_distribution_of_drawdown.
  destruct (exceed_loop_draws dist_in_range trades_valid N_valid fraction
              capital tol1 (Z.to_nat n) 0 rng) as (c1 & Hrun1 & _).
  destruct (exceed_loop_draws dist_in_range trades_valid N_valid fraction
              capital tol2 (Z.to_nat n) 0 rng) as (c2 & Hrun2 & _).
  destruct (@exceed_loop_tolerance fraction capital tol1 tol2 Htol _ _ _ _ _ _
              _ _ (Z.le_refl 0) Hrun1 Hrun2) as [Hle _].
  eexists _, _, _.
  split; [erewrite bind_ret by exact Hrun1; reflexivity|].
  split; [erewrite bind_ret by exact Hrun2; reflexivity|].
  cbn [of_Z div real].
  assert (HnR : 0 < IZR n) by (apply IZR_lt; exact Hn).
  apply Rmult_le_compat_r; [left; now apply Rinv_0_lt_compat | now apply IZR_le].
Qed.

End EstimatorReal.

(** ** The bisection: bracket, acceptance and draws *)

Section SearchLoop.

Context {D : Type} `{Double D}.
Variable G : Type.
Variable dist : nat -> G -> nat * G.
Hypothesis dist_in_range : in_range dist.

Variable trades : list D.
Variable N : Z.
Hypothesis trades_valid : valid_series trades.
Hypothesis N_valid : valid_path_length N.

Variables capital tail_percentile tolerance : D.
Variable n : Z.

(** An invariant of the passes that the loop condition lets through holds when
    the loop is left; the loop makes at least one pass when its condition
    holds at the start. *)
Lemma bisection_loop_invariant (Inv : bisection -> G -> Prop) :
  (forall st rng st' rng',
      Inv st rng -> bisection_cond st = true ->
      bisection_body dist trades N capital tail_percentile tolerance n st rng
      = Ret (st', rng') ->
      Inv st' rng') ->
  forall fuel st rng,
    Inv st rng ->
    (Z.to_nat (max_iterations - iteration st) <= fuel)%nat ->
    exists st' rng',
      bisection_loop dist fuel trades N capital tail_percentile tolerance n
                     st rng
      = Ret (st', rng')
      /\ Inv st' rng'
      /\ bisection_cond st' = false
      /\ (bisection_cond st = true -> (iteration st < iteration st')%Z).
Proof.
  intros Hbody fuel. induction fuel as [|fuel IH]; intros st rng Hinv Hfuel.
  - exists st, rng.
    assert (Hcond : bisection_cond st = false).
    { unfold bisection_cond. apply andb_false_intro2. apply Z.ltb_ge. lia. }
    cbn [bisection_loop]. rewrite Hcond.
    split; [reflexivity|]. split; [exact Hinv|]. split; [reflexivity|].
    discriminate.
  - cbn [bisection_loop]. destruct (bisection_cond st) eqn:Hcond.
    + destruct (bisection_body_returns dist_in_range trades_valid N_valid
                  capital tail_percentile tolerance n st rng)
        as (st1 & rng1 & Hrun & Hiter).
      erewrite bind_ret by exact Hrun.
      assert (Hlt : (iteration st < max_iterations)%Z).
      { unfold bisection_cond in Hcond. apply andb_prop in Hcond.
        apply Z.ltb_lt. exact (proj2 Hcond). }
      destruct (IH st1 rng1) as (st' & rng' & Hloop & Hinv' & Hcond' & Hiter').
      { eapply Hbody; [exact Hinv | exact Hcond | exact Hrun]. }
      { lia. }
      exists st', rng'.
      split; [exact Hloop|]. split; [exact Hinv'|]. split; [exact Hcond'|].
      intros _.
      destruct (bisection_cond st1) eqn:Hcond1.
      * specialize (Hiter' eq_refl). lia.
      * destruct fuel; cbn [bisection_loop] in Hloop; rewrite Hcond1 in Hloop;
          unfold ret in Hloop; injection Hloop as <- _; lia.
    + exists st, rng.
      split; [reflexivity|]. split; [exact Hinv|]. split; [exact Hcond|].
      discriminate.
Qed.

(** Every pass draws the same number of trades: after the loop the generator
    has made [iteration * number_equity_in_CDF * number_trades_in_forecast]
    draws. *)
Lemma bisection_loop_draws (fuel : nat) (rng : G) :
  (1000 <= fuel)%nat ->
  exists st rng',
    bisection_loop dist fuel trades N capital tail_percentile tolerance n
                   bisection_init rng
    = Ret (st, rng')
    /\ (1 <= iteration st <= 1000)%Z
    /\ rng' = advance dist (length trades - 1)
                      (Z.to_nat (iteration st) * (Z.to_nat n * Z.to_nat N)) rng.
Proof.
  intro Hfuel.
  destruct (@bisection_loop_invariant
              (fun st rng' =>
                 (0 <= iteration st <= max_iterations)%Z
                 /\ rng' = advance dist (length trades - 1)
                                   (Z.to_nat (iteration st)
                                    * (Z.to_nat n * Z.to_nat N)) rng))
    with (fuel := fuel) (st := bisection_init) (rng := rng)
    as (st & rng' & Hrun & (Hiter & Hrng) & Hcond & Hpass).
  - intros st rng1 st' rng' (Hiter & Hrng) Hcond Hrun.
    destruct (bisection_body_returns dist_in_range trades_valid N_valid
                capital tail_percentile tolerance n st rng1)
      as (st1 & rng2 & Hrun1 & Hiter1).
    rewrite Hrun in Hrun1. injection Hrun1 as <- <-.
    assert (Hlt : (iteration st < max_iterations)%Z).
    { unfold bisection_cond in Hcond. apply andb_prop in Hcond.
      apply Z.ltb_lt. exact (proj2 Hcond). }
    split; [lia|].
    unfold bisection_body in Hrun.
    destruct (analyze_distribution_of_drawdown_draws dist_in_range trades_valid
                N_valid ((lower_bound st + upper_bound st) / of_Z 2)%D capital
                tolerance n rng1) as (count & Hana & _).
    erewrite bind_ret in Hrun by exact Hana.
    unfold ret in Hrun. injection Hrun as _ <-.
    rewrite Hrng, <- advance_add. f_equal.
    rewrite Hiter1. rewrite Z2Nat.inj_add by lia.
    change (Z.to_nat 1) with 1%nat. lia.
  - split; [unfold max_iterations; cbn [bisection_init iteration]; lia|].
    reflexivity.
  - unfold max_iterations. cbn [bisection_init iteration]. lia.
  - exists st, rng'. split; [exact Hrun|]. split; [|exact Hrng].
    specialize (Hpass eq_refl). cbn [bisection_init iteration] in Hpass.
    unfold max_iterations in Hiter. lia.
Qed.

End SearchLoop.

Section SearchReal.

Import RealArith.
Local Open Scope R_scope.

Variable G : Type.
Variable dist : nat -> G -> nat * G.
Hypothesis dist_in_range : in_range dist.

Variable trades : list R.
Variable N : Z.
Hypothesis trades_valid : valid_series trades.
Hypothesis N_valid : valid_path_length N.

Variables capital tail_percentile tolerance : R.
Variable n : Z.

Lemma searched_init : searched (tail_percentile / 100) bisection_init.
Proof.
  unfold searched, bisection_init, max_iterations.
  cbn [iteration lower_bound upper_bound done fraction of_Z real Z.to_nat pow].
  split; [lia|]. split; [lra|]. split; [lra|]. split; [lra | lia].
Qed.

Lemma searched_body (st : bisection) (rng : G) (st' : bisection) (rng' : G) :
  searched (tail_percentile / 100) st -> bisection_cond st = true ->
  bisection_body dist trades N capital tail_percentile tolerance n st rng
  = Ret (st', rng') ->
  searched (tail_percentile / 100) st'.
Proof.
  intros (Hiter & Hl & Hu & Hst) Hcond Hrun.
  unfold bisection_cond in Hcond. apply andb_prop in Hcond.
  destruct Hcond as [Hdone Hlt]. apply Z.ltb_lt in Hlt.
  destruct (done st) eqn:Hd; [discriminate|]. destruct Hst as [Hw _].
  assert (Hpos : 0 < 2 ^ Z.to_nat (iteration st)) by (apply pow_lt; lra).
  assert (Hwidth : 0 < upper_bound st - lower_bound st).
  { rewrite Hw. apply Rdiv_lt_0_compat; lra. }
  assert (Hnext : Z.to_nat (iteration st + 1) = S (Z.to_nat (iteration st))).
  { rewrite Z2Nat.inj_add by lia. change (Z.to_nat 1) with 1%nat. lia. }
  assert (Hhalf : 10 / 2 ^ S (Z.to_nat (iteration st))
                  = (upper_bound st - lower_bound st) / 2).
  { rewrite Hw.
    change (2 ^ S (Z.to_nat (iteration st)))
      with (2 * 2 ^ Z.to_nat (iteration st)).
    field. lra. }
  unfold bisection_body in Hrun.
  apply bind_inv in Hrun. destruct Hrun as (tail & rng1 & _ & Hret).
  unfold ret in Hret. injection Hret as <- _.
  unfold searched, next_iteration, desired_accuracy, dec.
  cbn [of_Z add sub div ltb fabs real].
  replace (IZR 3 / IZR 1000) with (3 / 1000) by reflexivity.
  replace (tail_percentile / IZR 100) with (tail_percentile / 100)
    by reflexivity.
  replace (IZR 2) with 2 by reflexivity.
  destruct (Rltb (Rabs (tail - tail_percentile / 100)) (3 / 1000)) eqn:Hacc.
  - cbn [iteration lower_bound upper_bound done fraction tail_risk].
    split; [lia|]. split; [exact Hl|]. split; [exact Hu|].
    split; [lia|]. split.
    + replace (iteration st + 1 - 1)%Z with (iteration st) by lia. exact Hw.
    + split; [reflexivity|]. unfold Rltb in Hacc.
      destruct (Rlt_dec _ _) as [Hlt'|]; [exact Hlt' | discriminate].
  - destruct (Rltb (tail_percentile / 100) tail);
      cbn [iteration lower_bound upper_bound done fraction tail_risk];
      rewrite Hd, Hnext, Hhalf;
      (split; [lia|]); (split; [lra|]); (split; [lra|]);
      (split; [lra|]); intros _; (split; [lra|]); [right | left]; reflexivity.
Qed.

Lemma bisection_searched (fuel : nat) (rng : G) :
  (1000 <= fuel)%nat ->
  exists st rng',
    bisection_loop dist fuel trades N capital tail_percentile tolerance n
                   bisection_init rng
    = Ret (st, rng')
    /\ searched (tail_percentile / 100) st
    /\ bisection_cond st = false
    /\ (1 <= iteration st)%Z.
Proof.
  intro Hfuel.
  destruct (@bisection_loop_invariant R real G dist dist_in_range trades N
              trades_valid N_valid capital tail_percentile tolerance n
              (fun st _ => searched (tail_percentile / 100) st))
    with (fuel := fuel) (st := @bisection_init R real) (rng := rng)
    as (st & rng' & Hrun & Hinv & Hcond & Hpass).
  - intros st rng1 st' rng'. apply searched_body.
  - exact searched_init.
  - unfold max_iterations. cbn [bisection_init iteration]. lia.
  - exists st, rng'. split; [exact Hrun|]. split; [exact Hinv|].
    split; [exact Hcond|].
    specialize (Hpass eq_refl). cbn [bisection_init iteration] in Hpass. lia.
Qed.

End SearchReal.

(** ** A whole run in exact arithmetic *)

Section FullRun.

Import RealArith.
Local Open Scope R_scope.

Lemma sum_between (a b : R) (data : list R) :
  Forall (fun x => a < x < b) data ->
  data = []
  \/ a * INR (length data) < Spec.sum data < b * INR (length data).
Proof.
  induction 1 as [|x data Hx Hall IH]; [now left|]. right.
  change (length (x :: data)) with (S (length data)). rewrite S_INR.
  change (Spec.sum (x :: data)) with (x + Spec.sum data).
  destruct IH as [-> | IH]; [cbn [length Spec.sum fold_right INR] | ]; lra.
Qed.

Lemma computeMean_between (a b : R) (data : list R) :
  Forall (fun x => a < x < b) data -> data <> [] ->
  a < computeMean data < b.
Proof.
  intros Hall Hne. rewrite (computeMean_mean Hne). unfold Spec.mean.
  destruct (sum_between Hall) as [-> | Hsum]; [contradiction|].
  assert (Hpos : 0 < INR (length data)).
  { apply lt_0_INR. destruct data; [contradiction | simpl; lia]. }
  split; apply Rmult_lt_reg_r with (INR (length data)); try exact Hpos;
    unfold Rdiv; rewrite Rmult_assoc, Rinv_l by lra; lra.
Qed.

Lemma computeStdDev_nonnegative (data : list R) (m : R) :
  0 <= computeStdDev data m.
Proof.
  unfold computeStdDev. destruct (size data <? 2)%Z.
  - cbn [of_Z real]. lra.
  - cbn [sqrt real]. apply sqrt_pos.
Qed.

Lemma searched_fraction (target : R) (st : bisection) :
  searched target st -> (1 <= iteration st)%Z ->
  0 < fraction st < 10 /\ lower_bound st <= fraction st <= upper_bound st.
Proof.
  intros (Hiter & Hl & Hu & Hst) Hpass.
  destruct (done st).
  - destruct Hst as (_ & Hw & Hf & _).
    assert (Hpos : 0 < 2 ^ Z.to_nat (iteration st - 1)) by (apply pow_lt; lra).
    assert (Hwidth : 0 < upper_bound st - lower_bound st).
    { rewrite Hw. apply Rdiv_lt_0_compat; lra. }
    lra.
  - destruct Hst as (Hw & Hf).
    assert (Hpos : 0 < 2 ^ Z.to_nat (iteration st)) by (apply pow_lt; lra).
    assert (Hwidth : 0 < upper_bound st - lower_bound st).
    { rewrite Hw. apply Rdiv_lt_0_compat; lra. }
    destruct (Hf Hpass) as (Hrange & [Heq | Heq]); lra.
Qed.

Variable G : Type.
Variable dist : nat -> G -> nat * G.
Hypothesis dist_in_range : in_range dist.

Variable trades : list R.
Variable N : Z.
Hypothesis trades_valid : valid_series trades.
Hypothesis N_valid : valid_path_length N.

Variables capital tail_percentile tolerance : R.
Variables n days : Z.
Hypothesis n_valid : (0 < n <= INT_MAX)%Z.

Lemma repetition_inside (fuel : nat) (rng : G) :
  (1000 <= fuel)%nat ->
  exists safe_f CAR25 rng',
    repetition dist fuel trades days N capital tail_percentile tolerance n rng
    = Ret (safe_f, CAR25, rng')
    /\ 0 < safe_f < 10.
Proof.
  intro Hfuel. unfold repetition.
  destruct (bisection_searched dist_in_range trades_valid N_valid capital
              tail_percentile tolerance n rng Hfuel)
    as (st & rng1 & Hrun & Hinv & _ & Hpass).
  erewrite bind_ret by exact Hrun.
  destruct (@CAR_loop_returns R real G dist dist_in_range trades N trades_valid
              N_valid (fraction st) days capital (Z.to_nat n) [] rng1)
    as (CAR_list & rng2 & Hloop).
  erewrite bind_ret by exact Hloop.
  apply CAR_loop_length in Hloop. cbn [length] in Hloop.
  destruct (@CAR25_of_rank CAR_list) as (CAR25 & Hperc & _).
  { destruct CAR_list; [simpl in Hloop; lia | discriminate]. }
  { unfold size. rewrite Hloop. unfold INT_MAX, SIZE_MAX in *. lia. }
  exists (fraction st), CAR25, rng2.
  split; [|exact (proj1 (searched_fraction Hinv Hpass))].
  unfold bind, lift. rewrite Hperc. reflexivity.
Qed.

Lemma repetitions_inside (fuel : nat) :
  (1000 <= fuel)%nat ->
  forall reps safe_f_list CAR25_list rng,
    Forall (fun f => 0 < f < 10) safe_f_list ->
    exists safe_f_list' CAR25_list' rng',
      repetitions dist reps fuel trades days N capital tail_percentile
                  tolerance n safe_f_list CAR25_list rng
      = Ret (safe_f_list', CAR25_list', rng')
      /\ length safe_f_list' = (length safe_f_list + reps)%nat
      /\ length CAR25_list' = (length CAR25_list + reps)%nat
      /\ Forall (fun f => 0 < f < 10) safe_f_list'.
Proof.
  intros Hfuel reps. induction reps as [|reps IH]; intros fs cs rng Hfs.
  - exists fs, cs, rng.
    split; [reflexivity|]. split; [lia|]. split; [lia | exact Hfs].
  - cbn [repetitions].
    destruct (repetition_inside rng Hfuel) as (f & c & rng1 & Hrun & Hf).
    erewrite bind_ret by exact Hrun.
    destruct (IH (fs ++ [f]) (cs ++ [c]) rng1)
      as (fs' & cs' & rng' & Hloop & Hlf & Hlc & Hall).
    { apply Forall_app. split; [exact Hfs | now constructor]. }
    exists fs', cs', rng'. rewrite length_app in Hlf, Hlc.
    cbn [length] in Hlf, Hlc.
    split; [exact Hloop|]. split; [lia|]. split; [lia | exact Hall].
Qed.

Lemma risk_normalization_inside (reps : Z) (fuel : nat) (rng : G) :
  (1000 <= fuel)%nat -> (0 < reps)%Z ->
  exists stats rng',
    risk_normalization dist fuel trades days N capital tail_percentile
                       tolerance n reps rng
    = Ret (stats, rng')
    /\ length (printed stats) = Z.to_nat reps
    /\ 0 < safe_f_mean stats < 10
    /\ 0 <= safe_f_stdev stats
    /\ 0 <= CAR25_stdev stats.
Proof.
  intros Hfuel Hreps. unfold risk_normalization.
  destruct (repetitions_inside Hfuel (Z.to_nat reps) (safe_f_list := []) []
              rng (Forall_nil _))
    as (fs & cs & rng' & Hrun & Hlf & Hlc & Hall).
  erewrite bind_ret by exact Hrun. cbn [length Nat.add] in Hlf, Hlc.
  unfold computeStatistics, ret. eexists _, rng'.
  split; [reflexivity|].
  cbn [printed safe_f_mean safe_f_stdev CAR25_stdev].
  split; [exact Hlc|].
  split; [|split; apply computeStdDev_nonnegative].
  apply computeMean_between; [exact Hall|].
  destruct fs; [simpl in Hlf; lia | discriminate].
Qed.

End FullRun.

(** ** Parameters the program cannot run on *)

Section Faults.

Context {D : Type} `{Double D}.
Variable G : Type.
Variable dist : nat -> G -> nat * G.

Lemma CAR25_of_empty : CAR25_of (@nil D) = Fault UB.
Proof.
  unfold CAR25_of, cast_size_t. cbn [sort].
  destruct (trunc _) as [z|]; [|reflexivity].
  destruct (_ && _); [|reflexivity].
  unfold vec_get. destruct (_ && _); [|reflexivity].
  now destruct (Z.to_nat _).
Qed.

(** A fault of the simulator is the fault of the whole run, as soon as the
    run reaches the simulator. *)
Lemma risk_normalization_stops (f : fault) (trades : list D) (N : Z)
    (capital : D) :
  (forall fraction rng,
      make_one_equity_sequence dist trades fraction N capital rng = Stop f) ->
  forall days tail_percentile tolerance n reps fuel rng,
    (0 < n)%Z -> (0 < reps)%Z -> (0 < fuel)%nat ->
    risk_normalization dist fuel trades days N capital tail_percentile
                       tolerance n reps rng
    = Stop f.
Proof.
  intros Hstop days tp tol n reps fuel rng Hn Hreps Hfuel.
  unfold risk_normalization.
  destruct (Z.to_nat reps) as [|reps'] eqn:Hr; [lia|].
  destruct fuel as [|fuel']; [lia|].
  destruct (Z.to_nat n) as [|n'] eqn:Hn'; [lia|].
  cbn [repetitions]. unfold repetition.
  cbn [bisection_loop].
  change (bisection_cond bisection_init) with true. cbv iota.
  unfold bisection_body, analyze_distribution_of_drawdown.
  rewrite Hn'. cbn [exceed_loop].
  unfold bind. rewrite Hstop. reflexivity.
Qed.

Lemma make_one_equity_sequence_length_error (trades : list D) (N : Z)
    (fraction capital : D) (rng : G) :
  (N < -1)%Z ->
  make_one_equity_sequence dist trades fraction N capital rng
  = Stop LengthError.
Proof.
  intro HN. unfold make_one_equity_sequence.
  replace (N =? INT_MAX)%Z with false
    by (symmetry; apply Z.eqb_neq; unfold INT_MAX; lia).
  replace (N + 1 <? 0)%Z with true by (symmetry; apply Z.ltb_lt; lia).
  reflexivity.
Qed.

Lemma make_one_equity_sequence_no_slot (trades : list D) (N : Z)
    (fraction capital : D) (rng : G) :
  N = (-1)%Z \/ N = INT_MAX ->
  make_one_equity_sequence dist trades fraction N capital rng = Stop UB.
Proof. intros [-> | ->]; reflexivity. Qed.

Variable trades : list D.
Variable N : Z.
Hypothesis dist_in_range : in_range dist.
Hypothesis trades_valid : valid_series trades.
Hypothesis N_valid : valid_path_length N.

(** Without sample curves the bisection still runs, and the percentile is
    then read from an empty vector. *)
Lemma risk_normalization_no_sample days capital tail_percentile tolerance
    n reps fuel rng :
  (n <= 0)%Z -> (0 < reps)%Z -> (1000 <= fuel)%nat ->
  risk_normalization dist fuel trades days N capital tail_percentile
                     tolerance n reps rng
  = Stop UB.
Proof.
  intros Hn Hreps Hfuel. unfold risk_normalization.
  destruct (Z.to_nat reps) as [|reps'] eqn:Hr; [lia|].
  cbn [repetitions]. unfold repetition.
  destruct (@bisection_loop_terminates D _ G dist dist_in_range trades N
              trades_valid N_valid capital tail_percentile tolerance n
              (fun _ => True) (fun _ _ _ _ _ _ => I) fuel bisection_init rng I)
    as (st & rng' & Hrun & _).
  { unfold max_iterations, bisection_init. cbn [iteration]. lia. }
  unfold bind at 1. unfold bind at 1. unfold bind at 1. rewrite Hrun.
  replace (Z.to_nat n) with O by lia. cbn [CAR_loop].
  unfold bind, ret, lift. rewrite CAR25_of_empty. reflexivity.
Qed.

End Faults.

(** ** [main] on a series that has trades *)

Section MainRun.

Import RealArith.
Local Open Scope R_scope.

Lemma cast_int_days : cast_int (of_Z 2 * of_Z 252)%D = Done 504%Z.
Proof.
  unfold cast_int. cbn [trunc of_Z mul real].
  rewrite <- mult_IZR, Ztrunc_IZR. reflexivity.
Qed.

Lemma cast_int_trades (s : Z) :
  (0 <= s <= INT_MAX + 1)%Z ->
  cast_int (of_Z s / of_Z 28 * of_Z 2)%D = Done (s / 14)%Z.
Proof.
  intro Hs. unfold cast_int. cbn [trunc of_Z mul div real].
  assert (Hq : Ztrunc (IZR s / 28 * 2) = (s / 14)%Z).
  { unfold Ztrunc.
    assert (H0 : 0 <= IZR s) by (apply IZR_le; lia).
    destruct (Rle_dec 0 (IZR s / 28 * 2)) as [_ | Hneg]; [|exfalso; lra].
    apply Zfloor_eq.
    pose proof (Z.div_mod s 14 ltac:(lia)) as Hdiv.
    pose proof (Z.mod_pos_bound s 14 ltac:(lia)) as Hmod.
    assert (H1 : (14 * (s / 14) <= s)%Z) by lia.
    assert (H2 : (s < 14 * (s / 14) + 14)%Z) by lia.
    apply IZR_le in H1. apply IZR_lt in H2.
    rewrite mult_IZR in H1. rewrite plus_IZR, mult_IZR in H2. lra. }
  rewrite Hq.
  assert (Hlo : (0 <= s / 14)%Z) by (apply Z.div_pos; lia).
  assert (Hhi : (s / 14 <= s)%Z) by (apply Z.div_le_upper_bound; lia).
  assert (Hhi' : (s / 14 < INT_MAX)%Z).
  { apply Z.div_lt_upper_bound; unfold INT_MAX in *; lia. }
  replace ((- INT_MAX - 1 <=? s / 14) && (s / 14 <=? INT_MAX))%Z with true;
    [reflexivity|].
  symmetry. apply andb_true_intro. split; apply Z.leb_le; lia.
Qed.

Variable G : Type.
Variable dist : nat -> G -> nat * G.
Hypothesis dist_in_range : in_range dist.

Lemma main_parameters (trades : list R) (fuel : nat) (rng : G) :
  valid_series trades ->
  main dist fuel trades rng
  = bind (risk_normalization dist fuel trades 504 (size trades / 14) 100000 5
                             (1 / 10) 10000 5)
         (fun stats =>
            ret {| status := 0; complaint := None; report := Some stats |})
         rng.
Proof.
  intros [Hne Hmax]. destruct trades as [|t trades]; [contradiction|].
  unfold main. rewrite cast_int_days.
  rewrite cast_int_trades by (unfold size; lia).
  reflexivity.
Qed.

Lemma main_inside (trades : list R) (fuel : nat) (rng : G) :
  valid_series trades -> (1000 <= fuel)%nat ->
  exists stats rng',
    main dist fuel trades rng
    = Ret ({| status := 0; complaint := None; report := Some stats |}, rng')
    /\ length (printed stats) = 5%nat
    /\ 0 < safe_f_mean stats < 10.
Proof.
  intros Hseries Hfuel. rewrite (main_parameters fuel rng Hseries).
  assert (HN : valid_path_length (size trades / 14)).
  { destruct Hseries as [Hne Hmax]. unfold valid_path_length, size.
    split; [apply Z.div_pos; lia|].
    apply Z.div_lt_upper_bound; unfold INT_MAX in *; lia. }
  destruct (@risk_normalization_inside G dist dist_in_range trades
              (size trades / 14) Hseries HN 100000 5 (1 / 10) 10000 504
              ltac:(unfold INT_MAX; lia) 5 fuel rng Hfuel ltac:(lia))
    as (stats & rng' & Hrun & Hlen & Hmean & _).
  exists stats, rng'. erewrite bind_ret by exact Hrun.
  split; [reflexivity|]. split; [exact Hlen | exact Hmean].
Qed.

End MainRun.

(** ** A forecast without trades *)

Section NoTrade.

Context {D : Type} `{Double D}.
Variable G : Type.
Variable dist : nat -> G -> nat * G.

Variable trades : list D.
Hypothesis trades_valid : valid_series trades.

Variable capital : D.

(** With [number_trades_in_forecast = 0] the curve is the capital alone and
    nothing is drawn. *)
Lemma make_one_equity_sequence_no_trade (fraction : D) (rng : G) :
  make_one_equity_sequence dist trades fraction 0 capital rng
  = Ret ([capital], snd (drawdown_step (capital, of_Z 0) capital), rng).
Proof.
  unfold make_one_equity_sequence.
  change (0 =? INT_MAX)%Z with false. change (0 + 1 <? 0)%Z with false.
  cbv iota. change (Z.to_nat (0 + 1)) with 1%nat. cbn [repeat vec_set].
  unfold bind at 1. unfold defined at 1.
  rewrite (dist_upper_valid trades_valid).
  replace (Z.of_nat (length trades) - 1 <? 0)%Z with false.
  - reflexivity.
  - symmetry. apply Z.ltb_ge. destruct trades_valid as [Hne _].
    assert (Hlen : forall l : list D, l <> [] -> (0 < length l)%nat)
      by (intros [|x l] Hl; [contradiction | simpl; lia]).
    specialize (Hlen _ Hne). lia.
Qed.

Lemma exceed_loop_no_trade (fraction tolerance : D) :
  (snd (drawdown_step (capital, of_Z 0) capital) >? tolerance)%D = false ->
  forall n count rng,
    exceed_loop dist n trades fraction 0 capital tolerance count rng
    = Ret (count, rng).
Proof.
  intros Hdd n. induction n as [|n IH]; intros count rng; [reflexivity|].
  cbn [exceed_loop].
  erewrite bind_ret by apply make_one_equity_sequence_no_trade.
  cbv beta iota. rewrite Hdd. apply IH.
Qed.

Lemma analyze_no_trade (fraction tolerance : D) (n : Z) (rng : G) :
  (snd (drawdown_step (capital, of_Z 0) capital) >? tolerance)%D = false ->
  analyze_distribution_of_drawdown dist trades fraction 0 capital tolerance n
                                   rng
  = Ret ((of_Z 0 / of_Z n)%D, rng).
Proof.
  intro Hdd. unfold analyze_distribution_of_drawdown.
  erewrite bind_ret by (apply exceed_loop_no_trade; exact Hdd).
  reflexivity.
Qed.

Lemma CAR_loop_no_trade (fraction : D) (days : Z) :
  forall n CAR_list rng,
    CAR_loop dist n trades fraction days 0 capital CAR_list rng
    = Ret (CAR_list
             ++ repeat (calculateCAGR capital capital
                                      (of_Z days / of_Z 252)%D) n,
           rng).
Proof.
  induction n as [|n IH]; intros CAR_list rng.
  - cbn [CAR_loop repeat]. now rewrite app_nil_r.
  - cbn [CAR_loop].
    erewrite bind_ret by apply make_one_equity_sequence_no_trade.
    cbv beta iota. cbn [back]. unfold bind at 1. unfold defined at 1.
    rewrite IH, <- app_assoc. reflexivity.
Qed.

(** The loop under an estimator that returns [tail] and leaves the
    generator alone. *)
Lemma bisection_loop_constant (N : Z) (tail_percentile tolerance tail : D)
    (n : Z) :
  (forall fraction rng,
      analyze_distribution_of_drawdown dist trades fraction N capital
                                       tolerance n rng
      = Ret (tail, rng)) ->
  forall fuel st rng,
    bisection_loop dist fuel trades N capital tail_percentile tolerance n st
                   rng
    = match bisection_constant fuel tail_percentile tail st with
      | Some st' => Ret (st', rng)
      | None => OutOfFuel
      end.
Proof.
  intros Hana fuel. induction fuel as [|fuel IH]; intros st rng.
  - cbn [bisection_loop bisection_constant].
    destruct (bisection_cond st); reflexivity.
  - cbn [bisection_loop bisection_constant].
    destruct (bisection_cond st); [|reflexivity].
    unfold bisection_body.
    unfold bind at 1. unfold bind at 1. rewrite Hana.
    cbn [ret]. apply IH.
Qed.

Lemma bisection_constant_fuel (tail_percentile tail : D) :
  forall fuel fuel' st st',
    bisection_constant fuel tail_percentile tail st = Some st' ->
    (fuel <= fuel')%nat ->
    bisection_constant fuel' tail_percentile tail st = Some st'.
Proof.
  induction fuel as [|fuel IH]; intros fuel' st st' Hrun Hle.
  - cbn [bisection_constant] in Hrun.
    destruct fuel'; cbn [bisection_constant];
      destruct (bisection_cond st); congruence.
  - destruct fuel' as [|fuel']; [lia|].
    cbn [bisection_constant] in *.
    destruct (bisection_cond st); [|exact Hrun].
    apply IH; [exact Hrun | lia].
Qed.

End NoTrade.

(** ** Fewer than fourteen trades, in binary64 *)

Section ShortSeries.

Variable fpow : float -> float -> float.
Hypothesis fpow_one : fpow 1%float 0.5%float = 1%float.

Variable G : Type.
Variable dist : nat -> G -> nat * G.

Lemma cast_int_short (len : nat) :
  (1 <= len <= 13)%nat ->
  @cast_int float (Binary64.binary64 fpow)
    (PrimFloat.mul
       (PrimFloat.div (Binary64.Z2float (Z.of_nat len)) (Binary64.Z2float 28))
       (Binary64.Z2float 2))
  = Done 0%Z.
Proof.
  intro Hlen.
  do 14 (destruct len as [|len]; [first [lia | vm_compute; reflexivity]|]).
  lia.
Qed.

Variable trades : list float.
Hypothesis trades_valid : valid_series trades.

Lemma analyze_short (fraction : float) (rng : G) :
  @analyze_distribution_of_drawdown float (Binary64.binary64 fpow) G dist
    trades fraction 0 100000%float
    (@dec float (Binary64.binary64 fpow) 1 10) 10000 rng
  = Ret (0%float, rng).
Proof.
  rewrite (@analyze_no_trade float (Binary64.binary64 fpow) G dist trades
             trades_valid).
  - vm_compute. reflexivity.
  - vm_compute. reflexivity.
Qed.

Lemma CAGR_short :
  @calculateCAGR float (Binary64.binary64 fpow) 100000%float 100000%float
    (PrimFloat.div (Binary64.Z2float 504) (Binary64.Z2float 252))
  = 0%float.
Proof. vm_compute. rewrite fpow_one. vm_compute. reflexivity. Qed.

Lemma repetition_short (fuel : nat) (rng : G) :
  (1000 <= fuel)%nat ->
  @repetition float (Binary64.binary64 fpow) G dist fuel trades 504 0
    100000%float 5%float (@dec float (Binary64.binary64 fpow) 1 10) 10000 rng
  = Ret ((10%float, 0%float), rng).
Proof.
  intro Hfuel. unfold repetition.
  assert (Hloop :
    @bisection_loop float (Binary64.binary64 fpow) G dist fuel trades 0
      100000%float 5%float (@dec float (Binary64.binary64 fpow) 1 10) 10000
      (@bisection_init float (Binary64.binary64 fpow)) rng
    = Ret ({| fraction := 10%float; lower_bound := 10%float;
              upper_bound := 10%float; tail_risk := 0%float;
              done := false; iteration := 1000 |}, rng)).
  { rewrite (@bisection_loop_constant float (Binary64.binary64 fpow) G dist
               trades 100000%float 0 5%float
               (@dec float (Binary64.binary64 fpow) 1 10) 0%float 10000
               analyze_short).
    erewrite (@bisection_constant_fuel float (Binary64.binary64 fpow) 5%float
                0%float 1000 fuel); [reflexivity | | exact Hfuel].
    vm_compute. reflexivity. }
  erewrite bind_ret by exact Hloop. cbn [fraction].
  erewrite bind_ret
    by apply (@CAR_loop_no_trade float (Binary64.binary64 fpow) G dist trades
                trades_valid).
  cbn [app]. change (@of_Z float (Binary64.binary64 fpow)) with Binary64.Z2float.
  change (@div float (Binary64.binary64 fpow)) with PrimFloat.div.
  rewrite CAGR_short.
  assert (Hperc :
    @CAR25_of float (Binary64.binary64 fpow) (repeat 0%float (Z.to_nat 10000))
    = Done 0%float) by (vm_compute; reflexivity).
  unfold bind, lift. rewrite Hperc. reflexivity.
Qed.

Lemma risk_normalization_short (fuel : nat) (rng : G) :
  (1000 <= fuel)%nat ->
  @risk_normalization float (Binary64.binary64 fpow) G dist fuel trades 504 0
    100000%float 5%float (@dec float (Binary64.binary64 fpow) 1 10) 10000 5
    rng
  = Ret ({| safe_f_mean := 10%float; safe_f_stdev := 0%float;
            CAR25_mean := 0%float; CAR25_stdev := 0%float;
            printed := [0; 0; 0; 0; 0]%float |}, rng).
Proof.
  intro Hfuel. unfold risk_normalization.
  change (Z.to_nat 5) with 5%nat. cbn [repetitions]. unfold bind.
  do 5 (rewrite (repetition_short _ Hfuel); cbv beta iota).
  vm_compute. reflexivity.
Qed.

End ShortSeries.

Lemma main_short (fpow : float -> float -> float) (G : Type)
    (dist : nat -> G -> nat * G) (trades : list float) (fuel : nat) (rng : G) :
  fpow 1%float 0.5%float = 1%float ->
  (1 <= length trades <= 13)%nat -> (1000 <= fuel)%nat ->
  @main float (Binary64.binary64 fpow) G dist fuel trades rng
  = Ret ({| status := 0; complaint := None;
            report := Some {| safe_f_mean := 10%float;
                              safe_f_stdev := 0%float;
                              CAR25_mean := 0%float;
                              CAR25_stdev := 0%float;
                              printed := [0; 0; 0; 0; 0]%float |} |}, rng).
Proof.
  intros Hpow Hlen Hfuel.
  assert (Hseries : valid_series trades).
  { split; [destruct trades; [simpl in Hlen; lia | discriminate]|].
    unfold INT_MAX. lia. }
  destruct trades as [|t trades']; [simpl in Hlen; lia|].
  unfold main.
  assert (Hdays :
    @cast_int float (Binary64.binary64 fpow)
      (@mul float (Binary64.binary64 fpow)
         (@of_Z float (Binary64.binary64 fpow) 2)
         (@of_Z float (Binary64.binary64 fpow) 252))
    = Done 504%Z) by (vm_compute; reflexivity).
  rewrite Hdays. unfold lift at 1. unfold bind at 1.
  change (@cast_int float (Binary64.binary64 fpow)
            (@mul float (Binary64.binary64 fpow)
               (@div float (Binary64.binary64 fpow)
                  (@of_Z float (Binary64.binary64 fpow) (size (t :: trades')))
                  (@of_Z float (Binary64.binary64 fpow) 28))
               (@of_Z float (Binary64.binary64 fpow) 2)))
    with (@cast_int float (Binary64.binary64 fpow)
            (PrimFloat.mul
               (PrimFloat.div
                  (Binary64.Z2float (Z.of_nat (length (t :: trades'))))
                  (Binary64.Z2float 28))
               (Binary64.Z2float 2))).
  rewrite (cast_int_short fpow Hlen). unfold lift at 1. unfold bind at 1.
  unfold bind.
  change (@of_Z float (Binary64.binary64 fpow) 100000) with 100000%float.
  change (@of_Z float (Binary64.binary64 fpow) 5) with 5%float.
  rewrite (@risk_normalization_short fpow Hpow G dist (t :: trades') Hseries
             fuel rng Hfuel).
  reflexivity.
Qed.

(** ** The percentile as a quartile *)

Section Quartile.

Import RealArith.
Local Open Scope R_scope.

Lemma filter_length_permutation (f : R -> bool) (l l' : list R) :
  Permutation l l' -> length (filter f l) = length (filter f l').
Proof.
  induction 1 as [| x l l' _ IH | x y l | l l' l'' _ IH1 _ IH2].
  - reflexivity.
  - cbn [filter]. destruct (f x); cbn [length]; now rewrite IH.
  - cbn [filter]. destruct (f x), (f y); reflexivity.
  - now rewrite IH1.
Qed.

Lemma count_below_none (x : R) (l : list R) :
  Forall (Rle x) l -> count_below x l = O.
Proof.
  unfold count_below. induction 1 as [|y l Hy _ IH]; [reflexivity|].
  cbn [filter]. rewrite (@Rltb_false y x) by exact Hy. exact IH.
Qed.

Lemma sorted_counts (s : list R) :
  StronglySorted Rle s ->
  forall i c, nth_error s i = Some c ->
    (i < count_at_most c s)%nat /\ (count_below c s <= i)%nat.
Proof.
  induction 1 as [|x s Hss IH Hall]; intros i c Hnth.
  - destruct i; discriminate.
  - destruct i as [|i]; cbn [nth_error] in Hnth.
    + injection Hnth as <-. split.
      * unfold count_at_most. cbn [filter].
        rewrite (@Rleb_true x x) by lra. cbn [length]. lia.
      * unfold count_below. cbn [filter].
        rewrite (@Rltb_false x x) by lra.
        fold (count_below x s). rewrite (count_below_none Hall). lia.
    + destruct (IH i c Hnth) as [Hle Hlt].
      assert (Hxc : x <= c).
      { rewrite Forall_forall in Hall. apply Hall.
        eapply nth_error_In. exact Hnth. }
      split.
      * unfold count_at_most. cbn [filter].
        rewrite (@Rleb_true x c) by exact Hxc. cbn [length].
        fold (count_at_most c s). lia.
      * unfold count_below. cbn [filter].
        destruct (Rltb x c); cbn [length]; fold (count_below c s); lia.
Qed.

Lemma CAR25_of_quartile (CAR_list : list R) :
  CAR_list <> [] -> (size CAR_list <= SIZE_MAX)%Z ->
  exists CAR25,
    CAR25_of CAR_list = Done CAR25
    /\ In CAR25 CAR_list
    /\ (length CAR_list <= 4 * count_at_most CAR25 CAR_list)%nat
    /\ (4 * count_below CAR25 CAR_list < length CAR_list)%nat.
Proof.
  intros Hne Hmax.
  destruct (CAR25_of_rank Hne Hmax) as (c & Hrun & Hrank & Hr).
  exists c. split; [exact Hrun|].
  rewrite Hr in Hrank. unfold Spec.at_rank in Hrank.
  set (r := Zceil (0.25 * IZR (size CAR_list))) in *.
  destruct (r <? 1)%Z eqn:Hr1; [discriminate|]. apply Z.ltb_ge in Hr1.
  assert (Hss : StronglySorted Rle (sort CAR_list)).
  { apply Sorted_StronglySorted; [|apply sort_sorted].
    intros x y z Hxy Hyz. lra. }
  destruct (sorted_counts Hss _ Hrank) as [Hle Hlt].
  pose proof (sort_permutation CAR_list) as Hperm.
  unfold count_at_most in Hle. unfold count_below in Hlt.
  rewrite <- (filter_length_permutation _ Hperm) in Hle.
  rewrite <- (filter_length_permutation _ Hperm) in Hlt.
  fold (count_at_most c CAR_list) in Hle. fold (count_below c CAR_list) in Hlt.
  pose proof (Zceil_bound (0.25 * IZR (size CAR_list))) as [Hlo Hhi].
  fold r in Hlo, Hhi.
  assert (Hn : (size CAR_list <= 4 * r)%Z).
  { apply le_IZR. rewrite mult_IZR. lra. }
  assert (Hn' : (4 * (r - 1) < size CAR_list)%Z).
  { apply lt_IZR. rewrite mult_IZR, minus_IZR. lra. }
  unfold size in Hn, Hn'.
  split.
  - apply Permutation_sym in Hperm.
    eapply Permutation_in; [exact Hperm|].
    eapply nth_error_In. exact Hrank.
  - split; lia.
Qed.

End Quartile.

(** ** The drawdown of a continued curve *)

Section Continued.

Import RealArith.
Local Open Scope R_scope.

Lemma fold_drawdown_grows (more : list R) :
  forall st : R * R, snd st <= snd (fold_left drawdown_step more st).
Proof.
  induction more as [|e more IH]; intros [p m]; cbn [fold_left]; [lra|].
  eapply Rle_trans; [|apply IH].
  rewrite drawdown_step_real. cbn [snd]. apply Rmax_l.
Qed.

Lemma calculateDrawdown_extend (curve more : list R) :
  curve <> [] ->
  exists d d',
    calculateDrawdown curve = Done d
    /\ calculateDrawdown (curve ++ more) = Done d'
    /\ d <= d'.
Proof.
  intro Hne. destruct curve as [|e0 rest]; [contradiction|].
  eexists _, _. split; [reflexivity|]. split; [reflexivity|].
  rewrite fold_left_app. apply fold_drawdown_grows.
Qed.

End Continued.

(** ** Reading the file *)

Section Reading.

Lemma append_empty (s : string) : String.append s EmptyString = s.
Proof. induction s as [|c s IH]; [reflexivity|]. cbn. now rewrite IH. Qed.

Lemma append_last (s t : string) (c : Ascii.ascii) :
  String.append (String.append s (String c EmptyString)) t
  = String.append s (String c t).
Proof. induction s as [|d s IH]; [reflexivity|]. cbn. now rewrite IH. Qed.

Lemma getlines_line (l : string) :
  has_newline l = false ->
  forall line rest,
    getlines line (String.append l (String newline rest))
    = String.append line l :: getlines EmptyString rest.
Proof.
  induction l as [|c l IH]; intros Hl line rest.
  - cbn [String.append getlines]. rewrite Ascii.eqb_refl.
    now rewrite append_empty.
  - cbn [has_newline] in Hl. apply orb_false_elim in Hl.
    destruct Hl as [Hc Hl].
    cbn [String.append getlines]. rewrite Hc.
    rewrite (IH Hl). now rewrite append_last.
Qed.

Lemma getlines_unlines (lines : list string) :
  Forall (fun l => has_newline l = false) lines ->
  getlines EmptyString (unlines lines) = lines.
Proof.
  induction 1 as [|l lines Hl _ IH]; [reflexivity|].
  cbn [unlines fold_right]. fold (unlines lines).
  rewrite (@getlines_line l Hl). cbn [String.append]. now rewrite IH.
Qed.

(** A last line that no newline ends is read as well. *)
Lemma getlines_unended (l : string) :
  has_newline l = false -> l <> EmptyString ->
  forall line, getlines line l = [String.append line l].
Proof.
  induction l as [|c l IH]; intros Hl Hne line; [contradiction|].
  cbn [has_newline] in Hl. apply orb_false_elim in Hl. destruct Hl as [Hc Hl].
  cbn [getlines]. rewrite Hc.
  destruct l as [|d l].
  - cbn [getlines]. destruct line; reflexivity.
  - rewrite (IH Hl) by discriminate. now rewrite append_last.
Qed.

Context {D : Type}.
Variable stod : string -> option D.

Lemma fold_push_parsed (lines : list string) :
  forall trades,
    fold_left (push_parsed stod) lines trades = trades ++ parsed stod lines.
Proof.
  induction lines as [|l lines IH]; intro trades.
  - cbn. now rewrite app_nil_r.
  - cbn [fold_left parsed flat_map]. rewrite IH. unfold push_parsed.
    destruct (stod l); [now rewrite <- app_assoc | reflexivity].
Qed.

Lemma readTradesFromCSV_lines (open : string -> option string)
    (filename : string) (lines : list string) :
  Forall (fun l => has_newline l = false) lines ->
  open filename = Some (unlines lines) ->
  readTradesFromCSV stod open filename = (parsed stod lines, None).
Proof.
  intros Hlines Hopen. unfold readTradesFromCSV. rewrite Hopen.
  rewrite (@getlines_unlines lines Hlines), fold_push_parsed. reflexivity.
Qed.

Lemma parsed_none (lines : list string) :
  Forall (fun l => stod l = None) lines -> parsed stod lines = [].
Proof.
  induction 1 as [|l lines Hl _ IH]; [reflexivity|].
  cbn [parsed flat_map]. rewrite Hl. exact IH.
Qed.

End Reading.

Section Program.

Context {D : Type} `{Double D}.
Variable G : Type.
Variable dist : nat -> G -> nat * G.
Variable stod : string -> option D.
Variable open : string -> option string.

(** Without a file, or with a file no line of which is a number, the
    program complains and returns [1] before anything is drawn. *)
Lemma program_no_trades (fuel : nat) (rng : G) :
  match open "./data/generated_normal_trades.csv" with
  | None => True
  | Some content =>
      Forall (fun l => stod l = None) (getlines EmptyString content)
  end ->
  exists unopened,
    program dist stod open fuel rng
    = Ret ((unopened,
            {| status := 1;
               complaint := Some "No trades data found."%string;
               report := None |}), rng)
    /\ (unopened = None
        <-> open "./data/generated_normal_trades.csv" <> None).
Proof.
  intro Hfile. unfold program, readTradesFromCSV.
  destruct (open _) as [content|].
  - rewrite fold_push_parsed, (@parsed_none D stod _ Hfile).
    eexists. split; [reflexivity|]. split; [discriminate | reflexivity].
  - eexists. split; [reflexivity|]. split; [discriminate | congruence].
Qed.

(** With trades in the file, the program is [main] on the numbers of the
    lines, in the order of the file. *)
Lemma program_reads (lines : list string) (fuel : nat) (rng : G) :
  Forall (fun l => has_newline l = false) lines ->
  open "./data/generated_normal_trades.csv" = Some (unlines lines) ->
  program dist stod open fuel rng
  = bind (main dist fuel (parsed stod lines)) (fun e => ret (None, e)) rng.
Proof.
  intros Hlines Hopen. unfold program.
  rewrite (@readTradesFromCSV_lines D stod open _ lines Hlines Hopen).
  reflexivity.
Qed.

End Program.

Section ReadingUnended.

Lemma append_assoc (s t u : string) :
  String.append (String.append s t) u = String.append s (String.append t u).
Proof. induction s as [|c s IH]; [reflexivity|]. cbn. now rewrite IH. Qed.

Lemma getlines_unlines_unended (lines : list string) (last : string) :
  Forall (fun l => has_newline l = false) lines ->
  has_newline last = false -> last <> EmptyString ->
  getlines EmptyString (String.append (unlines lines) last) = lines ++ [last].
Proof.
  intros Hlines Hlast Hne.
  induction Hlines as [|l lines Hl _ IH].
  - cbn [unlines fold_right String.append app].
    now rewrite (@getlines_unended last Hlast Hne EmptyString).
  - cbn [unlines fold_right]. fold (unlines lines).
    rewrite append_assoc. cbn [String.append].
    rewrite (@getlines_line l Hl). cbn [String.append app]. now rewrite IH.
Qed.

End ReadingUnended.

(** ** The sign of a square root, in binary64 *)

Section DeviationBinary64.

Lemma SFsqrt_not_below (x : spec_float) :
  SFltb (SFsqrt prec emax x) (S754_zero false) = false.
Proof.
  destruct x as [s | s | | s m e]; try (destruct s); try reflexivity.
  unfold SFsqrt.
  destruct (SFsqrt_core_binary prec emax (Z.pos m) e) as [[mz ez] lz].
  unfold binary_round_aux.
  destruct (shr_fexp prec emax mz ez lz) as [mrs' e'].
  destruct (shr_fexp prec emax _ e' loc_Exact) as [mrs'' e''].
  destruct (shr_m mrs''); [reflexivity | | reflexivity].
  destruct (e'' <=? emax - prec)%Z; reflexivity.
Qed.

Lemma computeStdDev_not_below (fpow : float -> float -> float)
    (data : list float) (mean : float) :
  PrimFloat.ltb (@computeStdDev float (Binary64.binary64 fpow) data mean) 0
  = false.
Proof.
  unfold computeStdDev. destruct (size data <? 2)%Z; [reflexivity|].
  cbn [sqrt Binary64.binary64].
  rewrite ltb_spec, sqrt_spec. apply SFsqrt_not_below.
Qed.

End DeviationBinary64.

(** ** Rounding to nearest stays below a double

    The double that an operation returns is at most every double that the
    exact result is at most: shown here for results that are not negative,
    from the definition of the rounding. *)

Section Shifts.

Local Open Scope Z_scope.

Lemma pow2_xI (p : positive) :
  2 ^ Z.pos p~1 = 2 * (2 ^ Z.pos p * 2 ^ Z.pos p).
Proof.
  replace (Z.pos p~1) with (1 + (Z.pos p + Z.pos p)) by lia.
  rewrite !Z.pow_add_r by lia. reflexivity.
Qed.

Lemma pow2_xO (p : positive) : 2 ^ Z.pos p~0 = 2 ^ Z.pos p * 2 ^ Z.pos p.
Proof.
  replace (Z.pos p~0) with (Z.pos p + Z.pos p) by lia.
  now rewrite Z.pow_add_r by lia.
Qed.

Lemma pow2_pos (n : Z) : 0 <= n -> 0 < 2 ^ n.
Proof. intro Hn. apply Z.pow_pos_nonneg; lia. Qed.

Lemma shr_1_m (rec : shr_record) :
  0 <= shr_m rec -> shr_m (shr_1 rec) = shr_m rec / 2.
Proof.
  destruct rec as [m r s]. cbn [shr_m]. intro Hm.
  destruct m as [|[p|p|]|p]; cbn [shr_1 shr_m]; try reflexivity; try lia.
  - rewrite Pos2Z.inj_xI. apply Z.div_unique with 1; lia.
  - rewrite Pos2Z.inj_xO. apply Z.div_unique with 0; lia.
Qed.

Lemma iter_shr_m (p : positive) :
  forall rec, 0 <= shr_m rec ->
    shr_m (iter_pos shr_1 p rec) = shr_m rec / 2 ^ Zpos p.
Proof.
  induction p as [p IH | p IH |]; intros rec Hm; cbn [iter_pos].
  - assert (H1 : 0 <= shr_m (shr_1 rec))
      by (rewrite shr_1_m by exact Hm; apply Z.div_pos; lia).
    assert (H2 : 0 <= shr_m (iter_pos shr_1 p (shr_1 rec))).
    { rewrite IH by exact H1. apply Z.div_pos; [lia | apply pow2_pos; lia]. }
    pose proof (@pow2_pos (Z.pos p) ltac:(lia)) as Hpos.
    rewrite (IH _ H2), (IH _ H1), (@shr_1_m _ Hm).
    rewrite !Z.div_div by lia. now rewrite pow2_xI.
  - assert (H1 : 0 <= shr_m (iter_pos shr_1 p rec)).
    { rewrite IH by exact Hm. apply Z.div_pos; [lia | apply pow2_pos; lia]. }
    pose proof (@pow2_pos (Z.pos p) ltac:(lia)) as Hpos.
    rewrite (IH _ H1), (IH _ Hm). rewrite Z.div_div by lia.
    now rewrite pow2_xO.
  - now rewrite shr_1_m.
Qed.

(** A record is exact when neither the round bit nor the sticky bit is set. *)
Lemma shr_1_exact (rec : shr_record) (k : Z) :
  shr_r rec = false -> shr_s rec = false -> shr_m rec = 2 * k -> 0 <= k ->
  shr_r (shr_1 rec) = false /\ shr_s (shr_1 rec) = false.
Proof.
  destruct rec as [m r s]. cbn [shr_m shr_r shr_s]. intros -> -> Hm Hk.
  destruct m as [|[p|p|]|p]; cbn; try (split; reflexivity); lia.
Qed.

Lemma iter_shr_exact (p : positive) :
  forall rec k,
    shr_r rec = false -> shr_s rec = false ->
    shr_m rec = 2 ^ Zpos p * k -> 0 <= k ->
    shr_r (iter_pos shr_1 p rec) = false
    /\ shr_s (iter_pos shr_1 p rec) = false.
Proof.
  induction p as [p IH | p IH |]; intros rec k Hr Hs Hm Hk; cbn [iter_pos].
  - pose proof (@pow2_pos (Z.pos p) ltac:(lia)) as Hpos.
    rewrite pow2_xI in Hm.
    destruct (@shr_1_exact rec (2 ^ Z.pos p * 2 ^ Z.pos p * k) Hr Hs)
      as [Hr1 Hs1]; [lia | nia |].
    assert (Hm1 : shr_m (shr_1 rec) = 2 ^ Z.pos p * (2 ^ Z.pos p * k)).
    { rewrite shr_1_m by nia. rewrite Hm.
      replace (2 * (2 ^ Z.pos p * 2 ^ Z.pos p) * k)
        with (2 ^ Z.pos p * (2 ^ Z.pos p * k) * 2) by ring.
      apply Z.div_mul. lia. }
    destruct (IH (shr_1 rec) (2 ^ Z.pos p * k) Hr1 Hs1 Hm1) as [Hr2 Hs2];
      [nia|].
    apply (IH _ k Hr2 Hs2); [|exact Hk].
    rewrite iter_shr_m by nia. rewrite Hm1.
    rewrite Z.mul_comm. apply Z.div_mul. lia.
  - pose proof (@pow2_pos (Z.pos p) ltac:(lia)) as Hpos.
    rewrite pow2_xO in Hm.
    destruct (IH rec (2 ^ Z.pos p * k) Hr Hs) as [Hr1 Hs1]; [lia | nia |].
    apply (IH _ k Hr1 Hs1); [|exact Hk].
    rewrite iter_shr_m by nia. rewrite Hm.
    replace (2 ^ Z.pos p * 2 ^ Z.pos p * k)
      with (2 ^ Z.pos p * k * 2 ^ Z.pos p) by ring.
    apply Z.div_mul. lia.
  - apply (@shr_1_exact rec k Hr Hs); [|exact Hk].
    rewrite Hm. reflexivity.
Qed.

Lemma round_nearest_even_range (m : Z) (l : location) :
  m <= round_nearest_even m l <= m + 1.
Proof.
  destruct l as [|[| |]]; cbn [round_nearest_even]; try lia.
  destruct (Z.even m); lia.
Qed.

Lemma round_nearest_even_exact (m : Z) : round_nearest_even m loc_Exact = m.
Proof. reflexivity. Qed.

Lemma loc_of_record_of (m : Z) (l : location) :
  loc_of_shr_record (shr_record_of_loc m l) = l.
Proof. now destruct l as [|[| |]]. Qed.

Lemma shr_m_record_of (m : Z) (l : location) :
  shr_m (shr_record_of_loc m l) = m.
Proof. now destruct l as [|[| |]]. Qed.

Lemma loc_exact_record (rec : shr_record) :
  shr_r rec = false -> shr_s rec = false ->
  loc_of_shr_record rec = loc_Exact.
Proof. destruct rec as [m r s]. cbn. now intros -> ->. Qed.

(** Shifting right, then rounding to nearest, stays at or below every
    bound [K * 2 ^ n] of the value shifted, and strictly below the bound
    of a value that is not exact. *)
Lemma round_shr_le (m e n K : Z) (l : location) :
  0 <= m ->
  m <= K * 2 ^ Z.max 0 n ->
  (l <> loc_Exact -> m < K * 2 ^ Z.max 0 n) ->
  snd (shr (shr_record_of_loc m l) e n) = e + Z.max 0 n
  /\ 0 <= round_nearest_even
            (shr_m (fst (shr (shr_record_of_loc m l) e n)))
            (loc_of_shr_record (fst (shr (shr_record_of_loc m l) e n)))
     <= K.
Proof.
  intros Hm Hle Hlt. unfold shr.
  destruct n as [|p|p]; cbn [fst snd].
  - replace (Z.max 0 0) with 0 in * by reflexivity.
    rewrite Z.mul_1_r in Hle, Hlt. rewrite Z.add_0_r.
    split; [reflexivity|].
    rewrite loc_of_record_of, shr_m_record_of.
    pose proof (round_nearest_even_range m l) as Hr.
    split; [lia|].
    destruct l as [|c]; [cbn; lia|].
    assert (m < K) by (apply Hlt; discriminate). lia.
  - replace (Z.max 0 (Z.pos p)) with (Z.pos p) in * by lia.
    split; [reflexivity|].
    pose proof (@pow2_pos (Z.pos p) ltac:(lia)) as Hpos.
    assert (Hrec : 0 <= shr_m (shr_record_of_loc m l))
      by (rewrite shr_m_record_of; exact Hm).
    pose proof (@iter_shr_m p _ Hrec) as Hq. rewrite shr_m_record_of in Hq.
    set (rec := iter_pos shr_1 p (shr_record_of_loc m l)) in *.
    pose proof (round_nearest_even_range (shr_m rec) (loc_of_shr_record rec))
      as Hr.
    assert (Hq0 : 0 <= m / 2 ^ Z.pos p) by (apply Z.div_pos; lia).
    split; [lia|].
    pose proof (Z.div_mod m (2 ^ Z.pos p) ltac:(lia)) as Hdiv.
    pose proof (Z.mod_pos_bound m (2 ^ Z.pos p) Hpos) as Hmod.
    rewrite (Z.mul_comm (2 ^ Z.pos p)) in Hdiv.
    assert (Hexact : l = loc_Exact -> m mod 2 ^ Z.pos p = 0 ->
                     round_nearest_even (shr_m rec) (loc_of_shr_record rec)
                     = m / 2 ^ Z.pos p).
    { intros -> Hz.
      destruct (@iter_shr_exact p (shr_record_of_loc m loc_Exact)
                  (m / 2 ^ Z.pos p) eq_refl eq_refl) as [Hr1 Hs1];
        [cbn [shr_record_of_loc shr_m]; lia | lia |].
      fold rec in Hr1, Hs1.
      now rewrite (@loc_exact_record _ Hr1 Hs1), round_nearest_even_exact. }
    rewrite Hq in Hr, Hexact |- *. clearbody rec. clear Hq Hrec.
    set (q := m / 2 ^ Z.pos p) in *. set (r := m mod 2 ^ Z.pos p) in *.
    set (a := 2 ^ Z.pos p) in *. clearbody q r a.
    destruct (Z.eq_dec r 0) as [Hz | Hnz].
    + destruct l as [|c].
      * rewrite (Hexact eq_refl Hz).
        assert (q <= K)
          by (apply Z.mul_le_mono_pos_r with a; [exact Hpos | lia]).
        lia.
      * assert (Hlt' : m < K * a) by (apply Hlt; discriminate).
        assert (q < K)
          by (apply Z.mul_lt_mono_pos_r with a; [exact Hpos | lia]).
        lia.
    + assert (q < K)
        by (apply Z.mul_lt_mono_pos_r with a; [exact Hpos | lia]).
      lia.
  - replace (Z.max 0 (Z.neg p)) with 0 in * by lia.
    rewrite Z.mul_1_r in Hle, Hlt. rewrite Z.add_0_r.
    split; [reflexivity|].
    rewrite loc_of_record_of, shr_m_record_of.
    pose proof (round_nearest_even_range m l) as Hr.
    split; [lia|].
    destruct l as [|c]; [cbn; lia|].
    assert (m < K) by (apply Hlt; discriminate). lia.
Qed.


Lemma digits2_pos_bounds (p : positive) :
  2 ^ (Z.pos (digits2_pos p) - 1) <= Z.pos p < 2 ^ Z.pos (digits2_pos p).
Proof.
  induction p as [p IH | p IH |]; cbn [digits2_pos].
  - rewrite Pos2Z.inj_succ, Pos2Z.inj_xI.
    replace (Z.succ (Z.pos (digits2_pos p)) - 1)
      with (1 + (Z.pos (digits2_pos p) - 1)) by lia.
    rewrite Z.pow_succ_r by lia. rewrite Z.pow_add_r by lia.
    change (2 ^ 1) with 2. revert IH.
    generalize (2 ^ (Z.pos (digits2_pos p) - 1)), (2 ^ Z.pos (digits2_pos p)).
    intros a b IH. lia.
  - rewrite Pos2Z.inj_succ. change (Z.pos p~0) with (2 * Z.pos p).
    replace (Z.succ (Z.pos (digits2_pos p)) - 1)
      with (1 + (Z.pos (digits2_pos p) - 1)) by lia.
    rewrite Z.pow_succ_r by lia. rewrite Z.pow_add_r by lia.
    change (2 ^ 1) with 2. revert IH.
    generalize (2 ^ (Z.pos (digits2_pos p) - 1)), (2 ^ Z.pos (digits2_pos p)).
    intros a b IH. lia.
  - cbn. lia.
Qed.

(** A value at or below [mB * 2 ^ eB] has no more digits before the point
    than the bound. *)
Lemma magnitude_le (m e : Z) (mB : positive) (eB : Z) :
  0 <= m -> e <= eB -> m <= Z.pos mB * 2 ^ (eB - e) ->
  Zdigits2 m + e <= Z.pos (digits2_pos mB) + eB.
Proof.
  intros Hm He Hle.
  destruct m as [|p|p]; [cbn [Zdigits2]; lia | | lia].
  cbn [Zdigits2].
  pose proof (digits2_pos_bounds p) as [Hlo _].
  pose proof (digits2_pos_bounds mB) as [_ Hhi].
  pose proof (@pow2_pos (eB - e) ltac:(lia)) as Hpos.
  assert (Hlt : 2 ^ (Z.pos (digits2_pos p) - 1)
                < 2 ^ (Z.pos (digits2_pos mB) + (eB - e))).
  { rewrite Z.pow_add_r by lia.
    eapply Z.le_lt_trans; [exact Hlo|].
    eapply Z.le_lt_trans; [exact Hle|].
    apply Z.mul_lt_mono_pos_r; [exact Hpos | exact Hhi]. }
  apply Z.pow_lt_mono_r_iff in Hlt; lia.
Qed.

Lemma fexp_le (a b : Z) : a <= b -> fexp prec emax a <= fexp prec emax b.
Proof. unfold fexp. lia. Qed.

(** Rounding to nearest stays at or below a bound that is a double: for a
    value [x] of which [(m, l)] are the integer part and the location in
    units of [2 ^ e], the double [binary_round_aux false m e l] is at most
    the double [mB * 2 ^ eB] whenever [x] is. *)
Lemma binary_round_aux_le (m e : Z) (l : location) (mB : positive) (eB : Z) :
  0 <= m ->
  fexp prec emax (Z.pos (digits2_pos mB) + eB) = eB ->
  eB <= emax - prec ->
  e <= eB ->
  m <= Z.pos mB * 2 ^ (eB - e) ->
  (l <> loc_Exact -> m < Z.pos mB * 2 ^ (eB - e)) ->
  SFleb (binary_round_aux prec emax false m e l) (S754_finite false mB eB)
  = true.
Proof.
  intros Hm HB HeB He Hle Hlt.
  unfold binary_round_aux, shr_fexp.
  set (n1 := fexp prec emax (Zdigits2 m + e) - e).
  assert (He1 : e + Z.max 0 n1 <= eB).
  { pose proof (magnitude_le mB Hm He Hle) as Hmag.
    apply fexp_le in Hmag. rewrite HB in Hmag. unfold n1. lia. }
  assert (Hsplit : Z.pos mB * 2 ^ (eB - e)
                   = Z.pos mB * 2 ^ (eB - (e + Z.max 0 n1)) * 2 ^ Z.max 0 n1).
  { rewrite <- Z.mul_assoc, <- Z.pow_add_r by lia. do 2 f_equal. lia. }
  rewrite Hsplit in Hle, Hlt.
  destruct (@round_shr_le m e n1 (Z.pos mB * 2 ^ (eB - (e + Z.max 0 n1))) l
              Hm Hle Hlt) as [Hsnd Hround].
  destruct (shr (shr_record_of_loc m l) e n1) as [mrs' e'].
  cbn [fst snd] in Hsnd, Hround. subst e'.
  set (e1 := e + Z.max 0 n1) in *.
  set (m1 := round_nearest_even (shr_m mrs') (loc_of_shr_record mrs')) in *.
  set (n2 := fexp prec emax (Zdigits2 m1 + e1) - e1).
  assert (He2 : e1 + Z.max 0 n2 <= eB).
  { pose proof (@magnitude_le m1 e1 mB eB (proj1 Hround) He1 (proj2 Hround))
      as Hmag.
    apply fexp_le in Hmag. rewrite HB in Hmag. unfold n2. lia. }
  assert (Hshift : snd (shr (shr_record_of_loc m1 loc_Exact) e1 n2)
                   = e1 + Z.max 0 n2
                   /\ shr_m (fst (shr (shr_record_of_loc m1 loc_Exact) e1 n2))
                      = m1 / 2 ^ Z.max 0 n2).
  { unfold shr. destruct n2 as [|p|p]; cbn [fst snd shr_record_of_loc shr_m].
    - split; [lia|]. now rewrite Z.div_1_r.
    - split; [reflexivity|].
      rewrite iter_shr_m by (cbn [shr_m]; lia). reflexivity.
    - split; [lia|]. now rewrite Z.div_1_r. }
  destruct Hshift as [Hsnd2 Hm2].
  destruct (shr (shr_record_of_loc m1 loc_Exact) e1 n2) as [mrs'' e''].
  cbn [fst snd] in Hsnd2, Hm2. subst e''. rewrite Hm2.
  set (e2 := e1 + Z.max 0 n2) in *.
  pose proof (@pow2_pos (Z.max 0 n2) ltac:(lia)) as Hpos2.
  assert (Hq : 0 <= m1 / 2 ^ Z.max 0 n2 <= Z.pos mB * 2 ^ (eB - e2)).
  { split; [apply Z.div_pos; lia|].
    apply Z.div_le_upper_bound; [exact Hpos2|].
    replace (2 ^ Z.max 0 n2 * (Z.pos mB * 2 ^ (eB - e2)))
      with (Z.pos mB * 2 ^ (eB - e1)); [lia|].
    rewrite (Z.mul_comm (2 ^ Z.max 0 n2)), <- Z.mul_assoc, <- Z.pow_add_r
      by lia.
    do 2 f_equal. unfold e2. lia. }
  destruct (m1 / 2 ^ Z.max 0 n2) as [|p|p]; [reflexivity | | lia].
  replace (e2 <=? emax - prec) with true by (symmetry; apply Z.leb_le; lia).
  unfold SFleb, SFcompare.
  destruct (Z.compare_spec e2 eB) as [Heq | Hlt' | Hgt]; [|reflexivity | lia].
  rewrite Heq, Z.sub_diag, Z.mul_1_r in Hq.
  change (Pos.compare_cont Eq p mB) with (Pos.compare p mB).
  destruct (Pos.compare_spec p mB); [reflexivity | reflexivity | lia].
Qed.


(** [a * 2 ^ i <= b * 2 ^ j] depends on [i - j] alone. *)
Lemma scale_le (a b i j i' j' : Z) :
  0 <= i -> 0 <= j -> 0 <= i' -> 0 <= j' -> i - j = i' - j' ->
  a * 2 ^ i <= b * 2 ^ j -> a * 2 ^ i' <= b * 2 ^ j'.
Proof.
  intros Hi Hj Hi' Hj' Heq Hle.
  destruct (Z.le_ge_cases i i') as [Hup | Hdown].
  - replace i' with (i + (i' - i)) by lia.
    replace j' with (j + (i' - i)) by lia.
    rewrite !Z.pow_add_r, !Z.mul_assoc by lia.
    apply Z.mul_le_mono_nonneg_r; [apply Z.pow_nonneg; lia | exact Hle].
  - replace i with (i' + (i - i')) in Hle by lia.
    replace j with (j' + (i - i')) in Hle by lia.
    rewrite !Z.pow_add_r, !Z.mul_assoc in Hle by lia.
    apply Z.mul_le_mono_pos_r in Hle; [exact Hle | apply pow2_pos; lia].
Qed.

Lemma scale_lt (a b i j i' j' : Z) :
  0 <= i -> 0 <= j -> 0 <= i' -> 0 <= j' -> i - j = i' - j' ->
  a * 2 ^ i < b * 2 ^ j -> a * 2 ^ i' < b * 2 ^ j'.
Proof.
  intros Hi Hj Hi' Hj' Heq Hlt.
  destruct (Z.le_ge_cases i i') as [Hup | Hdown].
  - replace i' with (i + (i' - i)) by lia.
    replace j' with (j + (i' - i)) by lia.
    rewrite !Z.pow_add_r, !Z.mul_assoc by lia.
    apply Z.mul_lt_mono_pos_r; [apply pow2_pos; lia | exact Hlt].
  - replace i with (i' + (i - i')) in Hlt by lia.
    replace j with (j' + (i - i')) in Hlt by lia.
    rewrite !Z.pow_add_r, !Z.mul_assoc in Hlt by lia.
    apply Z.mul_lt_mono_pos_r in Hlt; [exact Hlt | apply pow2_pos; lia].
Qed.

Lemma iter_xO (m d : positive) :
  Z.pos (Pos.iter xO m d) = Z.pos m * 2 ^ Z.pos d.
Proof.
  refine (@Pos.iter_ind positive xO m
            (fun d r => Z.pos r = Z.pos m * 2 ^ Z.pos d) _ _ d).
  - change (Z.pos m~0) with (2 * Z.pos m). change (2 ^ 1) with 2. lia.
  - intros p a Ha. change (Z.pos a~0) with (2 * Z.pos a).
    rewrite Ha, Pos2Z.inj_succ, Z.pow_succ_r by lia. ring.
Qed.

(** [shl_align] keeps the value and never raises the exponent. *)
Lemma shl_align_spec (m : positive) (e e' : Z) :
  snd (shl_align m e e') = Z.min e e'
  /\ Z.pos (fst (shl_align m e e'))
     = Z.pos m * 2 ^ (e - snd (shl_align m e e')).
Proof.
  unfold shl_align. destruct (e' - e) as [|d|d] eqn:Hd; cbn [fst snd].
  - split; [lia|]. rewrite Z.sub_diag. lia.
  - split; [lia|]. rewrite Z.sub_diag. lia.
  - split; [lia|]. rewrite iter_xO. do 2 f_equal. lia.
Qed.

(** The magnitude of a value bounded by a double, both in units of
    [2 ^ c]. *)
Lemma magnitude_le_at (c : Z) (p : positive) (e : Z) (mB : positive)
    (eB : Z) :
  c <= e -> c <= eB ->
  Z.pos p * 2 ^ (e - c) <= Z.pos mB * 2 ^ (eB - c) ->
  Z.pos (digits2_pos p) + e <= Z.pos (digits2_pos mB) + eB.
Proof.
  intros He HeB Hle.
  pose proof (digits2_pos_bounds p) as [Hlo _].
  pose proof (digits2_pos_bounds mB) as [_ Hhi].
  assert (Hlt : 2 ^ (Z.pos (digits2_pos p) - 1 + (e - c))
                < 2 ^ (Z.pos (digits2_pos mB) + (eB - c))).
  { rewrite !Z.pow_add_r by lia.
    eapply Z.le_lt_trans;
      [apply Z.mul_le_mono_nonneg_r; [apply Z.pow_nonneg; lia | exact Hlo]|].
    eapply Z.le_lt_trans; [exact Hle|].
    apply Z.mul_lt_mono_pos_r; [apply pow2_pos; lia | exact Hhi]. }
  apply Z.pow_lt_mono_r_iff in Hlt; lia.
Qed.


Lemma bounded_spec (m : positive) (e : Z) :
  bounded prec emax m e = true ->
  fexp prec emax (Z.pos (digits2_pos m) + e) = e
  /\ e <= emax - prec
  /\ emin <= e
  /\ Z.pos (digits2_pos m) <= prec
  /\ (emin < e -> Z.pos (digits2_pos m) = prec).
Proof.
  unfold bounded, canonical_mantissa. intro Hb.
  apply andb_prop in Hb. destruct Hb as [Hc He].
  apply Z.eqb_eq in Hc. apply Z.leb_le in He.
  split; [exact Hc|]. split; [exact He|].
  unfold fexp in Hc. lia.
Qed.

Lemma binary_round_aux_nonneg (m e : Z) (l : location) (mB : positive)
    (eB : Z) :
  SFleb (binary_round_aux prec emax false m e l) (S754_finite false mB eB)
  = true ->
  SFleb (S754_zero false) (binary_round_aux prec emax false m e l) = true.
Proof.
  unfold binary_round_aux.
  destruct (shr_fexp prec emax m e l) as [mrs' e'].
  destruct (shr_fexp prec emax _ e' loc_Exact) as [mrs'' e''].
  destruct (shr_m mrs''); [reflexivity | | discriminate].
  destruct (e'' <=? emax - prec); [reflexivity | discriminate].
Qed.

(** Rounding an integer multiple of [2 ^ e]. *)
Lemma binary_round_le (m : positive) (e : Z) (mB : positive) (eB : Z) :
  emin <= e -> bounded prec emax mB eB = true ->
  Z.pos m * 2 ^ (e - emin) <= Z.pos mB * 2 ^ (eB - emin) ->
  SFleb (binary_round prec emax false m e) (S754_finite false mB eB) = true.
Proof.
  intros He HB Hle.
  destruct (@bounded_spec _ _ HB) as (Hcan & HeB & HminB & _).
  unfold binary_round.
  pose proof (shl_align_spec m e (fexp prec emax (Z.pos (digits2_pos m) + e)))
    as [Hsnd Hfst].
  destruct (shl_align m e (fexp prec emax (Z.pos (digits2_pos m) + e)))
    as [mz ez].
  cbn [fst snd] in Hsnd, Hfst.
  pose proof (@magnitude_le_at emin m e mB eB He HminB Hle) as Hmag.
  apply fexp_le in Hmag. rewrite Hcan in Hmag.
  assert (Hez : emin <= ez) by (unfold fexp in Hsnd; lia).
  assert (Hez' : ez <= eB) by lia.
  assert (Hez'' : ez <= e) by lia.
  apply binary_round_aux_le; try assumption; [lia| |congruence].
  rewrite Hfst.
  assert (Hscale : Z.pos m * 2 ^ (e - ez) <= Z.pos mB * 2 ^ (eB - ez)).
  { apply (@scale_le (Z.pos m) (Z.pos mB) (e - emin) (eB - emin));
      first [lia | exact Hle]. }
  exact Hscale.
Qed.

Lemma SFadd_le (mx : positive) (ex : Z) (my : positive) (ey : Z)
    (mB : positive) (eB : Z) :
  emin <= ex -> emin <= ey -> bounded prec emax mB eB = true ->
  Z.pos mx * 2 ^ (ex - emin) + Z.pos my * 2 ^ (ey - emin)
  <= Z.pos mB * 2 ^ (eB - emin) ->
  SFleb (SFadd prec emax (S754_finite false mx ex) (S754_finite false my ey))
        (S754_finite false mB eB)
  = true
  /\ SFleb (S754_zero false)
           (SFadd prec emax (S754_finite false mx ex)
                  (S754_finite false my ey))
     = true.
Proof.
  intros Hex Hey HB Hle. cbn [SFadd cond_Zopp].
  pose proof (shl_align_spec mx ex (Z.min ex ey)) as [Hsx Hfx].
  pose proof (shl_align_spec my ey (Z.min ex ey)) as [Hsy Hfy].
  rewrite Hsx in Hfx. rewrite Hsy in Hfy.
  replace (Z.min ex (Z.min ex ey)) with (Z.min ex ey) in Hfx by lia.
  replace (Z.min ey (Z.min ex ey)) with (Z.min ex ey) in Hfy by lia.
  set (a := fst (shl_align mx ex (Z.min ex ey))) in *.
  set (b := fst (shl_align my ey (Z.min ex ey))) in *.
  change (Z.pos a + Z.pos b) with (Z.pos (a + b)).
  cbn [binary_normalize].
  assert (Hround : SFleb (binary_round prec emax false (a + b) (Z.min ex ey))
                         (S754_finite false mB eB) = true).
  { apply binary_round_le; [lia | exact HB |].
    rewrite Pos2Z.inj_add, Hfx, Hfy, Z.mul_add_distr_r.
    rewrite <- !Z.mul_assoc, <- !Z.pow_add_r by lia.
    replace (ex - Z.min ex ey + (Z.min ex ey - emin)) with (ex - emin) by lia.
    replace (ey - Z.min ex ey + (Z.min ex ey - emin)) with (ey - emin) by lia.
    exact Hle. }
  split; [exact Hround|].
  revert Hround. unfold binary_round.
  destruct (shl_align (a + b) (Z.min ex ey) _) as [mz ez].
  apply binary_round_aux_nonneg.
Qed.

(** A difference of doubles [x - y] with [y <= x]. *)
Lemma SFsub_le (mx : positive) (ex : Z) (my : positive) (ey : Z)
    (mB : positive) (eB : Z) :
  emin <= ex -> emin <= ey -> bounded prec emax mB eB = true ->
  Z.pos my * 2 ^ (ey - emin) <= Z.pos mx * 2 ^ (ex - emin) ->
  Z.pos mx * 2 ^ (ex - emin) - Z.pos my * 2 ^ (ey - emin)
  <= Z.pos mB * 2 ^ (eB - emin) ->
  SFleb (SFsub prec emax (S754_finite false mx ex) (S754_finite false my ey))
        (S754_finite false mB eB)
  = true
  /\ SFleb (S754_zero false)
           (SFsub prec emax (S754_finite false mx ex)
                  (S754_finite false my ey))
     = true.
Proof.
  intros Hex Hey HB Hyx Hle. cbn [SFsub cond_Zopp].
  pose proof (shl_align_spec mx ex (Z.min ex ey)) as [Hsx Hfx].
  pose proof (shl_align_spec my ey (Z.min ex ey)) as [Hsy Hfy].
  rewrite Hsx in Hfx. rewrite Hsy in Hfy.
  replace (Z.min ex (Z.min ex ey)) with (Z.min ex ey) in Hfx by lia.
  replace (Z.min ey (Z.min ex ey)) with (Z.min ex ey) in Hfy by lia.
  set (a := fst (shl_align mx ex (Z.min ex ey))) in *.
  set (b := fst (shl_align my ey (Z.min ex ey))) in *.
  assert (Hab : Z.pos b <= Z.pos a).
  { rewrite Hfx, Hfy.
    apply (@scale_le (Z.pos my) (Z.pos mx) (ey - emin) (ex - emin));
      first [lia | exact Hyx]. }
  assert (Hval : (Z.pos a - Z.pos b) * 2 ^ (Z.min ex ey - emin)
                 = Z.pos mx * 2 ^ (ex - emin) - Z.pos my * 2 ^ (ey - emin)).
  { rewrite Hfx, Hfy, Z.mul_sub_distr_r.
    rewrite <- !Z.mul_assoc, <- !Z.pow_add_r by lia.
    replace (ex - Z.min ex ey + (Z.min ex ey - emin)) with (ex - emin) by lia.
    replace (ey - Z.min ex ey + (Z.min ex ey - emin)) with (ey - emin) by lia.
    reflexivity. }
  destruct (Z.pos a - Z.pos b) as [|c|c] eqn:Hc; [| |lia].
  - cbn [binary_normalize]. split; reflexivity.
  - cbn [binary_normalize].
    assert (Hround : SFleb (binary_round prec emax false c (Z.min ex ey))
                           (S754_finite false mB eB) = true).
    { apply binary_round_le; [lia | exact HB |]. rewrite Hval. exact Hle. }
    split; [exact Hround|].
    revert Hround. unfold binary_round.
    destruct (shl_align c (Z.min ex ey) _) as [mz ez].
    apply binary_round_aux_nonneg.
Qed.

Lemma new_location_inexact (n r : Z) :
  new_location n r <> loc_Exact -> r <> 0.
Proof.
  unfold new_location, new_location_even, new_location_odd.
  intros Hloc ->. destruct (Z.even n); cbn in Hloc; congruence.
Qed.

(** A quotient of doubles [x / y] that is at most the double
    [mB * 2 ^ eB], in units of [2 ^ c] for the exponent [c] below given. *)
Lemma SFdiv_le (mx : positive) (ex : Z) (my : positive) (ey : Z)
    (mB : positive) (eB : Z) :
  bounded prec emax mB eB = true ->
  Z.pos mx * 2 ^ (ex - ey - Z.min eB (ex - ey))
  <= Z.pos mB * 2 ^ (eB - Z.min eB (ex - ey)) * Z.pos my ->
  SFleb (SFdiv prec emax (S754_finite false mx ex) (S754_finite false my ey))
        (S754_finite false mB eB)
  = true.
Proof.
  intros HB Hle.
  destruct (@bounded_spec _ _ HB) as (Hcan & HeB & HminB & _).
  cbn [SFdiv xorb]. unfold SFdiv_core_binary. cbn [Zdigits2].
  set (c := Z.min eB (ex - ey)) in *.
  set (dx := Z.pos (digits2_pos mx)). set (dy := Z.pos (digits2_pos my)).
  set (e' := Z.min (fexp prec emax (dx + ex - (dy + ey))) (ex - ey)).
  (* the magnitude of the quotient *)
  assert (Hmag : dx + ex - (dy + ey) <= Z.pos (digits2_pos mB) + eB).
  { pose proof (digits2_pos_bounds mx) as [Hlox _].
    pose proof (digits2_pos_bounds my) as [_ Hhiy].
    pose proof (digits2_pos_bounds mB) as [_ HhiB].
    fold dx in Hlox. fold dy in Hhiy.
    assert (Hlt : 2 ^ (dx - 1 + (ex - ey - c))
                  < 2 ^ (Z.pos (digits2_pos mB) + (eB - c) + dy)).
    { rewrite !Z.pow_add_r by lia.
      pose proof (@pow2_pos (ex - ey - c) ltac:(lia)) as H1.
      pose proof (@pow2_pos (eB - c) ltac:(lia)) as H2.
      eapply Z.le_lt_trans;
        [apply Z.mul_le_mono_nonneg_r; [lia | exact Hlox]|].
      eapply Z.le_lt_trans; [exact Hle|].
      apply Z.le_lt_trans
        with (2 ^ Z.pos (digits2_pos mB) * 2 ^ (eB - c) * Z.pos my).
      - apply Z.mul_le_mono_nonneg_r; [lia|].
        apply Z.mul_le_mono_nonneg_r; lia.
      - apply Z.mul_lt_mono_pos_l; [|exact Hhiy].
        apply Z.mul_pos_pos; [apply pow2_pos; lia | exact H2]. }
    apply Z.pow_lt_mono_r_iff in Hlt; lia. }
  apply fexp_le in Hmag. rewrite Hcan in Hmag.
  assert (He' : e' <= c) by (unfold e', c; lia).
  set (s := ex - ey - e').
  assert (Hs : 0 <= s) by (unfold s, e'; lia).
  assert (Hm' : match s with
                | Z.pos _ => Z.shiftl (Z.pos mx) s
                | 0 => Z.pos mx
                | Z.neg _ => 0
                end = Z.pos mx * 2 ^ s).
  { destruct s as [|p|p] eqn:Hsp; [cbn; lia | | lia].
    apply Z.shiftl_mul_pow2. lia. }
  rewrite Hm'.
  pose proof (Z_div_mod (Z.pos mx * 2 ^ s) (Z.pos my) ltac:(lia)) as Hdiv.
  destruct (Z.div_eucl (Z.pos mx * 2 ^ s) (Z.pos my)) as [q r].
  destruct Hdiv as [Hqr Hr].
  assert (Hbound : Z.pos mx * 2 ^ s
                   <= Z.pos mB * 2 ^ (eB - e') * Z.pos my).
  { replace s with (ex - ey - c + (c - e')) by (unfold s; lia).
    replace (eB - e') with (eB - c + (c - e')) by lia.
    rewrite !Z.pow_add_r by lia.
    pose proof (@pow2_pos (c - e') ltac:(lia)) as H3.
    replace (Z.pos mB * (2 ^ (eB - c) * 2 ^ (c - e')) * Z.pos my)
      with (Z.pos mB * 2 ^ (eB - c) * Z.pos my * 2 ^ (c - e')) by ring.
    rewrite Z.mul_assoc.
    apply Z.mul_le_mono_nonneg_r; [lia | exact Hle]. }
  pose proof (@pow2_pos s Hs) as Hps.
  set (K := Z.pos mB * 2 ^ (eB - e')) in *.
  set (m' := Z.pos mx * 2 ^ s) in *.
  assert (Hm'pos : 0 < m') by (unfold m'; lia).
  clearbody m'.
  assert (Hq0 : 0 <= q) by nia.
  apply binary_round_aux_le; try assumption; [lia | fold K | fold K].
  - clearbody K. assert (q * Z.pos my <= K * Z.pos my) by lia.
    apply Z.mul_le_mono_pos_r with (Z.pos my); lia.
  - intro Hloc. apply new_location_inexact in Hloc.
    clearbody K. assert (q * Z.pos my < K * Z.pos my) by lia.
    apply Z.mul_lt_mono_pos_r with (Z.pos my); lia.
Qed.

(** The order of two doubles that are not negative, read on their
    values. *)
Lemma SFleb_le (mx : positive) (ex : Z) (mB : positive) (eB : Z) :
  bounded prec emax mx ex = true -> bounded prec emax mB eB = true ->
  SFleb (S754_finite false mx ex) (S754_finite false mB eB) = true ->
  Z.pos mx * 2 ^ (ex - emin) <= Z.pos mB * 2 ^ (eB - emin).
Proof.
  intros Hx HB Hleb.
  destruct (@bounded_spec _ _ Hx) as (_ & _ & Hminx & Hdx & _).
  destruct (@bounded_spec _ _ HB) as (_ & _ & HminB & _ & HnormB).
  unfold SFleb, SFcompare in Hleb.
  destruct (Z.compare_spec ex eB) as [Heq | Hlt | Hgt]; [| |discriminate].
  - subst eB. apply Z.mul_le_mono_nonneg_r; [apply Z.pow_nonneg; lia|].
    change (Pos.compare_cont Eq mx mB) with (Pos.compare mx mB) in Hleb.
    destruct (Pos.compare_spec mx mB); [lia | lia | discriminate].
  - pose proof (digits2_pos_bounds mx) as [_ Hhix].
    pose proof (digits2_pos_bounds mB) as [HloB _].
    rewrite (HnormB ltac:(lia)) in HloB.
    assert (Hx53 : Z.pos mx < 2 ^ prec).
    { eapply Z.lt_le_trans; [exact Hhix|].
      apply Z.pow_le_mono_r; lia. }
    replace (eB - emin) with (1 + (eB - 1 - emin)) by lia.
    rewrite Z.pow_add_r by lia. change (2 ^ 1) with 2.
    assert (Hpow : 2 ^ (ex - emin) <= 2 ^ (eB - 1 - emin))
      by (apply Z.pow_le_mono_r; lia).
    assert (H53 : 2 ^ prec = 2 * 2 ^ (prec - 1)) by reflexivity.
    pose proof (@pow2_pos (ex - emin) ltac:(lia)) as H1.
    pose proof (@pow2_pos (eB - 1 - emin) ltac:(lia)) as H2.
    set (X := 2 ^ (ex - emin)) in *. set (Y := 2 ^ (eB - 1 - emin)) in *.
    set (P := 2 ^ (prec - 1)) in *. set (Q := 2 ^ prec) in *.
    clearbody X Y P Q. nia.
Qed.


End Shifts.

(** ** The midpoint of two doubles of [[0, 10]] *)

Section Midpoint.

Local Open Scope Z_scope.

Lemma within_of_bracket (x : float) : in_bracket x -> within (-49) (Prim2SF x).
Proof.
  intros [H0 H10]. rewrite leb_spec in H0, H10.
  pose proof (Prim2SF_valid x) as Hv.
  change (Prim2SF 0) with (S754_zero false) in H0.
  change (Prim2SF 10) with (S754_finite false mant10 (-49)) in H10.
  destruct (Prim2SF x) as [s | s | | s m e]; try discriminate.
  - left. now exists s.
  - destruct s; try discriminate.
  - destruct s; [discriminate|]. right. exists m, e.
    split; [reflexivity|]. split; [exact Hv | exact H10].
Qed.

Lemma bracket_of_within (x : float) : within (-49) (Prim2SF x) -> in_bracket x.
Proof.
  intros [[s Hx] | (m & e & Hx & _ & Hle)]; unfold in_bracket;
    rewrite !leb_spec; rewrite Hx in *.
  - split; reflexivity.
  - split; [reflexivity | exact Hle].
Qed.

Lemma within_add (x y : spec_float) :
  within (-49) x -> within (-49) y ->
  valid_binary (SFadd prec emax x y) = true ->
  within (-48) (SFadd prec emax x y).
Proof.
  assert (Hup : forall m e,
             SFleb (S754_finite false m e) (S754_finite false mant10 (-49))
             = true ->
             SFleb (S754_finite false m e) (S754_finite false mant10 (-48))
             = true).
  { intros m e. unfold SFleb, SFcompare.
    destruct (Z.compare_spec e (-49)); try discriminate;
      destruct (Z.compare_spec e (-48)); try reflexivity; lia. }
  intros [[s ->] | (mx & ex & -> & Hbx & Hlx)]
         [[t ->] | (my & ey & -> & Hby & Hly)] Hv.
  - left. destruct s, t; cbn; eexists; reflexivity.
  - right. exists my, ey. cbn [SFadd].
    split; [reflexivity|]. split; [exact Hby | now apply Hup].
  - right. exists mx, ex. cbn [SFadd].
    split; [reflexivity|]. split; [exact Hbx | now apply Hup].
  - assert (HB10 : bounded prec emax mant10 (-49) = true) by reflexivity.
    assert (HB20 : bounded prec emax mant10 (-48) = true) by reflexivity.
    pose proof (@SFleb_le _ _ _ _ Hbx HB10 Hlx) as Hvx.
    pose proof (@SFleb_le _ _ _ _ Hby HB10 Hly) as Hvy.
    destruct (@bounded_spec _ _ Hbx) as (_ & _ & Hminx & _).
    destruct (@bounded_spec _ _ Hby) as (_ & _ & Hminy & _).
    destruct (@SFadd_le mx ex my ey mant10 (-48) Hminx Hminy HB20)
      as [Hle H0].
    { replace (-48 - emin) with (1 + (-49 - emin)) by reflexivity.
      rewrite Z.pow_add_r by (cbv; discriminate).
      change (2 ^ 1) with 2.
      set (T := 2 ^ (-49 - emin)) in *. clearbody T. lia. }
    revert Hv Hle H0.
    destruct (SFadd prec emax (S754_finite false mx ex)
                    (S754_finite false my ey)) as [s | s | | s m e];
      intros Hv Hle H0; try discriminate.
    + left. now exists s.
    + destruct s; discriminate.
    + destruct s; [discriminate|]. right. exists m, e.
      split; [reflexivity|]. split; [exact Hv | exact Hle].
Qed.

Lemma within_half (x : spec_float) :
  within (-48) x ->
  within (-49) (SFdiv prec emax x (S754_finite false 4503599627370496 (-51)))
  \/ valid_binary
        (SFdiv prec emax x (S754_finite false 4503599627370496 (-51)))
      = false.
Proof.
  intros [[s ->] | (mx & ex & -> & Hbx & Hlx)].
  - left. left. cbn. eexists. reflexivity.
  - assert (HB10 : bounded prec emax mant10 (-49) = true) by reflexivity.
    assert (HB20 : bounded prec emax mant10 (-48) = true) by reflexivity.
    pose proof (@SFleb_le _ _ _ _ Hbx HB20 Hlx) as Hvx.
    destruct (@bounded_spec _ _ Hbx) as (_ & _ & Hminx & _).
    assert (Hle : SFleb (SFdiv prec emax (S754_finite false mx ex)
                           (S754_finite false 4503599627370496 (-51)))
                        (S754_finite false mant10 (-49)) = true).
    { apply SFdiv_le; [exact HB10|].
      set (c := Z.min (-49) (ex - -51)).
      change (Z.pos 4503599627370496) with (2 ^ 52).
      rewrite <- Z.mul_assoc, <- Z.pow_add_r by (unfold c; lia).
      change emin with (-1074) in *.
      apply (@scale_le (Z.pos mx) (Z.pos mant10) (ex - -1074) (-48 - -1074));
        first [unfold c; lia | exact Hvx]. }
    destruct (valid_binary
                (SFdiv prec emax (S754_finite false mx ex)
                       (S754_finite false 4503599627370496 (-51))))
      eqn:Hv; [left | now right].
    revert Hv Hle. cbn [SFdiv xorb].
    destruct (SFdiv_core_binary prec emax (Z.pos mx) ex
                (Z.pos 4503599627370496) (-51)) as [[mz ez] lz].
    intros Hv Hle.
    pose proof (@binary_round_aux_nonneg _ _ _ _ _ Hle) as H0.
    destruct (binary_round_aux prec emax false mz ez lz) as [s | s | | s m e];
      try discriminate.
    + left. now exists s.
    + destruct s; discriminate.
    + destruct s; [discriminate|]. right. exists m, e.
      split; [reflexivity|]. split; [exact Hv | exact Hle].
Qed.

Lemma midpoint_in_bracket (l u : float) :
  in_bracket l -> in_bracket u -> in_bracket ((l + u) / 2)%float.
Proof.
  intros Hl Hu. apply bracket_of_within.
  rewrite div_spec, add_spec.
  change (Prim2SF 2) with (S754_finite false 4503599627370496 (-51)).
  pose proof (Prim2SF_valid (l + u)%float) as Hvs.
  pose proof (Prim2SF_valid ((l + u) / 2)%float) as Hvd.
  rewrite add_spec in Hvs. rewrite div_spec, add_spec in Hvd.
  change (Prim2SF 2) with (S754_finite false 4503599627370496 (-51)) in Hvd.
  unfold SF64add, SF64div in *.
  destruct (within_half
              (within_add (within_of_bracket Hl) (within_of_bracket Hu) Hvs))
    as [Hin | Hbad]; [exact Hin | congruence].
Qed.

End Midpoint.

(** ** The bisection stays in its bracket, in binary64 *)

Section BisectionBinary64.

Variable fpow : float -> float -> float.
Variable G : Type.
Variable dist : nat -> G -> nat * G.
Hypothesis dist_in_range : in_range dist.

Variable trades : list float.
Variable N : Z.
Hypothesis trades_valid : valid_series trades.
Hypothesis N_valid : valid_path_length N.

Variables capital tail_percentile tolerance : float.
Variable n : Z.

(** The bounds and the fraction are doubles of [[0, 10]]. *)
Lemma in_bracket_body (st : bisection) (rng : G) (st' : bisection)
    (rng' : G) :
  in_bracket (lower_bound st) /\ in_bracket (upper_bound st)
  /\ in_bracket (fraction st) ->
  @bisection_body float (Binary64.binary64 fpow) G dist trades N capital
                  tail_percentile tolerance n st rng
  = Ret (st', rng') ->
  in_bracket (lower_bound st') /\ in_bracket (upper_bound st')
  /\ in_bracket (fraction st').
Proof.
  intros (Hl & Hu & Hf) Hrun. unfold bisection_body in Hrun.
  apply bind_inv in Hrun. destruct Hrun as (tail & rng1 & _ & Hret).
  unfold ret in Hret. injection Hret as <- _.
  pose proof (midpoint_in_bracket Hl Hu) as Hmid.
  unfold next_iteration.
  cbn [add div of_Z Binary64.binary64].
  change (Binary64.Z2float 2) with 2%float.
  repeat match goal with
    | |- context [if ?c then _ else _] => destruct c
    end;
    cbn [lower_bound upper_bound fraction];
    (split; [|split]); assumption.
Qed.

Lemma bisection_in_bracket (fuel : nat) (rng : G) :
  (1000 <= fuel)%nat ->
  exists st rng',
    @bisection_loop float (Binary64.binary64 fpow) G dist fuel trades N
                    capital tail_percentile tolerance n
                    (@bisection_init float (Binary64.binary64 fpow)) rng
    = Ret (st, rng')
    /\ in_bracket (fraction st)
    /\ bisection_cond st = false
    /\ (0 <= iteration st <= 1000)%Z.
Proof.
  intro Hfuel.
  destruct (@bisection_loop_terminates float (Binary64.binary64 fpow) G dist
              dist_in_range trades N trades_valid N_valid capital
              tail_percentile tolerance n
              (fun st => in_bracket (lower_bound st)
                         /\ in_bracket (upper_bound st)
                         /\ in_bracket (fraction st))
              (fun st rng st' rng' Hinv Hrun =>
                 @in_bracket_body st rng st' rng' Hinv Hrun)
              fuel (@bisection_init float (Binary64.binary64 fpow)) rng)
    as (st & rng' & Hrun & Hinv & Hcond & Hiter).
  { repeat split; reflexivity. }
  { unfold max_iterations, bisection_init. cbn [iteration]. lia. }
  exists st, rng'. unfold max_iterations, bisection_init in Hiter.
  cbn [iteration] in Hiter.
  split; [exact Hrun|]. split; [exact (proj2 (proj2 Hinv))|].
  split; [exact Hcond | lia].
Qed.

End BisectionBinary64.

(** ** The percentile is read inside the vector, in binary64 *)

Section PercentileBinary64.

Local Open Scope Z_scope.

(** A double that is not negative and at most a positive double is a zero
    or a finite positive double. *)
Lemma nonneg_le_cases (x : spec_float) (mB : positive) (eB : Z) :
  valid_binary x = true ->
  SFleb (S754_zero false) x = true ->
  SFleb x (S754_finite false mB eB) = true ->
  (exists s, x = S754_zero s)
  \/ exists m e, x = S754_finite false m e
                 /\ bounded prec emax m e = true
                 /\ SFleb (S754_finite false m e) (S754_finite false mB eB)
                    = true.
Proof.
  intros Hv H0 Hle. destruct x as [s | s | | s m e]; try discriminate.
  - left. now exists s.
  - destruct s; discriminate.
  - destruct s; [discriminate|]. right. now exists m, e.
Qed.

(** The double of an integer of [[0, 2 ^ 31]] lies in [[0, 2 ^ 31]]. *)
Lemma Z2float_le (z : Z) :
  0 <= z <= 2 ^ 31 ->
  (exists s, Prim2SF (Binary64.Z2float z) = S754_zero s)
  \/ exists m e, Prim2SF (Binary64.Z2float z) = S754_finite false m e
                 /\ bounded prec emax m e = true
                 /\ SFleb (S754_finite false m e)
                          (S754_finite false 4503599627370496 (-21))
                    = true.
Proof.
  intros [Hlo Hhi]. destruct z as [|p|p]; [| |lia].
  - left. exists false. reflexivity.
  - pose proof (Prim2SF_valid (Binary64.Z2float (Z.pos p))) as Hv.
    revert Hv. cbn [Binary64.Z2float].
    rewrite of_uint63_spec, Uint63.of_Z_spec.
    rewrite Z.mod_small by (change Uint63.wB with (2 ^ 63); lia).
    cbn [binary_normalize]. intro Hv.
    assert (Hle : SFleb (binary_round prec emax false p 0)
                        (S754_finite false 4503599627370496 (-21)) = true).
    { apply binary_round_le; [cbv; discriminate | reflexivity |].
      change (Z.pos 4503599627370496) with (2 ^ 52).
      rewrite <- Z.pow_add_r by (cbv; discriminate).
      change (52 + (-21 - emin)) with (31 + (0 - emin)).
      rewrite Z.pow_add_r by (cbv; discriminate).
      apply Z.mul_le_mono_nonneg_r; [cbv; discriminate | exact Hhi]. }
    apply (@nonneg_le_cases _ _ _ Hv); [|exact Hle].
    revert Hle. unfold binary_round.
    destruct (shl_align p 0 _) as [mz ez]. apply binary_round_aux_nonneg.
Qed.

(** The mantissa of a double of [[0, 2 ^ 31]] against its exponent. *)
Lemma mantissa_below_2_31 (m : positive) (e : Z) :
  bounded prec emax m e = true ->
  SFleb (S754_finite false m e) (S754_finite false 4503599627370496 (-21))
  = true ->
  e <= -21 /\ Z.pos m <= 2 ^ (31 - e).
Proof.
  intros Hb Hle.
  assert (He : e <= -21).
  { unfold SFleb, SFcompare in Hle.
    destruct (Z.compare_spec e (-21)); [lia | lia | discriminate]. }
  split; [exact He|].
  pose proof (@SFleb_le m e 4503599627370496 (-21) Hb eq_refl Hle) as Hval.
  destruct (@bounded_spec _ _ Hb) as (_ & _ & Hmin & _).
  change (Z.pos 4503599627370496) with (2 ^ 52) in Hval.
  rewrite <- Z.pow_add_r in Hval by (cbv; discriminate).
  change emin with (-1074) in *.
  change (52 + (-21 - -1074)) with (31 - -1074) in Hval.
  rewrite <- (Z.mul_1_r (Z.pos m)), <- (Z.mul_1_l (2 ^ (31 - e))).
  change 1 with (2 ^ 0) at 1.
  apply (@scale_le (Z.pos m) 1 (e - -1074) (31 - -1074)); try lia.
Qed.

Variable fpow : float -> float -> float.

Lemma cast_size_t_quarter (n : Z) :
  1 <= n <= INT_MAX ->
  exists c,
    @cast_size_t float (Binary64.binary64 fpow)
      (@ceil float (Binary64.binary64 fpow)
         (@mul float (Binary64.binary64 fpow)
            (@dec float (Binary64.binary64 fpow) 1 4)
            (@of_Z float (Binary64.binary64 fpow) n)))
    = Done c.
Proof.
  intros [Hlo Hhi]. unfold cast_size_t.
  cbn [trunc ceil mul of_Z Binary64.binary64].
  change (@dec float (Binary64.binary64 fpow) 1 4) with 0.25%float.
  set (x := PrimFloat.mul 0.25 (Binary64.Z2float n)).
  (* the product lies in [0, 2 ^ 31] *)
  assert (Hx : (exists s, Prim2SF x = S754_zero s)
               \/ exists m e, Prim2SF x = S754_finite false m e
                              /\ bounded prec emax m e = true
                              /\ SFleb (S754_finite false m e)
                                   (S754_finite false 4503599627370496 (-21))
                                 = true).
  { pose proof (Prim2SF_valid x) as Hv. revert Hv. unfold x.
    rewrite mul_spec. unfold SF64mul.
    change (Prim2SF 0.25) with (S754_finite false 4503599627370496 (-54)).
    destruct (@Z2float_le n) as [[s ->] | (m & e & -> & Hb & Hle)];
      [unfold INT_MAX in Hhi; lia | |].
    - intros _. left. cbn. eexists. reflexivity.
    - destruct (@mantissa_below_2_31 _ _ Hb Hle) as [He Hm].
      cbn [SFmul xorb]. intro Hv.
      assert (Hle' : SFleb
                (binary_round_aux prec emax false
                   (Z.pos (4503599627370496 * m)) (-54 + e) loc_Exact)
                (S754_finite false 4503599627370496 (-21)) = true).
      { apply binary_round_aux_le;
          [lia | reflexivity | cbv; discriminate | lia | | congruence].
        rewrite Pos2Z.inj_mul.
        apply Z.mul_le_mono_nonneg_l; [lia|].
        eapply Z.le_trans; [exact Hm|].
        apply Z.pow_le_mono_r; lia. }
      apply (@nonneg_le_cases _ _ _ Hv); [|exact Hle'].
      exact (@binary_round_aux_nonneg _ _ _ _ _ Hle'). }
  (* the ceiling is an integer of [0, 2 ^ 31] *)
  assert (Hceil : exists z, 0 <= z <= 2 ^ 31
                            /\ Binary64.float_ceil x = Binary64.Z2float z).
  { unfold Binary64.float_ceil.
    destruct Hx as [[s ->] | (m & e & -> & Hb & Hle)].
    - exists 0. split; [lia | reflexivity].
    - destruct (@mantissa_below_2_31 _ _ Hb Hle) as [He Hm].
      cbn [Binary64.SFceil].
      replace (0 <=? e) with false by (symmetry; apply Z.leb_gt; lia).
      eexists. split; [|reflexivity].
      pose proof (@pow2_pos (- e) ltac:(lia)) as Hd.
      assert (Hup : - 2 ^ 31 <= - Z.pos m / 2 ^ (- e)).
      { apply Z.div_le_lower_bound; [exact Hd|].
        replace (31 - e) with (- e + 31) in Hm by lia.
        rewrite Z.pow_add_r in Hm by lia. lia. }
      assert (Hdown : - Z.pos m / 2 ^ (- e) < 0)
        by (apply Z.div_lt_upper_bound; lia).
      change (Z.neg m) with (- Z.pos m). lia. }
  destruct Hceil as (z & Hz & ->).
  destruct (@Z2float_le z Hz) as [[s ->] | (m & e & -> & Hb & Hle)].
  - cbn [Binary64.SFtrunc]. eexists. reflexivity.
  - destruct (@mantissa_below_2_31 _ _ Hb Hle) as [He Hm].
    cbn [Binary64.SFtrunc].
    replace (0 <=? e) with false by (symmetry; apply Z.leb_gt; lia).
    pose proof (@pow2_pos (- e) ltac:(lia)) as Hd.
    rewrite Z.quot_div_nonneg by lia.
    assert (H0 : 0 <= Z.pos m / 2 ^ (- e)) by (apply Z.div_pos; lia).
    assert (H1 : Z.pos m / 2 ^ (- e) <= 2 ^ 31).
    { apply Z.div_le_upper_bound; [exact Hd|].
      replace (31 - e) with (- e + 31) in Hm by lia.
      rewrite Z.pow_add_r in Hm by lia. lia. }
    replace ((0 <=? Z.pos m / 2 ^ (- e))
             && (Z.pos m / 2 ^ (- e) <=? SIZE_MAX))%bool with true.
    + eexists. reflexivity.
    + symmetry. apply andb_true_intro.
      split; apply Z.leb_le; [exact H0|].
      unfold SIZE_MAX. change (2 ^ 31) with 2147483648 in H1. lia.
Qed.

(** [CAR25_of] reads inside every non-empty vector of at most [INT_MAX]
    values: the index is clamped to the last one. *)
Lemma CAR25_of_returns_binary64 (CAR_list : list float) :
  CAR_list <> [] -> size CAR_list <= INT_MAX ->
  exists CAR25,
    @CAR25_of float (Binary64.binary64 fpow) CAR_list = Done CAR25
    /\ In CAR25 CAR_list.
Proof.
  intros Hne Hmax.
  assert (Hn : 1 <= size CAR_list)
    by (unfold size; destruct CAR_list; [contradiction | simpl; lia]).
  unfold CAR25_of.
  assert (Hsize : size (@sort float (Binary64.binary64 fpow) CAR_list)
                  = size CAR_list)
    by (unfold size; now rewrite sort_length).
  rewrite Hsize.
  destruct (@cast_size_t_quarter (size CAR_list) (conj Hn Hmax)) as [c Hc].
  rewrite Hc.
  set (index := Z.min (size_t_wrap (c - 1))
                      (size_t_wrap (size CAR_list - 1))).
  assert (Hindex : 0 <= index < size CAR_list).
  { unfold index, size_t_wrap.
    pose proof (Z.mod_pos_bound (c - 1) (SIZE_MAX + 1) ltac:(cbv; reflexivity)).
    rewrite (Z.mod_small (size CAR_list - 1))
      by (unfold INT_MAX, SIZE_MAX in *; lia).
    lia. }
  unfold vec_get. unfold size in Hsize, Hindex.
  replace ((0 <=? index)
           && (index <? Z.of_nat
                          (length (@sort float (Binary64.binary64 fpow)
                                         CAR_list))))%bool with true.
  - destruct (nth_error (@sort float (Binary64.binary64 fpow) CAR_list)
                        (Z.to_nat index)) as [x|] eqn:Hnth.
    + exists x. split; [reflexivity|].
      apply nth_error_In in Hnth.
      eapply Permutation_in; [|exact Hnth].
      apply Permutation_sym, sort_permutation.
    + apply nth_error_None in Hnth. lia.
  - symmetry. apply andb_true_intro.
    split; [apply Z.leb_le | apply Z.ltb_lt]; lia.
Qed.

End PercentileBinary64.

(** ** What a repetition collects, selects and pushes *)

Section Collected.

Context {D : Type} `{Double D}.
Variable G : Type.
Variable dist : nat -> G -> nat * G.

Lemma back_last_default {A : Type} (l : list A) (d : A) :
  l <> [] -> back l = Some (last l d).
Proof.
  induction l as [|x l IH]; [contradiction|]. intros _.
  destruct l as [|y l]; [reflexivity|].
  change (back (x :: y :: l)) with (back (y :: l)).
  change (last (x :: y :: l) d) with (last (y :: l) d).
  apply IH. discriminate.
Qed.

(** The pairs that the repetitions push, in order. *)
Lemma repetitions_ran fuel trades days N capital tail_percentile tolerance n :
  forall reps safe_f_list CAR25_list rng safe_f_list' CAR25_list' rng',
    repetitions dist reps fuel trades days N capital tail_percentile
                tolerance n safe_f_list CAR25_list rng
    = Ret (safe_f_list', CAR25_list', rng') ->
    exists results,
      ran dist fuel trades days N capital tail_percentile tolerance n rng
          results rng'
      /\ length results = reps
      /\ safe_f_list' = safe_f_list ++ map fst results
      /\ CAR25_list' = CAR25_list ++ map snd results.
Proof.
  induction reps as [|reps IH]; intros fs cs rng fs' cs' rng' Hrun.
  - injection Hrun as <- <- <-. exists [].
    split; [constructor|]. split; [reflexivity|].
    cbn [map]. now rewrite !app_nil_r.
  - cbn [repetitions] in Hrun.
    apply bind_inv in Hrun. destruct Hrun as ([f c] & rng1 & Hrep & Hrun).
    apply IH in Hrun.
    destruct Hrun as (results & Hran & Hlen & Hfs & Hcs).
    exists ((f, c) :: results).
    split; [econstructor; eassumption|].
    split; [cbn [length]; now rewrite Hlen|].
    cbn [map fst snd]. rewrite Hfs, Hcs, <- !app_assoc. split; reflexivity.
Qed.

(** What [risk_normalization] returns and prints, from the pairs of its
    repetitions. *)
Lemma risk_normalization_ran fuel trades days N capital tail_percentile
    tolerance n reps rng stats rng' :
  risk_normalization dist fuel trades days N capital tail_percentile
                     tolerance n reps rng
  = Ret (stats, rng') ->
  exists results,
    ran dist fuel trades days N capital tail_percentile tolerance n rng
        results rng'
    /\ length results = Z.to_nat reps
    /\ printed stats = map snd results
    /\ CAR25_mean stats = computeMean (map snd results)
    /\ CAR25_stdev stats
       = computeStdDev (map snd results) (computeMean (map snd results))
    /\ safe_f_mean stats = computeMean (map fst results)
    /\ safe_f_stdev stats
       = computeStdDev (map fst results) (computeMean (map fst results)).
Proof.
  unfold risk_normalization. intro Hrun.
  apply bind_inv in Hrun. destruct Hrun as ([fs cs] & rng1 & Hreps & Hret).
  apply repetitions_ran in Hreps.
  destruct Hreps as (results & Hran & Hlen & Hfs & Hcs).
  cbn [app] in Hfs, Hcs. subst fs cs.
  unfold computeStatistics, ret in Hret. injection Hret as <- <-.
  exists results. cbn [printed CAR25_mean CAR25_stdev safe_f_mean safe_f_stdev].
  repeat (split; [first [exact Hran | exact Hlen | reflexivity]|]).
  reflexivity.
Qed.

Hypothesis dist_in_range : in_range dist.

Variable trades : list D.
Variable N : Z.
Hypothesis trades_valid : valid_series trades.
Hypothesis N_valid : valid_path_length N.

(** The loop over the curves collects the CAGR of each curve, in order,
    and draws [number_trades_in_forecast] trades for each. *)
Lemma CAR_loop_collected (fraction capital : D) (days : Z) :
  forall n CAR_list rng,
    CAR_loop dist n trades fraction days N capital CAR_list rng
    = Ret (CAR_list ++ collected dist trades fraction days N capital n rng,
           advance dist (length trades - 1) (n * Z.to_nat N) rng).
Proof.
  induction n as [|n IH]; intros CAR_list rng.
  - cbn [CAR_loop collected Nat.mul advance]. now rewrite app_nil_r.
  - cbn [CAR_loop collected].
    destruct (make_one_equity_sequence_path dist_in_range fraction capital
                rng trades_valid N_valid) as (dd & _ & Hrun).
    erewrite bind_ret by exact Hrun. cbv beta iota.
    set (curve := path trades fraction capital
                       (draws dist (length trades - 1) (Z.to_nat N) rng)).
    assert (Hne : curve <> []).
    { intro Hnil.
      pose proof (path_length trades fraction capital
                    (draws dist (length trades - 1) (Z.to_nat N) rng))
        as Hlen.
      fold curve in Hlen. rewrite Hnil in Hlen. discriminate. }
    unfold bind at 1. unfold defined at 1.
    rewrite (back_last_default capital Hne).
    rewrite IH, <- app_assoc. cbn [app].
    replace (S n * Z.to_nat N)%nat with (Z.to_nat N + n * Z.to_nat N)%nat
      by lia.
    now rewrite advance_add.
Qed.

(** A repetition records the fraction that the bisection leaves, and
    pushes the value that [CAR25_of] selects from the values collected at
    that fraction, from the generator state that the bisection leaves. *)
Lemma repetition_collected (capital tail_percentile tolerance : D)
    (days n : Z) (fuel : nat) (rng : G) :
  (1000 <= fuel)%nat ->
  exists st rng1,
    bisection_loop dist fuel trades N capital tail_percentile tolerance n
                   bisection_init rng
    = Ret (st, rng1)
    /\ repetition dist fuel trades days N capital tail_percentile tolerance
                  n rng
       = match CAR25_of (collected dist trades (fraction st) days N capital
                                   (Z.to_nat n) rng1) with
         | Done CAR25 =>
             Ret (fraction st, CAR25,
                  advance dist (length trades - 1)
                          (Z.to_nat n * Z.to_nat N) rng1)
         | Fault f => Stop f
         end.
Proof.
  intro Hfuel.
  destruct (@bisection_loop_terminates D _ G dist dist_in_range trades N
              trades_valid N_valid capital tail_percentile tolerance n
              (fun _ => True) (fun _ _ _ _ _ _ => I) fuel bisection_init rng I)
    as (st & rng1 & Hrun & _).
  { unfold max_iterations, bisection_init. cbn [iteration]. lia. }
  exists st, rng1. split; [exact Hrun|].
  unfold repetition. erewrite bind_ret by exact Hrun.
  erewrite bind_ret by apply CAR_loop_collected.
  cbn [app]. unfold bind, lift, ret.
  destruct (CAR25_of _); reflexivity.
Qed.

End Collected.

(** ** The repetitions return, in binary64 *)

Section RepetitionBinary64.

Variable fpow : float -> float -> float.
Variable G : Type.
Variable dist : nat -> G -> nat * G.
Hypothesis dist_in_range : in_range dist.

Variable trades : list float.
Variable N : Z.
Hypothesis trades_valid : valid_series trades.
Hypothesis N_valid : valid_path_length N.

Variables capital tail_percentile tolerance : float.
Variables n days : Z.
Hypothesis n_valid : (0 < n <= INT_MAX)%Z.

Lemma repetition_in_bracket (fuel : nat) (rng : G) :
  (1000 <= fuel)%nat ->
  exists safe_f CAR25 rng',
    @repetition float (Binary64.binary64 fpow) G dist fuel trades days N
                capital tail_percentile tolerance n rng
    = Ret (safe_f, CAR25, rng')
    /\ in_bracket safe_f.
Proof.
  intro Hfuel. unfold repetition.
  destruct (@bisection_in_bracket fpow G dist dist_in_range trades N
              trades_valid N_valid capital tail_percentile tolerance n fuel
              rng Hfuel)
    as (st & rng1 & Hrun & Hin & _).
  erewrite bind_ret by exact Hrun.
  destruct (@CAR_loop_returns float (Binary64.binary64 fpow) G dist
              dist_in_range trades N trades_valid N_valid (fraction st) days
              capital (Z.to_nat n) [] rng1)
    as (CAR_list & rng2 & Hloop).
  erewrite bind_ret by exact Hloop.
  apply CAR_loop_length in Hloop. cbn [length] in Hloop.
  destruct (@CAR25_of_returns_binary64 fpow CAR_list) as (CAR25 & Hperc & _).
  { destruct CAR_list; [simpl in Hloop; lia | discriminate]. }
  { unfold size. rewrite Hloop. lia. }
  exists (fraction st), CAR25, rng2. split; [|exact Hin].
  unfold bind, lift. rewrite Hperc. reflexivity.
Qed.

Lemma repetitions_in_bracket (fuel : nat) :
  (1000 <= fuel)%nat ->
  forall reps safe_f_list CAR25_list rng,
    Forall in_bracket safe_f_list ->
    exists safe_f_list' CAR25_list' rng',
      @repetitions float (Binary64.binary64 fpow) G dist reps fuel trades
                   days N capital tail_percentile tolerance n safe_f_list
                   CAR25_list rng
      = Ret (safe_f_list', CAR25_list', rng')
      /\ length safe_f_list' = (length safe_f_list + reps)%nat
      /\ length CAR25_list' = (length CAR25_list + reps)%nat
      /\ Forall in_bracket safe_f_list'.
Proof.
  intros Hfuel reps. induction reps as [|reps IH]; intros fs cs rng Hfs.
  - exists fs, cs, rng.
    split; [reflexivity|]. split; [lia|]. split; [lia | exact Hfs].
  - cbn [repetitions].
    destruct (repetition_in_bracket rng Hfuel) as (f & c & rng1 & Hrun & Hf).
    erewrite bind_ret by exact Hrun.
    destruct (IH (fs ++ [f]) (cs ++ [c]) rng1)
      as (fs' & cs' & rng' & Hloop & Hlf & Hlc & Hall).
    { apply Forall_app. split; [exact Hfs | now constructor]. }
    exists fs', cs', rng'. rewrite length_app in Hlf, Hlc.
    cbn [length] in Hlf, Hlc.
    split; [exact Hloop|]. split; [lia|]. split; [lia | exact Hall].
Qed.

End RepetitionBinary64.

(** ** The order of doubles *)

Section Order.

Local Open Scope Z_scope.

Ltac order_cases :=
  unfold SFleb, SFltb, SFcompare;
  repeat match goal with
    | |- context [Z.compare ?a ?b] => destruct (Z.compare_spec a b)
    end;
  repeat match goal with
    | |- context [Pos.compare_cont Eq ?a ?b] =>
        change (Pos.compare_cont Eq a b) with (Pos.compare a b);
        destruct (Pos.compare_spec a b)
    end;
  cbn [CompOpp]; intros;
  first [reflexivity | discriminate | lia].

Lemma SFleb_ltb_trans (x y z : spec_float) :
  SFleb x y = true -> SFltb y z = true -> SFleb x z = true.
Proof.
  destruct x as [sx | sx | | sx mx ex]; try discriminate;
    destruct y as [sy | sy | | sy my ey]; try discriminate;
    destruct z as [sz | sz | | sz mz ez]; try discriminate;
    try destruct sx; try destruct sy; try destruct sz;
    try discriminate; try reflexivity; order_cases.
Qed.

Lemma SFleb_trans (x y z : spec_float) :
  SFleb x y = true -> SFleb y z = true -> SFleb x z = true.
Proof.
  destruct x as [sx | sx | | sx mx ex]; try discriminate;
    destruct y as [sy | sy | | sy my ey]; try discriminate;
    destruct z as [sz | sz | | sz mz ez]; try discriminate;
    try destruct sx; try destruct sy; try destruct sz;
    try discriminate; try reflexivity; order_cases.
Qed.

Lemma SFleb_refl (x : spec_float) : x <> S754_nan -> SFleb x x = true.
Proof.
  destruct x as [s | s | | s m e]; try destruct s; try reflexivity;
    try contradiction; intros _; unfold SFleb, SFcompare;
    rewrite Z.compare_refl, Pos.compare_cont_refl; reflexivity.
Qed.

(** Of two positive finite doubles, the one that is not below the other
    is at least the other. *)
Lemma SFltb_false_leb (mx : positive) (ex : Z) (my : positive) (ey : Z) :
  SFltb (S754_finite false mx ex) (S754_finite false my ey) = false ->
  SFleb (S754_finite false my ey) (S754_finite false mx ex) = true.
Proof. order_cases. Qed.

End Order.

(** ** The drawdown of a curve that never goes below zero, in binary64 *)

Section DeclineBinary64.

Local Open Scope Z_scope.

(** The decline [(peak - equity) / peak] from a positive peak that the
    equity does not exceed, to an equity that is not negative, is at most
    [1] or is not a number. *)
Lemma decline_at_most_one (P E : spec_float) :
  valid_binary P = true -> valid_binary E = true ->
  valid_binary (SFsub prec emax P E) = true ->
  SFltb (S754_zero false) P = true ->
  SFltb E (S754_zero false) = false ->
  SFltb P E = false ->
  SFleb (SFdiv prec emax (SFsub prec emax P E) P) SFone = true
  \/ SFdiv prec emax (SFsub prec emax P E) P = S754_nan.
Proof.
  intros HvP HvE HvD HP HE HPE.
  destruct P as [sp | sp | | sp mp ep]; try discriminate;
    destruct sp; try discriminate.
  - (* the peak is infinite *)
    right. destruct E as [se | se | | se me ee]; try reflexivity.
    destruct se; [discriminate | reflexivity].
  - destruct E as [se | se | | se me ee].
    + (* the equity is zero *)
      left. cbn [SFsub]. apply SFdiv_le; [reflexivity|].
      rewrite Z.sub_diag. change (Z.min (-52) 0) with (-52).
      change (2 ^ (-52 - -52)) with 1. change (2 ^ (0 - -52)) with (2 ^ 52).
      change (Z.pos 4503599627370496) with (2 ^ 52). lia.
    + destruct se; discriminate.
    + right. reflexivity.
    + destruct se; [discriminate|].
      pose proof (SFltb_false_leb _ _ _ _ HPE) as Hle.
      pose proof (@SFleb_le _ _ _ _ HvE HvP Hle) as Hval.
      destruct (@bounded_spec _ _ HvP) as (_ & _ & Hminp & _).
      destruct (@bounded_spec _ _ HvE) as (_ & _ & Hmine & _).
      destruct (@SFsub_le mp ep me ee mp ep Hminp Hmine HvP Hval)
        as [HD HD0].
      { assert (0 < Z.pos me * 2 ^ (ee - emin))
          by (apply Z.mul_pos_pos; [lia | apply Z.pow_pos_nonneg; lia]).
        lia. }
      destruct (@nonneg_le_cases _ _ _ HvD HD0 HD)
        as [[s ->] | (md & ed & -> & Hbd & Hled)].
      * left. destruct s; reflexivity.
      * left. apply SFdiv_le; [reflexivity|].
        pose proof (@SFleb_le _ _ _ _ Hbd HvP Hled) as Hvd.
        destruct (@bounded_spec _ _ Hbd) as (_ & _ & Hmind & _).
        set (c := Z.min (-52) (ed - ep)).
        change (Z.pos 4503599627370496) with (2 ^ 52).
        rewrite <- Z.pow_add_r by (unfold c; lia).
        rewrite (Z.mul_comm (2 ^ _) (Z.pos mp)).
        apply (@scale_le (Z.pos md) (Z.pos mp) (ed - emin) (ep - emin));
          first [unfold c; lia | exact Hvd].
Qed.

Variable fpow : float -> float -> float.
Local Abbreviation b64 := (Binary64.binary64 fpow).

(** One step of the loop keeps the running maximum at most [1] when the
    equity is not below zero. *)
Lemma drawdown_step_at_most_one (peak m e : float) :
  Binary64.positive peak ->
  PrimFloat.leb m 1 = true -> PrimFloat.ltb e 0 = false ->
  PrimFloat.leb (snd (@drawdown_step float b64 (peak, m) e)) 1 = true.
Proof.
  unfold Binary64.positive. intros Hpeak Hm He.
  unfold drawdown_step. cbn [ltb sub div Binary64.binary64 fst snd].
  set (peak' := if PrimFloat.ltb peak e then e else peak).
  assert (Hpos : PrimFloat.ltb 0 peak' = true).
  { unfold peak'. destruct (PrimFloat.ltb peak e) eqn:Hlt; [|exact Hpeak].
    rewrite ltb_spec in *. eapply SFltb_above_positive; eassumption. }
  assert (Hnot : PrimFloat.ltb peak' e = false).
  { unfold peak'. destruct (PrimFloat.ltb peak e) eqn:Hlt; [|exact Hlt].
    rewrite ltb_spec. apply SFltb_irrefl. }
  match goal with |- context [if ?c then _ else _] => destruct c eqn:Hlt end;
    [|exact Hm].
  rewrite leb_spec. rewrite ltb_spec in Hlt, Hpos, Hnot, He.
  rewrite div_spec, sub_spec in *.
  pose proof (Prim2SF_valid (peak' - e)%float) as HvD.
  rewrite sub_spec in HvD. unfold SF64sub, SF64div in *.
  change (Prim2SF 0) with (S754_zero false) in *.
  destruct (@decline_at_most_one (Prim2SF peak') (Prim2SF e)
              (Prim2SF_valid peak') (Prim2SF_valid e) HvD Hpos He Hnot)
    as [Hle | Hnan]; [exact Hle|].
  rewrite Hnan in Hlt. destruct (Prim2SF m) as [s | s | |]; try destruct s;
    discriminate.
Qed.

Lemma drawdown_states_at_most_one (curve : list float) (peak m : float) :
  Binary64.positive peak -> Binary64.nonnegative m ->
  PrimFloat.leb m 1 = true ->
  Forall (fun e => PrimFloat.ltb e 0 = false) curve ->
  Forall (fun st => PrimFloat.leb (snd st) 1 = true)
         (@drawdown_states float b64 (peak, m) curve).
Proof.
  intros Hpeak Hm Hone Hcurve. revert peak m Hpeak Hm Hone.
  induction Hcurve as [|e rest He Hrest IH]; intros peak m Hpeak Hm Hone;
    [constructor|].
  cbn [drawdown_states].
  pose proof (@drawdown_step_at_most_one peak m e Hpeak Hone He) as Hone'.
  destruct (@drawdown_step_signs fpow peak m e Hpeak Hm) as [Hp' Hm'].
  constructor; [exact Hone'|].
  destruct (@drawdown_step float b64 (peak, m) e) as [peak' m'].
  now apply IH.
Qed.

(** Every peak of the loop is at least the value the loop starts from. *)
Lemma drawdown_states_above (curve : list float) (e0 peak m : float) :
  PrimFloat.leb e0 peak = true ->
  Forall (fun st => PrimFloat.leb e0 (fst st) = true)
         (@drawdown_states float b64 (peak, m) curve).
Proof.
  revert peak m. induction curve as [|e rest IH]; intros peak m Hle;
    [constructor|].
  cbn [drawdown_states].
  assert (Hle' : PrimFloat.leb e0 (fst (@drawdown_step float b64 (peak, m) e))
                 = true).
  { unfold drawdown_step. cbn [ltb sub div Binary64.binary64 fst].
    destruct (PrimFloat.ltb peak e) eqn:Hlt; [|exact Hle].
    rewrite leb_spec in *. rewrite ltb_spec in Hlt.
    eapply SFleb_ltb_trans; eassumption. }
  constructor; [exact Hle'|].
  destruct (@drawdown_step float b64 (peak, m) e) as [peak' m'].
  now apply IH.
Qed.

Lemma positive_leb_refl (x : float) :
  Binary64.positive x -> PrimFloat.leb x x = true.
Proof.
  unfold Binary64.positive. rewrite ltb_spec, leb_spec. intro Hpos.
  apply SFleb_refl. intro Hnan. rewrite Hnan in Hpos. discriminate.
Qed.

(** On a curve that starts from a positive value every peak the loop
    divides by is at least that value, and the drawdown is at most [1]
    when no value of the curve is below zero. *)
Lemma calculateDrawdown_bounds (e0 : float) (rest : list float) :
  Binary64.positive e0 ->
  Forall (fun peak => PrimFloat.leb e0 peak = true)
         (@divisors float b64 (e0 :: rest))
  /\ (Forall (fun e => PrimFloat.ltb e 0 = false) (e0 :: rest) ->
      exists dd, @calculateDrawdown float b64 (e0 :: rest) = Done dd
                 /\ PrimFloat.leb dd 1 = true).
Proof.
  intro He0. split.
  - unfold divisors. apply Forall_map.
    apply drawdown_states_above. now apply positive_leb_refl.
  - intro Hcurve. eexists. split; [reflexivity|].
    rewrite fold_drawdown_states.
    assert (Hzero : Binary64.nonnegative (@of_Z float b64 0)) by reflexivity.
    assert (Hone : PrimFloat.leb (@of_Z float b64 0) 1 = true) by reflexivity.
    pose proof (@drawdown_states_at_most_one (e0 :: rest) e0 (@of_Z float b64 0)
                  He0 Hzero Hone Hcurve) as Hall.
    set (states := drawdown_states _ _) in *.
    destruct (@exists_last _ states) as (l & st & Heq);
      [unfold states; discriminate|].
    rewrite Heq in *. rewrite last_last.
    apply Forall_app in Hall. destruct Hall as [_ Hst]. now inversion Hst.
Qed.

Variable G : Type.
Variable dist : nat -> G -> nat * G.
Hypothesis dist_in_range : in_range dist.

Lemma simulated_drawdown_binary64 (trades : list float) (fraction : float)
    (N : Z) (capital : float) (rng : G) :
  valid_series trades -> valid_path_length N -> Binary64.positive capital ->
  exists curve dd rng',
    @make_one_equity_sequence float b64 G dist trades fraction N capital rng
    = Ret (curve, dd, rng')
    /\ Binary64.nonnegative dd
    /\ Forall Binary64.positive (@divisors float b64 curve)
    /\ Forall (fun peak => PrimFloat.leb capital peak = true)
              (@divisors float b64 curve)
    /\ (Forall (fun e => PrimFloat.ltb e 0 = false) curve ->
        PrimFloat.leb dd 1 = true).
Proof.
  intros Hseries HN Hcap.
  destruct (@make_one_equity_sequence_spec float b64 G dist dist_in_range
              trades fraction N capital rng Hseries HN)
    as (curve & dd & rng' & Hrun & _ & Hfirst & Hdd & _).
  exists curve, dd, rng'. split; [exact Hrun|].
  destruct curve as [|e0 rest]; [discriminate|].
  injection Hfirst as ->.
  destruct (@calculateDrawdown_signs fpow capital rest Hcap)
    as (Hdiv & dd' & Hdd' & Hnonneg).
  rewrite Hdd in Hdd'. injection Hdd' as <-.
  destruct (@calculateDrawdown_bounds capital rest Hcap) as [Habove Hone].
  split; [exact Hnonneg|]. split; [exact Hdiv|]. split; [exact Habove|].
  intro Hcurve. destruct (Hone Hcurve) as (dd' & Hdd' & Hle).
  rewrite Hdd in Hdd'. now injection Hdd' as <-.
Qed.

End DeclineBinary64.

(** ** The drawdown of a curve that never goes below zero, in exact
       arithmetic *)

Section DeclineReal.

Import RealArith.
Local Open Scope R_scope.

Lemma fold_right_Rmax_le (l : list R) (m b : R) :
  m <= b -> Forall (fun d => d <= b) l -> fold_right Rmax m l <= b.
Proof.
  intros Hm Hl. induction Hl as [|d l Hd Hl IH]; [exact Hm|].
  cbn [fold_right]. apply Rmax_lub; assumption.
Qed.

Lemma declines_at_most_one (curve : list R) (peak : R) :
  0 < peak -> Forall (fun e => 0 <= e) curve ->
  Forall (fun d => d <= 1) (Spec.declines_from peak curve).
Proof.
  intros Hpeak Hcurve. revert peak Hpeak.
  induction Hcurve as [|e curve He Hcurve IH]; intros peak Hpeak; [constructor|].
  unfold Spec.declines_from. cbn [Spec.running_peaks combine map fst snd].
  assert (Hmax : 0 < Rmax peak e)
    by (eapply Rlt_le_trans; [exact Hpeak | apply Rmax_l]).
  constructor; [|apply IH; exact Hmax].
  apply Rmult_le_reg_r with (r := Rmax peak e); [exact Hmax|].
  unfold Rdiv. rewrite Rmult_assoc, Rinv_l by lra. lra.
Qed.

Lemma calculateDrawdown_at_most_one (e0 : R) (rest : list R) (dd : R) :
  0 < e0 -> Forall (fun e => 0 <= e) (e0 :: rest) ->
  calculateDrawdown (e0 :: rest) = Done dd -> dd <= 1.
Proof.
  intros He0 Hcurve. rewrite calculateDrawdown_declines. intro Hdd.
  assert (Heq : dd = fold_right Rmax 0 (Spec.declines_from e0 (e0 :: rest)))
    by congruence.
  rewrite Heq. apply fold_right_Rmax_le; [lra|].
  now apply declines_at_most_one.
Qed.

Variable G : Type.
Variable dist : nat -> G -> nat * G.
Hypothesis dist_in_range : in_range dist.

Lemma simulated_drawdown_real (trades : list R) (fraction : R) (N : Z)
    (capital : R) (rng : G) :
  valid_series trades -> valid_path_length N -> 0 < capital ->
  exists curve dd rng',
    make_one_equity_sequence dist trades fraction N capital rng
    = Ret (curve, dd, rng')
    /\ 0 <= dd
    /\ Forall (fun peak => 0 < peak) (divisors curve)
    /\ Forall (fun peak => capital <= peak) (divisors curve)
    /\ (Forall (fun e => 0 <= e) curve -> dd <= 1).
Proof.
  intros Hseries HN Hcap.
  destruct (@simulated_drawdown_range G dist dist_in_range trades fraction N
              capital rng Hseries HN Hcap)
    as (curve & dd & rng' & Hrun & Hdd0 & Hdiv & _).
  destruct (make_one_equity_sequence_spec dist_in_range fraction capital rng
              Hseries HN)
    as (curve2 & dd2 & rng2 & Hrun2 & _ & Hfirst & Hdd & _).
  rewrite Hrun in Hrun2. injection Hrun2 as <- <- <-.
  exists curve, dd, rng'. split; [exact Hrun|].
  split; [exact Hdd0|]. split; [exact Hdiv|].
  destruct curve as [|e0 rest]; [discriminate|].
  injection Hfirst as ->.
  split; [apply divisors_ge_first|].
  intro Hcurve. exact (calculateDrawdown_at_most_one Hcap Hcurve Hdd).
Qed.

End DeclineReal.

(** The series [[-1]] at fraction [1] takes the equity from [100] to [0]:
    the drawdown of that curve is [1]. *)
Lemma equity_to_zero_real :
  exists curve dd rng',
    make_one_equity_sequence Lcg.dist [-1]%R 1%R 1 100%R 42%Z
    = Ret (curve, dd, rng')
    /\ curve = [100; 0]%R /\ dd = 1%R.
Proof.
  assert (Hseries : valid_series [-1]%R)
    by (split; [discriminate | vm_compute; discriminate]).
  assert (HN : valid_path_length 1) by (unfold valid_path_length, INT_MAX; lia).
  destruct (make_one_equity_sequence_spec Lcg_in_range 1%R 100%R 42%Z Hseries HN)
    as (curve & dd & rng' & Hrun & Hlen & Hfirst & Hdd & Hsteps).
  exists curve, dd, rng'. split; [exact Hrun|].
  destruct (Hsteps O) as (idx & r & prev & _ & Hidx & Hr & Hprev & Hnext);
    [simpl; lia|].
  destruct idx as [|idx]; [|simpl in Hidx; lia].
  injection Hr as <-. rewrite Hfirst in Hprev. injection Hprev as <-.
  destruct curve as [|c0 [|c1 [|c2 rest]]]; try discriminate Hlen.
  injection Hfirst as ->. cbn [nth_error] in Hnext. injection Hnext as ->.
  cbn [add mul RealArith.real] in *.
  replace (100 + -1 * 1 * 100)%R with 0%R in * by lra.
  rewrite calculateDrawdown_declines in Hdd.
  unfold Spec.declines_from in Hdd.
  cbn [Spec.running_peaks combine map fold_right fst snd] in Hdd.
  assert (Hone : dd = 1%R).
  { injection Hdd as <-. decide_maxima.
    replace ((100 - 100) / 100)%R with 0%R by lra.
    replace ((100 - 0) / 100)%R with 1%R by lra.
    decide_maxima. reflexivity. }
  split; [reflexivity | exact Hone].
Qed.

(** ** Doubles that are computed without rounding *)

Section Exact.

Local Open Scope Z_scope.

Lemma pow2_lt_inv (a b : Z) : 0 <= a -> 0 <= b -> 2 ^ a < 2 ^ b -> a < b.
Proof.
  intros Ha Hb Hlt. destruct (Z.lt_ge_cases a b) as [|Hge]; [assumption|].
  pose proof (Z.pow_le_mono_r 2 b a ltac:(lia) Hge). lia.
Qed.

(** Shifting a mantissa to the left adds to its number of digits. *)
Lemma digits2_pos_scaled (m mk : positive) (k : Z) :
  0 <= k -> Z.pos mk = Z.pos m * 2 ^ k ->
  Z.pos (digits2_pos mk) = Z.pos (digits2_pos m) + k.
Proof.
  intros Hk Hmk.
  pose proof (digits2_pos_bounds m) as [Hlo Hhi].
  pose proof (digits2_pos_bounds mk) as [Hlok Hhik].
  rewrite Hmk in Hlok, Hhik.
  set (d := Z.pos (digits2_pos m)) in *.
  set (dk := Z.pos (digits2_pos mk)) in *.
  assert (Hd : 1 <= d) by (unfold d; lia).
  assert (Hdk : 1 <= dk) by (unfold dk; lia).
  pose proof (@pow2_pos k Hk) as Hpk.
  assert (H1 : 2 ^ (dk - 1) < 2 ^ (d + k)).
  { rewrite (Z.pow_add_r 2 d k) by lia.
    eapply Z.le_lt_trans; [exact Hlok|].
    apply Z.mul_lt_mono_pos_r; assumption. }
  assert (H2 : 2 ^ (d - 1 + k) < 2 ^ dk).
  { rewrite (Z.pow_add_r 2 (d - 1) k) by lia.
    eapply Z.le_lt_trans; [|exact Hhik].
    apply Z.mul_le_mono_nonneg_r; [lia | exact Hlo]. }
  apply pow2_lt_inv in H1; [|lia|lia].
  apply pow2_lt_inv in H2; [|lia|lia].
  lia.
Qed.

(** A mantissa of a double, shifted to the left, rounds to that double. *)
Lemma binary_round_aux_exact (m : positive) (e k : Z) :
  bounded prec emax m e = true -> 0 <= k ->
  binary_round_aux prec emax false (Z.pos m * 2 ^ k) (e - k) loc_Exact
  = S754_finite false m e.
Proof.
  intros Hb Hk.
  destruct (@bounded_spec _ _ Hb) as (Hfexp & Hmax & Hmin & _).
  pose proof (@pow2_pos k Hk) as Hpk.
  destruct (Z.pos m * 2 ^ k) as [|mk|mk] eqn:Hmk; [lia| |lia].
  pose proof (@digits2_pos_scaled m mk k Hk (eq_sym Hmk)) as Hdig.
  unfold binary_round_aux, shr_fexp.
  change (Zdigits2 (Z.pos mk)) with (Z.pos (digits2_pos mk)).
  rewrite Hdig.
  replace (Z.pos (digits2_pos m) + k + (e - k))
    with (Z.pos (digits2_pos m) + e) by lia.
  rewrite Hfexp. replace (e - (e - k)) with k by lia.
  assert (Hshr : exists mrs,
             shr (shr_record_of_loc (Z.pos mk) loc_Exact) (e - k) k
             = (mrs, e)
             /\ shr_m mrs = Z.pos m
             /\ loc_of_shr_record mrs = loc_Exact).
  { destruct k as [|p|p]; [| |lia].
    - eexists. cbn [shr]. rewrite Z.sub_0_r. split; [reflexivity|].
      cbn [shr_record_of_loc shr_m]. split; [|reflexivity].
      rewrite <- Hmk. change (2 ^ 0) with 1. lia.
    - eexists. cbn [shr]. replace (e - Z.pos p + Z.pos p) with e by lia.
      split; [reflexivity|]. split.
      + rewrite iter_shr_m by (cbn; lia).
        cbn [shr_record_of_loc shr_m]. rewrite <- Hmk.
        apply Z.div_mul. lia.
      + destruct (@iter_shr_exact p (shr_record_of_loc (Z.pos mk) loc_Exact)
                    (Z.pos m)) as [Hr Hs];
          [reflexivity | reflexivity
           | cbn [shr_record_of_loc shr_m]; rewrite <- Hmk; lia | lia |].
        now apply loc_exact_record. }
  destruct Hshr as (mrs & -> & -> & ->).
  rewrite round_nearest_even_exact.
  change (Zdigits2 (Z.pos m)) with (Z.pos (digits2_pos m)).
  rewrite Hfexp, Z.sub_diag. cbn [shr shr_record_of_loc shr_m].
  replace (e <=? emax - prec) with true by (symmetry; apply Z.leb_le; lia).
  reflexivity.
Qed.

(** The double of a positive integer below [2 ^ 53] is that integer. *)
Lemma Z2float_exact (z : Z) :
  0 < z < 2 ^ 53 ->
  exists m e,
    Prim2SF (Binary64.Z2float z) = S754_finite false m e
    /\ bounded prec emax m e = true
    /\ -52 <= e <= 0
    /\ Z.pos m = z * 2 ^ (- e).
Proof.
  intros [Hlo Hhi]. destruct z as [|p|p]; [lia| |lia].
  cbn [Binary64.Z2float].
  rewrite of_uint63_spec, Uint63.of_Z_spec.
  rewrite Z.mod_small by (change Uint63.wB with (2 ^ 63); lia).
  cbn [binary_normalize]. unfold binary_round.
  pose proof (digits2_pos_bounds p) as [Hdlo Hdhi].
  set (d := Z.pos (digits2_pos p)) in *.
  assert (Hd : 1 <= d <= 53).
  { split; [unfold d; lia|].
    assert (2 ^ (d - 1) < 2 ^ 53) by lia.
    apply pow2_lt_inv in H; lia. }
  assert (Hfexp : fexp prec emax (d + 0) = d - 53).
  { unfold fexp, SpecFloat.emin, prec, emax. lia. }
  rewrite Hfexp.
  pose proof (shl_align_spec p 0 (d - 53)) as [Hsnd Hfst].
  rewrite Hsnd in Hfst. replace (Z.min 0 (d - 53)) with (d - 53) in * by lia.
  destruct (shl_align p 0 (d - 53)) as [mz ez]. cbn [fst snd] in Hsnd, Hfst.
  subst ez.
  assert (Hdz : Z.pos (digits2_pos mz) = 53).
  { rewrite (@digits2_pos_scaled p mz (0 - (d - 53)) ltac:(lia) Hfst).
    fold d. lia. }
  assert (Hb : bounded prec emax mz (d - 53) = true).
  { unfold bounded, canonical_mantissa. rewrite Hdz.
    apply andb_true_intro. split.
    - apply Z.eqb_eq. unfold fexp, SpecFloat.emin, prec, emax. lia.
    - apply Z.leb_le. unfold prec, emax. lia. }
  exists mz, (d - 53).
  split.
  { pose proof (@binary_round_aux_exact mz (d - 53) 0 Hb ltac:(lia)) as Hex.
    change (2 ^ 0) with 1 in Hex. rewrite Z.mul_1_r, Z.sub_0_r in Hex.
    exact Hex. }
  split; [exact Hb|]. split; [lia|].
  replace (- (d - 53)) with (0 - (d - 53)) by lia. exact Hfst.
Qed.

End Exact.

(** ** The rank of the percentile, in binary64 *)

Section RankBinary64.

Local Open Scope Z_scope.

Variable fpow : float -> float -> float.
Local Abbreviation b64 := (Binary64.binary64 fpow).

(** [0.25 * n] is computed without rounding, its ceiling is
    [(n + 3) / 4], and the cast to [size_t] returns that integer. *)
Lemma cast_size_t_quarter_exact (n : Z) :
  1 <= n <= INT_MAX ->
  @cast_size_t float b64
    (@ceil float b64 (@mul float b64 (@dec float b64 1 4) (@of_Z float b64 n)))
  = Done ((n + 3) / 4).
Proof.
  intros [Hlo Hhi]. unfold INT_MAX in Hhi. unfold cast_size_t.
  cbn [trunc ceil mul of_Z Binary64.binary64].
  change (@dec float b64 1 4) with 0.25%float.
  destruct (@Z2float_exact n ltac:(change (2 ^ 53) with 9007199254740992; lia))
    as (m & e & Hn & Hb & He & Hm).
  (* the product *)
  assert (Hx : Prim2SF (PrimFloat.mul 0.25 (Binary64.Z2float n))
               = S754_finite false m (e - 2)).
  { rewrite mul_spec, Hn. unfold SF64mul.
    change (Prim2SF 0.25) with (S754_finite false 4503599627370496 (-54)).
    cbn [SFmul xorb]. rewrite Pos2Z.inj_mul, Z.mul_comm.
    change (Z.pos 4503599627370496) with (2 ^ 52).
    replace (-54 + e) with (e - 2 - 52) by lia.
    apply binary_round_aux_exact; [|lia].
    destruct (@bounded_spec _ _ Hb) as (_ & _ & _ & _ & Hdig).
    unfold bounded, canonical_mantissa.
    rewrite Hdig by (change emin with (-1074); lia).
    apply andb_true_intro. split.
    - apply Z.eqb_eq. unfold fexp, SpecFloat.emin, prec, emax. lia.
    - apply Z.leb_le. unfold prec, emax. lia. }
  (* its ceiling *)
  assert (Hpe : 0 < 2 ^ (- e)) by (apply pow2_pos; lia).
  assert (Hceil : Binary64.float_ceil (PrimFloat.mul 0.25 (Binary64.Z2float n))
                  = Binary64.Z2float ((n + 3) / 4)).
  { unfold Binary64.float_ceil. rewrite Hx. cbn [Binary64.SFceil].
    replace (0 <=? e - 2) with false by (symmetry; apply Z.leb_gt; lia).
    f_equal. change (- Z.pos m) with (- (Z.pos m)). rewrite Hm.
    replace (- (e - 2)) with (- e + 2) by lia.
    rewrite Z.pow_add_r by lia. change (2 ^ 2) with 4.
    rewrite <- Z.mul_opp_l.
    rewrite (Z.mul_comm (2 ^ (- e)) 4).
    rewrite Z.div_mul_cancel_r by lia.
    pose proof (Z.div_mod (- n) 4 ltac:(lia)).
    pose proof (Z.mod_pos_bound (- n) 4 ltac:(lia)).
    pose proof (Z.div_mod (n + 3) 4 ltac:(lia)).
    pose proof (Z.mod_pos_bound (n + 3) 4 ltac:(lia)).
    lia. }
  rewrite Hceil.
  (* the cast *)
  set (c := (n + 3) / 4).
  assert (Hc : 1 <= c <= n).
  { unfold c.
    pose proof (Z.div_mod (n + 3) 4 ltac:(lia)).
    pose proof (Z.mod_pos_bound (n + 3) 4 ltac:(lia)). lia. }
  destruct (@Z2float_exact c ltac:(change (2 ^ 53) with 9007199254740992; lia))
    as (mc & ec & Hcf & _ & Hec & Hmc).
  rewrite Hcf. cbn [Binary64.SFtrunc].
  assert (Hpc : 0 < 2 ^ (- ec)) by (apply pow2_pos; lia).
  assert (Hval : (if 0 <=? ec then Z.pos mc * 2 ^ ec
                  else Z.quot (Z.pos mc) (2 ^ (- ec))) = c).
  { destruct (Z.leb_spec 0 ec) as [Hge | Hlt].
    - assert (ec = 0) by lia. subst ec. rewrite Hmc.
      change (2 ^ (- 0)) with 1. change (2 ^ 0) with 1. lia.
    - rewrite Z.quot_div_nonneg by lia. rewrite Hmc.
      apply Z.div_mul. lia. }
  rewrite Hval.
  replace ((0 <=? c) && (c <=? SIZE_MAX))%bool with true; [reflexivity|].
  symmetry. apply andb_true_intro.
  split; apply Z.leb_le; unfold SIZE_MAX; lia.
Qed.

(** [CAR25_of] returns the value of rank [(n + 3) / 4], that is
    [ceil(0.25 * n)], of the sorted vector. *)
Lemma CAR25_of_rank_binary64 (CAR_list : list float) :
  CAR_list <> [] -> size CAR_list <= INT_MAX ->
  exists CAR25,
    @CAR25_of float b64 CAR_list = Done CAR25
    /\ nth_error (@sort float b64 CAR_list)
                 (Z.to_nat ((size CAR_list + 3) / 4 - 1))
       = Some CAR25.
Proof.
  intros Hne Hmax.
  assert (Hn : 1 <= size CAR_list)
    by (unfold size; destruct CAR_list; [contradiction | simpl; lia]).
  unfold CAR25_of.
  assert (Hsize : size (@sort float b64 CAR_list) = size CAR_list)
    by (unfold size; now rewrite sort_length).
  rewrite Hsize.
  rewrite (@cast_size_t_quarter_exact (size CAR_list) (conj Hn Hmax)).
  set (c := (size CAR_list + 3) / 4).
  assert (Hc : 1 <= c <= size CAR_list).
  { unfold c.
    pose proof (Z.div_mod (size CAR_list + 3) 4 ltac:(lia)).
    pose proof (Z.mod_pos_bound (size CAR_list + 3) 4 ltac:(lia)). lia. }
  unfold size_t_wrap. unfold INT_MAX, SIZE_MAX in *.
  rewrite !Z.mod_small by lia.
  rewrite Z.min_l by lia.
  unfold vec_get. unfold size in Hsize, Hc.
  replace ((0 <=? c - 1)
           && (c - 1 <? Z.of_nat (length (@sort float b64 CAR_list))))%bool
    with true.
  - destruct (nth_error (@sort float b64 CAR_list) (Z.to_nat (c - 1)))
      as [x|] eqn:Hnth.
    + exists x. split; reflexivity.
    + apply nth_error_None in Hnth. rewrite sort_length in Hnth. lia.
  - symmetry. apply andb_true_intro. rewrite sort_length.
    split; [apply Z.leb_le | apply Z.ltb_lt]; lia.
Qed.

End RankBinary64.

(** The rank [ceil(0.25 * n)] of a count [n >= 1], in integers. *)
Lemma rank25_quarter (n : Z) : (1 <= n)%Z -> Spec.rank25 n = ((n + 3) / 4)%Z.
Proof.
  intro Hn. unfold Spec.rank25.
  pose proof (Zceil_bound (0.25 * IZR n)) as [Hlo Hhi].
  set (c := Zceil (0.25 * IZR n)) in *.
  assert (H1 : (4 * c - 4 < n)%Z).
  { apply lt_IZR. rewrite minus_IZR, mult_IZR. lra. }
  assert (H2 : (n <= 4 * c)%Z).
  { apply le_IZR. rewrite mult_IZR. lra. }
  pose proof (Z.div_mod (n + 3) 4 ltac:(lia)).
  pose proof (Z.mod_pos_bound (n + 3) 4 ltac:(lia)).
  lia.
Qed.

(** ** The mean of doubles of [[0, 10]], in binary64 *)

Section MeanBinary64.

Local Open Scope Z_scope.

Lemma below_of_bracket (x : float) :
  in_bracket x -> below (10 * 2 ^ 1074) (Prim2SF x).
Proof.
  intro Hx. destruct (within_of_bracket Hx) as [[s ->] | (m & e & -> & Hb & Hle)].
  - left. now exists s.
  - right. exists m, e. split; [reflexivity|]. split; [exact Hb|].
    assert (HB10 : bounded prec emax mant10 (-49) = true) by reflexivity.
    pose proof (@SFleb_le _ _ _ _ Hb HB10 Hle) as Hv.
    replace (10 * 2 ^ 1074) with (Z.pos mant10 * 2 ^ (-49 - emin));
      [exact Hv|].
    change (-49 - emin) with 1025. change (Z.pos mant10) with (10 * 2 ^ 49).
    rewrite <- Z.mul_assoc, <- Z.pow_add_r by lia. reflexivity.
Qed.

(** A positive integer below [2 ^ 53] is a double. *)
Lemma integer_bounded (z : Z) :
  0 < z < 2 ^ 53 ->
  exists mB eB,
    bounded prec emax mB eB = true
    /\ Z.pos mB * 2 ^ (eB - emin) = z * 2 ^ 1074.
Proof.
  intro Hz. destruct (@Z2float_exact z Hz) as (m & e & _ & Hb & He & Hm).
  exists m, e. split; [exact Hb|].
  change emin with (-1074). rewrite Hm, <- Z.mul_assoc.
  rewrite <- Z.pow_add_r by lia.
  do 2 f_equal. lia.
Qed.

Lemma below_add (v w : Z) (x y : spec_float) :
  0 <= v -> 0 <= w ->
  (exists mB eB, bounded prec emax mB eB = true
                 /\ Z.pos mB * 2 ^ (eB - emin) = v + w) ->
  below v x -> below w y ->
  valid_binary (SFadd prec emax x y) = true ->
  below (v + w) (SFadd prec emax x y).
Proof.
  intros Hv Hw (mB & eB & HB & HvB)
         [[s ->] | (mx & ex & -> & Hbx & Hlx)]
         [[t ->] | (my & ey & -> & Hby & Hly)] Hvalid.
  - left. destruct s, t; cbn; eexists; reflexivity.
  - right. exists my, ey. cbn [SFadd].
    split; [reflexivity|]. split; [exact Hby | lia].
  - right. exists mx, ex. cbn [SFadd].
    split; [reflexivity|]. split; [exact Hbx | lia].
  - destruct (@bounded_spec _ _ Hbx) as (_ & _ & Hminx & _).
    destruct (@bounded_spec _ _ Hby) as (_ & _ & Hminy & _).
    destruct (@SFadd_le mx ex my ey mB eB Hminx Hminy HB ltac:(lia))
      as [Hle H0].
    destruct (@nonneg_le_cases _ _ _ Hvalid H0 Hle)
      as [[s Hs] | (m & e & Hs & Hb & Hle')].
    + left. now exists s.
    + right. exists m, e. split; [exact Hs|]. split; [exact Hb|].
      rewrite <- HvB. exact (@SFleb_le _ _ _ _ Hb HB Hle').
Qed.

(** The sum of [k] doubles of [[0, 10]] is a double of [[0, 10 * k]]. *)
Lemma accumulate_below (data : list float) :
  Forall in_bracket data ->
  forall (acc : float) (k : Z),
    0 <= k -> k + Z.of_nat (length data) <= 2 ^ 49 ->
    below (10 * k * 2 ^ 1074) (Prim2SF acc) ->
    below (10 * (k + Z.of_nat (length data)) * 2 ^ 1074)
          (Prim2SF (fold_left PrimFloat.add data acc)).
Proof.
  induction 1 as [|x data Hx Hall IH]; intros acc k Hk Hlen Hacc.
  - cbn [fold_left length]. now rewrite Z.add_0_r.
  - cbn [fold_left]. cbn [length] in Hlen |- *.
    rewrite Nat2Z.inj_succ in Hlen |- *.
    replace (k + Z.succ (Z.of_nat (length data)))
      with (k + 1 + Z.of_nat (length data)) by lia.
    apply IH; [lia | lia |].
    pose proof (Prim2SF_valid (acc + x)%float) as Hvalid.
    rewrite add_spec in Hvalid |- *. unfold SF64add in *.
    replace (10 * (k + 1) * 2 ^ 1074)
      with (10 * k * 2 ^ 1074 + 10 * 2 ^ 1074) by lia.
    apply below_add;
      [ | | | exact Hacc | exact (below_of_bracket Hx) | exact Hvalid].
    + apply Z.mul_nonneg_nonneg; [lia | apply Z.pow_nonneg; lia].
    + apply Z.mul_nonneg_nonneg; [lia | apply Z.pow_nonneg; lia].
    + destruct (@integer_bounded (10 * (k + 1))) as (mB & eB & HB & HvB).
      { change (2 ^ 53) with (16 * 2 ^ 49). lia. }
      exists mB, eB. split; [exact HB|]. rewrite HvB. lia.
Qed.

Variable fpow : float -> float -> float.
Local Abbreviation b64 := (Binary64.binary64 fpow).

(** The mean that [computeMean] returns for doubles of [[0, 10]] is a
    double of [[0, 10]]. *)
Lemma computeMean_in_bracket (data : list float) :
  Forall in_bracket data -> Z.of_nat (length data) <= INT_MAX ->
  in_bracket (@computeMean float b64 data).
Proof.
  intros Hall Hlen. unfold INT_MAX in Hlen.
  destruct data as [|x data]; [split; reflexivity|].
  unfold computeMean, accumulate.
  set (l := x :: data) in *.
  assert (Hn : 1 <= size l) by (unfold size, l; cbn [length]; lia).
  cbn [add div of_Z Binary64.binary64].
  pose proof (@accumulate_below l Hall (Binary64.Z2float 0) 0 ltac:(lia)) as Hsum.
  cbn [Z.add] in Hsum. fold (size l) in Hsum.
  specialize (Hsum ltac:(unfold size; change (2 ^ 49) with 562949953421312; lia)
                   ltac:(left; exists false; reflexivity)).
  destruct (@Z2float_exact (size l)
              ltac:(unfold size in *; change (2 ^ 53) with 9007199254740992;
                    lia))
    as (my & ey & Hy & Hby & Hey & Hmy).
  pose proof (Prim2SF_valid
                (fold_left PrimFloat.add l (Binary64.Z2float 0)
                 / Binary64.Z2float (size l))%float) as Hvalid.
  rewrite div_spec, Hy in Hvalid. unfold SF64div in Hvalid.
  apply bracket_of_within. rewrite div_spec, Hy. unfold SF64div.
  destruct Hsum as [[s Hs] | (mx & ex & Hs & Hbx & Hvx)]; rewrite Hs in *.
  - left. cbn. eexists. reflexivity.
  - assert (HB10 : bounded prec emax mant10 (-49) = true) by reflexivity.
    destruct (@bounded_spec _ _ Hbx) as (_ & _ & Hminx & _).
    change emin with (-1074) in *.
    assert (Hle : SFleb (SFdiv prec emax (S754_finite false mx ex)
                           (S754_finite false my ey))
                        (S754_finite false mant10 (-49)) = true).
    { apply SFdiv_le; [exact HB10|].
      set (c := Z.min (-49) (ex - ey)).
      rewrite Hmy. change (Z.pos mant10) with (10 * 2 ^ 49).
      replace (10 * 2 ^ 49 * 2 ^ (-49 - c) * (size l * 2 ^ (- ey)))
        with (10 * size l * 2 ^ (49 + (-49 - c) + (- ey))).
      2:{ rewrite !Z.pow_add_r by (unfold c; lia). ring. }
      apply (@scale_le (Z.pos mx) (10 * size l) (ex - -1074) 1074);
        first [unfold c; lia | exact Hvx]. }
    assert (H0 : SFleb (S754_zero false)
                       (SFdiv prec emax (S754_finite false mx ex)
                              (S754_finite false my ey)) = true).
    { revert Hle. cbn [SFdiv xorb].
      destruct (SFdiv_core_binary prec emax (Z.pos mx) ex (Z.pos my) ey)
        as [[mz ez] lz].
      apply binary_round_aux_nonneg. }
    destruct (@nonneg_le_cases _ _ _ Hvalid H0 Hle)
      as [[s Hq] | (m & e & Hq & Hb & Hle')].
    + left. now exists s.
    + right. exists m, e. rewrite Hq.
      split; [reflexivity|]. split; [exact Hb | exact Hle'].
Qed.

End MeanBinary64.

(** ** What a repetition selects from what it collected *)

Section Selected.

Lemma collected_length {D : Type} `{Double D} {G : Type}
    (dist : nat -> G -> nat * G) (trades : list D) (fraction : D)
    (days N : Z) (capital : D) (n : nat) (rng : G) :
  length (collected dist trades fraction days N capital n rng) = n.
Proof.
  revert rng. induction n as [|n IH]; intro rng; [reflexivity|].
  cbn [collected length]. now rewrite IH.
Qed.

Variable G : Type.
Variable dist : nat -> G -> nat * G.
Hypothesis dist_in_range : in_range dist.

(** In exact arithmetic a repetition returns, and its CAR25 is the value of
    rank [ceil(0.25 * n)] among the [n] values it collected. *)
Lemma repetition_ranked (trades : list R) (days N : Z)
    (capital tail_percentile tolerance : R) (n : Z) (fuel : nat) (rng : G) :
  valid_series trades -> valid_path_length N -> (0 < n <= INT_MAX)%Z ->
  (1000 <= fuel)%nat ->
  exists st rng1 CAR25,
    bisection_loop dist fuel trades N capital tail_percentile tolerance n
                   bisection_init rng
    = Ret (st, rng1)
    /\ repetition dist fuel trades days N capital tail_percentile tolerance
                  n rng
       = Ret (fraction st, CAR25,
              advance dist (length trades - 1) (Z.to_nat n * Z.to_nat N) rng1)
    /\ Spec.at_rank (Spec.rank25 n)
         (sort (collected dist trades (fraction st) days N capital
                          (Z.to_nat n) rng1))
       = Some CAR25.
Proof.
  intros Hseries HN Hn Hfuel.
  destruct (@repetition_collected R RealArith.real G dist dist_in_range
              trades N Hseries HN capital tail_percentile tolerance days n
              fuel rng Hfuel)
    as (st & rng1 & Hrun & Hrep).
  set (CAR_list := collected dist trades (fraction st) days N capital
                             (Z.to_nat n) rng1) in *.
  assert (Hlen : length CAR_list = Z.to_nat n) by apply collected_length.
  assert (Hsize : size CAR_list = n) by (unfold size; rewrite Hlen; lia).
  destruct (@CAR25_of_rank CAR_list) as (CAR25 & Hperc & Hrank & _).
  { destruct CAR_list; [simpl in Hlen; lia | discriminate]. }
  { rewrite Hsize. unfold INT_MAX, SIZE_MAX in *. lia. }
  exists st, rng1, CAR25. split; [exact Hrun|].
  rewrite Hrep, Hperc. split; [reflexivity|].
  rewrite Hsize in Hrank. exact Hrank.
Qed.

Variable fpow : float -> float -> float.
Local Abbreviation b64 := (Binary64.binary64 fpow).

(** In binary64 a repetition returns, and its CAR25 is the value of rank
    [ceil(0.25 * n)] among the [n] values it collected. *)
Lemma repetition_selected (trades : list float) (days N : Z)
    (capital tail_percentile tolerance : float) (n : Z) (fuel : nat)
    (rng : G) :
  valid_series trades -> valid_path_length N -> (0 < n <= INT_MAX)%Z ->
  (1000 <= fuel)%nat ->
  exists st rng1 CAR25,
    @bisection_loop float b64 G dist fuel trades N capital tail_percentile
                    tolerance n (@bisection_init float b64) rng
    = Ret (st, rng1)
    /\ @repetition float b64 G dist fuel trades days N capital
                   tail_percentile tolerance n rng
       = Ret (fraction st, CAR25,
              advance dist (length trades - 1) (Z.to_nat n * Z.to_nat N) rng1)
    /\ nth_error
         (@sort float b64
            (@collected float b64 G dist trades (fraction st) days N capital
                        (Z.to_nat n) rng1))
         (Z.to_nat (Spec.rank25 n - 1))
       = Some CAR25.
Proof.
  intros Hseries HN Hn Hfuel.
  destruct (@repetition_collected float b64 G dist dist_in_range
              trades N Hseries HN capital tail_percentile tolerance days n
              fuel rng Hfuel)
    as (st & rng1 & Hrun & Hrep).
  set (CAR_list := collected dist trades (fraction st) days N capital
                             (Z.to_nat n) rng1) in *.
  assert (Hlen : length CAR_list = Z.to_nat n) by apply collected_length.
  assert (Hsize : size CAR_list = n) by (unfold size; rewrite Hlen; lia).
  destruct (@CAR25_of_rank_binary64 fpow CAR_list)
    as (CAR25 & Hperc & Hrank).
  { destruct CAR_list; [simpl in Hlen; lia | discriminate]. }
  { rewrite Hsize. lia. }
  exists st, rng1, CAR25. split; [exact Hrun|].
  rewrite Hrep, Hperc. split; [reflexivity|].
  rewrite Hsize in Hrank. rewrite rank25_quarter by lia. exact Hrank.
Qed.

(** In binary64 [risk_normalization] returns, with one CAR25 printed for
    each repetition. *)
Lemma risk_normalization_returns_binary64 (trades : list float)
    (days N : Z) (capital tail_percentile tolerance : float) (n reps : Z)
    (fuel : nat) (rng : G) :
  valid_series trades -> valid_path_length N -> (0 < n <= INT_MAX)%Z ->
  (1000 <= fuel)%nat ->
  exists stats rng',
    @risk_normalization float b64 G dist fuel trades days N capital
                        tail_percentile tolerance n reps rng
    = Ret (stats, rng')
    /\ length (printed stats) = Z.to_nat reps.
Proof.
  intros Hseries HN Hn Hfuel. unfold risk_normalization.
  destruct (@repetitions_in_bracket fpow G dist dist_in_range trades N
              Hseries HN capital tail_percentile tolerance n days Hn fuel
              Hfuel (Z.to_nat reps) [] [] rng (Forall_nil _))
    as (fs & cs & rng' & Hrun & Hlf & Hlc & Hall).
  erewrite bind_ret by exact Hrun. cbn [length Nat.add] in Hlf, Hlc.
  unfold computeStatistics, ret. eexists _, rng'.
  split; [reflexivity|]. cbn [printed]. exact Hlc.
Qed.

End Selected.

(** ** The shape of the state that the bisection leaves *)

Section Bracket.

Context {D : Type} `{Double D}.
Variable G : Type.
Variable dist : nat -> G -> nat * G.
Hypothesis dist_in_range : in_range dist.

Variable trades : list D.
Variable N : Z.
Hypothesis trades_valid : valid_series trades.
Hypothesis N_valid : valid_path_length N.

Variables capital tail_percentile tolerance : D.
Variable n : Z.

(** With any property [P] of the state that the body keeps, the loop
    leaves after [1] to [1000] passes, either accepted, at the midpoint of
    its bracket, or after the last pass, at an end of its bracket. *)
Lemma bisection_shape (P : bisection -> Prop) :
  (forall st rng st' rng',
      P st ->
      bisection_body dist trades N capital tail_percentile tolerance n st rng
      = Ret (st', rng') ->
      P st') ->
  P bisection_init ->
  forall (fuel : nat) (rng : G),
    (1000 <= fuel)%nat ->
    exists st rng',
      bisection_loop dist fuel trades N capital tail_percentile tolerance n
                     bisection_init rng
      = Ret (st, rng')
      /\ P st
      /\ (1 <= iteration st <= 1000)%Z
      /\ (done st = true ->
          (fabs (tail_risk st - tail_percentile / of_Z 100)
           <? desired_accuracy)%D = true
          /\ fraction st = ((lower_bound st + upper_bound st) / of_Z 2)%D)
      /\ (done st = false ->
          iteration st = 1000%Z
          /\ (fraction st = lower_bound st \/ fraction st = upper_bound st)).
Proof.
  intros HP Hinit fuel rng Hfuel.
  destruct (@bisection_loop_invariant D _ G dist dist_in_range trades N
              trades_valid N_valid capital tail_percentile tolerance n
              (fun st _ =>
                 P st /\ (0 <= iteration st <= 1000)%Z
                 /\ ((1 <= iteration st)%Z ->
                     if done st then
                       (fabs (tail_risk st - tail_percentile / of_Z 100)
                        <? desired_accuracy)%D = true
                       /\ fraction st
                          = ((lower_bound st + upper_bound st) / of_Z 2)%D
                     else fraction st = lower_bound st
                          \/ fraction st = upper_bound st)))
    with (fuel := fuel) (st := bisection_init) (rng := rng)
    as (st & rng' & Hrun & (HPst & Hiter & Hst) & Hcond & Hpass).
  - intros st rng0 st' rng1 (HPst & Hiter & Hst) Hcond Hbody.
    split; [eapply HP; eassumption|].
    unfold bisection_cond, max_iterations in Hcond.
    apply andb_prop in Hcond. destruct Hcond as [Hdone Hlt].
    apply Z.ltb_lt in Hlt. apply negb_true_iff in Hdone.
    unfold bisection_body in Hbody.
    apply bind_inv in Hbody. destruct Hbody as (tail & rng2 & _ & Hret).
    unfold ret in Hret. injection Hret as <- _.
    unfold next_iteration.
    destruct (fabs (tail - tail_percentile / of_Z 100) <? desired_accuracy)%D
      eqn:Hacc; [|destruct (tail >? tail_percentile / of_Z 100)%D];
      cbn [fraction lower_bound upper_bound tail_risk done iteration];
      (split; [lia|]); intros _.
    + split; [exact Hacc | reflexivity].
    + rewrite Hdone. now right.
    + rewrite Hdone. now left.
  - split; [exact Hinit|]. unfold bisection_init. cbn [iteration].
    split; lia.
  - unfold max_iterations, bisection_init. cbn [iteration]. lia.
  - assert (Hone : (1 <= iteration st)%Z).
    { assert (Hstart : bisection_cond bisection_init = true) by reflexivity.
      specialize (Hpass Hstart). unfold bisection_init in Hpass.
      cbn [iteration] in Hpass. lia. }
    specialize (Hst Hone).
    exists st, rng'. split; [exact Hrun|]. split; [exact HPst|].
    split; [lia|].
    unfold bisection_cond, max_iterations in Hcond.
    destruct (done st).
    + split; [intros _; exact Hst | discriminate].
    + split; [discriminate|]. intros _.
      cbn [negb andb] in Hcond. apply Z.ltb_ge in Hcond.
      split; [lia | exact Hst].
Qed.

End Bracket.

(** ** The drawdown of a continued curve, in binary64 *)

Section ExtensionBinary64.

Lemma SFltb_leb (x y : spec_float) : SFltb x y = true -> SFleb x y = true.
Proof.
  unfold SFltb, SFleb. destruct (SFcompare x y) as [[| |]|]; congruence.
Qed.

Lemma SFltb_not_nan (x y : spec_float) : SFltb x y = true -> y <> S754_nan.
Proof.
  intros Hlt ->. destruct x as [s | s | | s m e]; try destruct s; discriminate.
Qed.

Variable fpow : float -> float -> float.
Local Abbreviation b64 := (Binary64.binary64 fpow).

(** The running maximum never decreases and is never not-a-number. *)
Lemma drawdown_step_maximum (peak m e : float) :
  Prim2SF m <> S754_nan ->
  PrimFloat.leb m (snd (@drawdown_step float b64 (peak, m) e)) = true
  /\ Prim2SF (snd (@drawdown_step float b64 (peak, m) e)) <> S754_nan.
Proof.
  intro Hm. unfold drawdown_step. cbn [ltb sub div Binary64.binary64 snd].
  match goal with |- context [if ?c then _ else _] => destruct c eqn:Hlt end.
  - rewrite ltb_spec in Hlt. rewrite leb_spec.
    split; [now apply SFltb_leb | eapply SFltb_not_nan; exact Hlt].
  - rewrite leb_spec. split; [now apply SFleb_refl | exact Hm].
Qed.

Lemma fold_drawdown_maximum (more : list float) (peak m : float) :
  Prim2SF m <> S754_nan ->
  PrimFloat.leb m (snd (fold_left (@drawdown_step float b64) more (peak, m)))
  = true.
Proof.
  revert peak m. induction more as [|e more IH]; intros peak m Hm.
  - cbn [fold_left snd]. rewrite leb_spec. now apply SFleb_refl.
  - cbn [fold_left].
    destruct (@drawdown_step_maximum peak m e Hm) as [Hle Hm'].
    destruct (@drawdown_step float b64 (peak, m) e) as [peak' m'].
    cbn [snd] in Hle, Hm'. specialize (IH peak' m' Hm').
    rewrite leb_spec in *. eapply SFleb_trans; eassumption.
Qed.

Lemma fold_drawdown_not_nan (curve : list float) (peak m : float) :
  Prim2SF m <> S754_nan ->
  Prim2SF (snd (fold_left (@drawdown_step float b64) curve (peak, m)))
  <> S754_nan.
Proof.
  revert peak m. induction curve as [|e curve IH]; intros peak m Hm;
    [exact Hm|].
  cbn [fold_left].
  destruct (@drawdown_step_maximum peak m e Hm) as [_ Hm'].
  destruct (@drawdown_step float b64 (peak, m) e) as [peak' m'].
  now apply IH.
Qed.

(** The drawdown of a curve is a number, and continuing the curve does not
    decrease it. *)
Lemma calculateDrawdown_extend_binary64 (curve more : list float) :
  curve <> [] ->
  exists d d',
    @calculateDrawdown float b64 curve = Done d
    /\ @calculateDrawdown float b64 (curve ++ more) = Done d'
    /\ PrimFloat.leb d d' = true
    /\ Prim2SF d <> S754_nan.
Proof.
  destruct curve as [|e0 rest]; [contradiction|]. intros _.
  change ((e0 :: rest) ++ more) with (e0 :: (rest ++ more)).
  unfold calculateDrawdown. eexists. eexists.
  split; [reflexivity|]. split; [reflexivity|].
  change (e0 :: rest ++ more) with ((e0 :: rest) ++ more).
  rewrite fold_left_app.
  assert (Hzero : Prim2SF (@of_Z float b64 0) <> S754_nan) by discriminate.
  pose proof (@fold_drawdown_not_nan (e0 :: rest) e0 (@of_Z float b64 0) Hzero)
    as Hm.
  destruct (fold_left (@drawdown_step float b64) (e0 :: rest)
                      (e0, @of_Z float b64 0)) as [peak m].
  split; [now apply fold_drawdown_maximum | exact Hm].
Qed.

End ExtensionBinary64.

(** ** The whole run in binary64 *)

Section FullRunBinary64.

Variable fpow : float -> float -> float.
Local Abbreviation b64 := (Binary64.binary64 fpow).

Variable G : Type.
Variable dist : nat -> G -> nat * G.
Hypothesis dist_in_range : in_range dist.

Variable trades : list float.
Variable N : Z.
Hypothesis trades_valid : valid_series trades.
Hypothesis N_valid : valid_path_length N.

Variables capital tail_percentile tolerance : float.
Variable n : Z.

(** The bracket and the fraction that the bisection leaves are doubles of
    [[0, 10]]. *)
Lemma bisection_shape_binary64 (fuel : nat) (rng : G) :
  (1000 <= fuel)%nat ->
  exists st rng',
    @bisection_loop float b64 G dist fuel trades N capital tail_percentile
                    tolerance n (@bisection_init float b64) rng
    = Ret (st, rng')
    /\ in_bracket (lower_bound st) /\ in_bracket (upper_bound st)
    /\ in_bracket (fraction st).
Proof.
  intro Hfuel.
  destruct (@bisection_shape float b64 G dist dist_in_range trades N
              trades_valid N_valid capital tail_percentile tolerance n
              (fun st => in_bracket (lower_bound st)
                         /\ in_bracket (upper_bound st)
                         /\ in_bracket (fraction st))
              (fun st rng st' rng' Hinv Hrun =>
                 @in_bracket_body fpow G dist trades N capital
                   tail_percentile tolerance n st rng st' rng' Hinv Hrun))
    with (fuel := fuel) (rng := rng)
    as (st & rng' & Hrun & Hinv & _).
  - repeat split; reflexivity.
  - exact Hfuel.
  - now exists st, rng'.
Qed.

Variable days : Z.
Hypothesis n_valid : (0 < n <= INT_MAX)%Z.

(** [risk_normalization] returns: it prints one CAR25 for each repetition,
    every safe fraction it averages is a double of [[0, 10]] and so is their
    mean, and neither standard deviation is below zero. *)
Lemma risk_normalization_binary64 (reps : Z) (fuel : nat) (rng : G) :
  (1000 <= fuel)%nat ->
  exists stats rng' results,
    @risk_normalization float b64 G dist fuel trades days N capital
                        tail_percentile tolerance n reps rng
    = Ret (stats, rng')
    /\ @ran float b64 G dist fuel trades days N capital tail_percentile
            tolerance n rng results rng'
    /\ length results = Z.to_nat reps
    /\ printed stats = map snd results
    /\ safe_f_mean stats = @computeMean float b64 (map fst results)
    /\ Forall in_bracket (map fst results)
    /\ ((reps <= INT_MAX)%Z -> in_bracket (safe_f_mean stats))
    /\ PrimFloat.ltb (safe_f_stdev stats) 0 = false
    /\ PrimFloat.ltb (CAR25_stdev stats) 0 = false.
Proof.
  intro Hfuel.
  destruct (@repetitions_in_bracket fpow G dist dist_in_range trades N
              trades_valid N_valid capital tail_percentile tolerance n days
              n_valid fuel Hfuel (Z.to_nat reps) [] [] rng (Forall_nil _))
    as (fs & cs & rng' & Hrun & _ & _ & Hall).
  pose proof Hrun as Hran. apply repetitions_ran in Hran.
  destruct Hran as (results & Hran & Hlen & Hfs & Hcs).
  cbn [app] in Hfs, Hcs. subst fs cs.
  unfold risk_normalization. erewrite bind_ret by exact Hrun.
  unfold computeStatistics, ret. eexists _, rng', results.
  split; [reflexivity|].
  cbn [printed safe_f_mean safe_f_stdev CAR25_stdev].
  split; [exact Hran|]. split; [exact Hlen|]. split; [reflexivity|].
  split; [reflexivity|]. split; [exact Hall|].
  split; [|split; apply computeStdDev_not_below].
  intro Hreps. apply computeMean_in_bracket; [exact Hall|].
  rewrite length_map, Hlen. lia.
Qed.

End FullRunBinary64.

(** ** [main] in binary64 *)

Section MainBinary64.

Local Open Scope Z_scope.

Lemma pow2_le_inv (a b : Z) : 0 <= a -> 0 <= b -> 2 ^ a <= 2 ^ b -> a <= b.
Proof.
  intros Ha Hb Hle. destruct (Z.le_gt_cases a b) as [|Hgt]; [assumption|].
  pose proof (Z.pow_lt_mono_r 2 b a ltac:(lia) ltac:(lia) Hgt). lia.
Qed.

(** The integer part of a double of [[0, 2 ^ 28]]. *)
Lemma SFtrunc_below (x : spec_float) :
  below (2 ^ 28 * 2 ^ 1074) x ->
  exists z, Binary64.SFtrunc x = Some z /\ 0 <= z <= 2 ^ 28.
Proof.
  intros [[s ->] | (m & e & -> & Hb & Hv)].
  - exists 0. split; [reflexivity | lia].
  - destruct (@bounded_spec _ _ Hb) as (_ & _ & Hmin & _).
    change emin with (-1074) in *.
    cbn [Binary64.SFtrunc]. eexists. split; [reflexivity|].
    destruct (Z.leb_spec 0 e) as [Hge | Hlt].
    + assert (H0 : 0 < 2 ^ e) by (apply pow2_pos; lia).
      split; [lia|].
      replace (e - -1074) with (e + 1074) in Hv by lia.
      rewrite Z.pow_add_r, Z.mul_assoc in Hv by lia.
      apply Z.mul_le_mono_pos_r in Hv; [exact Hv | apply pow2_pos; lia].
    + assert (H0 : 0 < 2 ^ (- e)) by (apply pow2_pos; lia).
      rewrite Z.quot_div_nonneg by lia.
      split; [apply Z.div_pos; lia|].
      apply Z.div_le_upper_bound; [exact H0|].
      apply (@scale_le (Z.pos m) (2 ^ 28) (e - -1074) 1074 0 (- e)) in Hv;
        [|lia..].
      rewrite Z.mul_1_r in Hv. lia.
Qed.

Variable fpow : float -> float -> float.
Local Abbreviation b64 := (Binary64.binary64 fpow).

(** [trades.size() / 28 * 2], computed in doubles and cast to [int], is a
    path length that can be allocated. *)
Lemma cast_int_trades_binary64 (s : Z) :
  1 <= s <= INT_MAX + 1 ->
  exists N,
    @cast_int float b64
      (PrimFloat.mul (PrimFloat.div (Binary64.Z2float s) (Binary64.Z2float 28))
                     (Binary64.Z2float 2))
    = Done N
    /\ valid_path_length N.
Proof.
  intros [Hlo Hhi]. unfold INT_MAX in Hhi.
  destruct (@Z2float_exact s ltac:(change (2 ^ 53) with 9007199254740992; lia))
    as (ms & es & Hs & Hbs & Hes & Hms).
  set (q := PrimFloat.div (Binary64.Z2float s) (Binary64.Z2float 28)).
  (* the quotient is at most 2 ^ 27 *)
  assert (Hq : below (2 ^ 27 * 2 ^ 1074) (Prim2SF q)).
  { pose proof (Prim2SF_valid q) as Hvalid. revert Hvalid. unfold q.
    rewrite div_spec, Hs. unfold SF64div.
    change (Prim2SF (Binary64.Z2float 28))
      with (S754_finite false 7881299347898368 (-48)).
    intro Hvalid.
    assert (HB : bounded prec emax 4503599627370496 (-25) = true)
      by reflexivity.
    assert (Hle : SFleb (SFdiv prec emax (S754_finite false ms es)
                           (S754_finite false 7881299347898368 (-48)))
                        (S754_finite false 4503599627370496 (-25)) = true).
    { apply SFdiv_le; [exact HB|].
      set (c := Z.min (-25) (es - -48)).
      rewrite Hms. change (Z.pos 4503599627370496) with (2 ^ 52).
      change (Z.pos 7881299347898368) with (7 * 2 ^ 50).
      replace (s * 2 ^ (- es) * 2 ^ (es - -48 - c))
        with (s * 2 ^ (48 - c)).
      2:{ rewrite <- Z.mul_assoc, <- Z.pow_add_r by (unfold c; lia).
          do 2 f_equal. lia. }
      replace (2 ^ 52 * 2 ^ (-25 - c) * (7 * 2 ^ 50))
        with (7 * 2 ^ 29 * 2 ^ (48 - c)).
      2:{ replace (48 - c) with (-25 - c + 73) by lia.
          rewrite Z.pow_add_r by (unfold c; lia).
          change (2 ^ 73) with (2 ^ 52 * 2 ^ 21).
          change (2 ^ 50) with (2 ^ 29 * 2 ^ 21). ring. }
      apply Z.mul_le_mono_nonneg_r;
        [apply Z.pow_nonneg; lia | change (2 ^ 29) with 536870912; lia]. }
    assert (H0 : SFleb (S754_zero false)
                       (SFdiv prec emax (S754_finite false ms es)
                              (S754_finite false 7881299347898368 (-48)))
                 = true).
    { revert Hle. cbn [SFdiv xorb].
      destruct (SFdiv_core_binary prec emax (Z.pos ms) es
                  (Z.pos 7881299347898368) (-48)) as [[mz ez] lz].
      apply binary_round_aux_nonneg. }
    destruct (@nonneg_le_cases _ _ _ Hvalid H0 Hle)
      as [[t Ht] | (m & e & Ht & Hb & Hle')].
    - left. now exists t.
    - right. exists m, e. split; [exact Ht|]. split; [exact Hb|].
      pose proof (@SFleb_le _ _ _ _ Hb HB Hle') as Hv.
      change emin with (-1074) in *.
      change (Z.pos 4503599627370496) with (2 ^ 52) in Hv.
      rewrite <- Z.pow_add_r in Hv by lia.
      rewrite <- Z.pow_add_r by lia. exact Hv. }
  (* twice the quotient is at most 2 ^ 28 *)
  set (x := PrimFloat.mul q (Binary64.Z2float 2)).
  assert (Hx : below (2 ^ 28 * 2 ^ 1074) (Prim2SF x)).
  { pose proof (Prim2SF_valid x) as Hvalid. revert Hvalid. unfold x.
    rewrite mul_spec. unfold SF64mul.
    change (Prim2SF (Binary64.Z2float 2))
      with (S754_finite false 4503599627370496 (-51)).
    destruct Hq as [[t ->] | (m & e & -> & Hb & Hv)].
    - intros _. left. cbn. eexists. reflexivity.
    - cbn [SFmul xorb]. intro Hvalid.
      destruct (@bounded_spec _ _ Hb) as (_ & _ & Hmin & _).
      change emin with (-1074) in *.
      rewrite <- Z.pow_add_r in Hv by lia.
      assert (He : e <= 27).
      { assert (Hpe : 2 ^ (e - -1074) <= 2 ^ (27 + 1074)).
        { eapply Z.le_trans; [|exact Hv].
          assert (0 < 2 ^ (e - -1074)) by (apply pow2_pos; lia). nia. }
        apply pow2_le_inv in Hpe; lia. }
      assert (HB : bounded prec emax 4503599627370496 (-24) = true)
        by reflexivity.
      assert (Hle : SFleb
                (binary_round_aux prec emax false
                   (Z.pos (m * 4503599627370496)) (e + -51) loc_Exact)
                (S754_finite false 4503599627370496 (-24)) = true).
      { apply binary_round_aux_le;
          [lia | reflexivity | cbv; discriminate | lia | | congruence].
        rewrite Pos2Z.inj_mul.
        change (Z.pos 4503599627370496) with (2 ^ 52).
        rewrite (Z.mul_comm (2 ^ 52) (2 ^ _)).
        apply Z.mul_le_mono_nonneg_r; [apply Z.pow_nonneg; lia|].
        replace (2 ^ (-24 - (e + -51))) with (1 * 2 ^ (27 - e))
          by (rewrite Z.mul_1_l; f_equal; lia).
        replace (Z.pos m) with (Z.pos m * 2 ^ 0) by (change (2 ^ 0) with 1; lia).
        apply (@scale_le (Z.pos m) 1 (e - -1074) (27 + 1074)); [lia..|].
        rewrite Z.mul_1_l. exact Hv. }
      pose proof (@binary_round_aux_nonneg _ _ _ _ _ Hle) as H0.
      destruct (@nonneg_le_cases _ _ _ Hvalid H0 Hle)
        as [[t Ht] | (mx & ex & Ht & Hbx & Hle')].
      + left. now exists t.
      + right. exists mx, ex. split; [exact Ht|]. split; [exact Hbx|].
        pose proof (@SFleb_le _ _ _ _ Hbx HB Hle') as Hvx.
        change emin with (-1074) in *.
        change (Z.pos 4503599627370496) with (2 ^ 52) in Hvx.
        rewrite <- Z.pow_add_r in Hvx by lia.
        rewrite <- Z.pow_add_r by lia. exact Hvx. }
  destruct (SFtrunc_below Hx) as (z & Hz & Hrange).
  exists z. unfold cast_int. cbn [trunc Binary64.binary64]. rewrite Hz.
  change (2 ^ 28) with 268435456 in Hrange.
  replace ((- INT_MAX - 1 <=? z) && (z <=? INT_MAX))%bool with true.
  - split; [reflexivity|]. unfold valid_path_length, INT_MAX. lia.
  - symmetry. apply andb_true_intro.
    split; apply Z.leb_le; unfold INT_MAX; lia.
Qed.

Variable G : Type.
Variable dist : nat -> G -> nat * G.
Hypothesis dist_in_range : in_range dist.

(** On a series that has trades [main] runs [risk_normalization] for [504]
    days, a number of trades that can be allocated, [10000] curves and [5]
    repetitions, and returns [0] with the statistics: five CAR25 values and
    a mean safe fraction that is a double of [[0, 10]]. *)
Lemma main_binary64 (trades : list float) (fuel : nat) (rng : G) :
  valid_series trades -> (1000 <= fuel)%nat ->
  exists N stats rng',
    valid_path_length N
    /\ @risk_normalization float b64 G dist fuel trades 504 N 100000%float
         5%float 0.1%float 10000 5 rng
       = Ret (stats, rng')
    /\ @main float b64 G dist fuel trades rng
       = Ret ({| status := 0; complaint := None; report := Some stats |},
              rng')
    /\ length (printed stats) = 5%nat
    /\ in_bracket (safe_f_mean stats).
Proof.
  intros Hseries Hfuel.
  destruct (@cast_int_trades_binary64 (size trades)) as (N & Hcast & HN).
  { destruct Hseries as [Hne Hmax]. unfold size.
    destruct trades; [contradiction | simpl in *; lia]. }
  destruct (@risk_normalization_binary64 fpow G dist dist_in_range trades N
              Hseries HN 100000%float 5%float 0.1%float 10000 504
              ltac:(unfold INT_MAX; lia) 5 fuel rng Hfuel)
    as (stats & rng' & results & Hrun & _ & Hlen & Hprinted & _ & _ & Hmean
        & _).
  exists N, stats, rng'. split; [exact HN|]. split; [exact Hrun|].
  split; [|split].
  - destruct trades as [|t trades']; [destruct Hseries; contradiction|].
    unfold main.
    assert (Hdays :
      @cast_int float b64
        (@mul float b64 (@of_Z float b64 2) (@of_Z float b64 252))
      = Done 504%Z) by (vm_compute; reflexivity).
    rewrite Hdays. unfold lift at 1. unfold bind at 1.
    change (@cast_int float b64
              (@mul float b64
                 (@div float b64 (@of_Z float b64 (size (t :: trades')))
                    (@of_Z float b64 28))
                 (@of_Z float b64 2)))
      with (@cast_int float b64
              (PrimFloat.mul
                 (PrimFloat.div (Binary64.Z2float (size (t :: trades')))
                                (Binary64.Z2float 28))
                 (Binary64.Z2float 2))).
    rewrite Hcast. unfold lift at 1. unfold bind at 1.
    change (@of_Z float b64 100000) with 100000%float.
    change (@of_Z float b64 5) with 5%float.
    change (@dec float b64 1 10) with 0.1%float.
    erewrite bind_ret by exact Hrun. reflexivity.
  - rewrite Hprinted, length_map. exact Hlen.
  - apply Hmean. unfold INT_MAX. lia.
Qed.

End MainBinary64.

(** * The statements of the specification *)

(** C1 as stated fails: called with an empty series and otherwise valid
    parameters, [risk_normalization] gives no error result; it sets up a
    distribution over [(0, -1)], which is undefined behaviour, in exact
    arithmetic and in binary64 alike. *)
Lemma risk_normalization_empty_series_undefined :
  @risk_normalization R RealArith.real Lcg.state Lcg.dist 1000 [] 504 20
                      100000%R 5%R 0.1%R 50 3 42%Z
  = Stop UB /\
  @risk_normalization float Binary64.binary64_nopow Lcg.state Lcg.dist 1000
                      [] 504 20 100000%float 5%float 0.1%float 50 3 42%Z
  = Stop UB.
Proof.
  split; apply risk_normalization_empty;
    try (unfold valid_path_length, INT_MAX); lia.
Qed.

(** C1, as the code has it.  The refusal is [main]'s: handed an empty trade
    series, at every instance of the arithmetic, it writes
    "No trades data found." to the error stream and returns status [1],
    without calling [risk_normalization] or drawing from the generator.
    [risk_normalization] itself has no check: called with an empty series, a
    path length that can be allocated and positive counts, it runs into
    undefined behaviour. *)
Theorem main_refuses_empty_series :
  forall (D : Type) (H : Double D) (G : Type) (dist : nat -> G -> nat * G)
         (fuel : nat) (rng : G),
    main dist fuel ([] : list D) rng
    = Ret ({| status := 1;
              complaint := Some "No trades data found."%string;
              report := None |}, rng) /\
    forall days N capital tail_percentile tolerance n reps,
      valid_path_length N -> (0 < n)%Z -> (0 < reps)%Z -> (0 < fuel)%nat ->
      risk_normalization dist fuel ([] : list D) days N capital
                         tail_percentile tolerance n reps rng
      = Stop UB.
Proof.
  intros D H G dist fuel rng. split; [apply main_empty|].
  intros. now apply risk_normalization_empty.
Qed.

Lemma main_refuses_empty_series_witness :
  valid_path_length 20 /\ (0 < 50)%Z /\ (0 < 3)%Z /\ (0 < 1000)%nat /\
  @risk_normalization float Binary64.binary64_nopow Lcg.state Lcg.dist 1000
    [] 504 20 100000%float 5%float 0.1%float 50 3 42%Z
  = Stop UB.
Proof.
  assert (HN : valid_path_length 20) by (unfold valid_path_length, INT_MAX; lia).
  assert (Hn : (0 < 50)%Z) by lia.
  assert (Hreps : (0 < 3)%Z) by lia.
  assert (Hfuel : (0 < 1000)%nat) by lia.
  split; [exact HN|]. split; [exact Hn|]. split; [exact Hreps|].
  split; [exact Hfuel|].
  exact (proj2 (@main_refuses_empty_series float Binary64.binary64_nopow
                  Lcg.state Lcg.dist 1000%nat 42%Z)
           504%Z 20%Z 100000%float 5%float 0.1%float 50%Z 3%Z
           HN Hn Hreps Hfuel).
Defined.



(** C3. On a non-empty trade series and a path length [N] the simulator
    returns an equity curve of exactly [N + 1] values, whose first value is
    the initial capital and whose value at each step [i = k + 1], for [k]
    from [0] to [N - 1], is [curve[i-1] + series[idx] * fraction * curve[i-1]],
    where [idx] is the [i]-th index that the distribution over
    [[0, series.length - 1]] draws from the generator; the drawdown returned
    with the curve is that of the curve.  This holds at every instance of
    the arithmetic. *)
Theorem make_one_equity_sequence_curve :
  forall (D : Type) (H : Double D) (G : Type) (dist : nat -> G -> nat * G)
         (trades : list D) (fraction : D) (N : Z) (initial_capital : D)
         (rng : G),
    in_range dist -> valid_series trades -> valid_path_length N ->
    exists curve dd rng',
      make_one_equity_sequence dist trades fraction N initial_capital rng
      = Ret (curve, dd, rng')
      /\ Z.of_nat (length curve) = (N + 1)%Z
      /\ nth_error curve 0 = Some initial_capital
      /\ calculateDrawdown curve = Done dd
      /\ forall k, (k < Z.to_nat N)%nat ->
           exists idx r prev,
             nth_error (draws dist (length trades - 1) (Z.to_nat N) rng) k
             = Some idx
             /\ (idx <= length trades - 1)%nat
             /\ nth_error trades idx = Some r
             /\ nth_error curve k = Some prev
             /\ nth_error curve (S k) = Some (prev + r * fraction * prev)%D.
Proof.
  intros D H G dist trades fraction N capital rng Hrange Hseries HN.
  destruct (make_one_equity_sequence_spec Hrange fraction capital rng Hseries HN)
    as (curve & dd & rng' & Hrun & Hlen & Hfirst & Hdd & Hsteps).
  exists curve, dd, rng'.
  split; [exact Hrun|].
  split; [destruct HN; lia|].
  split; [exact Hfirst|].
  split; [exact Hdd|].
  intros k Hk. destruct (Hsteps k Hk) as (idx & r & prev & Hd & Hi & Hrest).
  exists idx, r, prev. split; [exact Hd|]. split; [lia | exact Hrest].
Qed.

Lemma make_one_equity_sequence_curve_witness :
  in_range Lcg.dist /\ valid_series [0.01; -0.02; 0.03]%float /\
  valid_path_length 5 /\
  exists curve dd rng',
    @make_one_equity_sequence float Binary64.binary64_nopow Lcg.state Lcg.dist
      [0.01; -0.02; 0.03]%float 0.5%float 5 100000%float 42%Z
    = Ret (curve, dd, rng')
    /\ Z.of_nat (length curve) = (5 + 1)%Z
    /\ nth_error curve 0 = Some 100000%float
    /\ @calculateDrawdown float Binary64.binary64_nopow curve = Done dd
    /\ forall k, (k < Z.to_nat 5)%nat ->
         exists idx r prev,
           nth_error (draws Lcg.dist (3 - 1) (Z.to_nat 5) 42%Z) k = Some idx
           /\ (idx <= 3 - 1)%nat
           /\ nth_error [0.01; -0.02; 0.03]%float idx = Some r
           /\ nth_error curve k = Some prev
           /\ nth_error curve (S k)
              = Some (PrimFloat.add prev (PrimFloat.mul (PrimFloat.mul r 0.5) prev)).
Proof.
  assert (Hseries : valid_series [0.01; -0.02; 0.03]%float)
    by (split; [discriminate | vm_compute; discriminate]).
  assert (HN : valid_path_length 5) by (unfold valid_path_length, INT_MAX; lia).
  split; [exact Lcg_in_range|].
  split; [exact Hseries|].
  split; [exact HN|].
  exact (@make_one_equity_sequence_curve float Binary64.binary64_nopow Lcg.state
           Lcg.dist [0.01; -0.02; 0.03]%float 0.5%float 5 100000%float 42%Z
           Lcg_in_range Hseries HN).
Defined.

(** C4. [calculateDrawdown] returns the maximum, over the points of the
    curve, of [(peak - equity) / peak] for the running peak up to and
    including the point (in exact arithmetic); it returns [0] on every
    non-empty curve that never decreases, in exact arithmetic and in binary64
    (whatever the doubles: zeros, infinities, not-a-number), and [0.20] on
    [[100, 90, 95, 80, 120]], in exact arithmetic and, as the double nearest
    to [0.2], in binary64. *)
Theorem calculateDrawdown_correct :
  (forall (e0 : R) (rest : list R),
      calculateDrawdown (e0 :: rest) = Done (Spec.max_drawdown (e0 :: rest))) /\
  (forall curve : list R,
      curve <> [] -> Spec.never_decreases curve ->
      calculateDrawdown curve = Done 0%R) /\
  (forall (fpow : float -> float -> float) (e0 : float) (rest : list float),
      Binary64.rising e0 rest ->
      @calculateDrawdown float (Binary64.binary64 fpow) (e0 :: rest)
      = Done 0%float) /\
  calculateDrawdown [100; 90; 95; 80; 120]%R = Done 0.2%R /\
  @calculateDrawdown float Binary64.binary64_nopow [100; 90; 95; 80; 120]%float
  = Done 0.2%float.
Proof.
  split; [exact calculateDrawdown_max|].
  split; [exact calculateDrawdown_monotone|].
  split; [exact calculateDrawdown_rising|].
  split; [exact fixture_drawdown|].
  vm_compute. reflexivity.
Qed.

Lemma calculateDrawdown_witness :
  (calculateDrawdown [1; 2; 2; 3] = Done 0)%R /\
  @calculateDrawdown float Binary64.binary64_nopow [1; 2; 2; 3]%float
  = Done 0%float.
Proof.
  destruct calculateDrawdown_correct as (_ & Hreal & Hdouble & _).
  split.
  - apply Hreal; [discriminate|].
    intros i x y Hx Hy.
    do 4 (destruct i as [|i]; [cbv in Hx, Hy; injection Hx as <-;
                               first [ injection Hy as <-; lra | discriminate ]|]).
    destruct i; discriminate.
  - apply Hdouble. repeat split.
Defined.

(** C5 as stated fails: a series with the single return [-1], at fraction
    [1], takes the equity from [100] to [0], and the drawdown of that curve
    is [1], outside [[0, 1)]; so in exact arithmetic, and so in binary64. *)
Lemma drawdown_reaches_one :
  (valid_series [-1]%R /\ valid_path_length 1 /\ (0 < 100)%R /\ (0 <= 1)%R /\
   exists curve dd rng',
     make_one_equity_sequence Lcg.dist [-1]%R 1%R 1 100%R 42%Z
     = Ret (curve, dd, rng')
     /\ curve = [100; 0]%R /\ dd = 1%R /\ ~ (0 <= dd < 1)%R) /\
  (@make_one_equity_sequence float Binary64.binary64_nopow Lcg.state Lcg.dist
     [-1]%float 1%float 1 100%float 42%Z
   = Ret ([100; 0]%float, 1%float, 1250496027%Z)
   /\ PrimFloat.ltb 1 1 = false).
Proof.
  split; [|split; vm_compute; reflexivity].
  assert (Hseries : valid_series [-1]%R)
    by (split; [discriminate | vm_compute; discriminate]).
  assert (HN : valid_path_length 1) by (unfold valid_path_length, INT_MAX; lia).
  split; [exact Hseries|]. split; [exact HN|]. split; [lra|]. split; [lra|].
  destruct equity_to_zero_real as (curve & dd & rng' & Hrun & Hcurve & Hone).
  exists curve, dd, rng'. split; [exact Hrun|].
  split; [exact Hcurve|]. split; [exact Hone|]. lra.
Qed.

(** C5, as the code has it.  For every equity curve the simulator builds
    from a positive initial capital and a non-empty trade series, in exact
    arithmetic and in binary64 alike: the drawdown is [>= 0]; every peak the
    computation divides by is at least the initial capital, hence positive;
    and the drawdown is at most [1] when no value of the curve is below
    zero.  The drawdown is exactly [1] when the equity falls to [0] (series
    [[-1]] at fraction [1]), and in binary64 also on a curve whose values are
    all positive (series [[-0.5]] at fraction [1] over [54] trades: a
    decline of [1 - 2 ^ -54] rounds to [1]). *)
Theorem simulated_drawdown_bounds :
  (forall (G : Type) (dist : nat -> G -> nat * G) (trades : list R)
          (fraction : R) (N : Z) (initial_capital : R) (rng : G),
      in_range dist -> valid_series trades -> valid_path_length N ->
      (0 < initial_capital)%R ->
      exists curve dd rng',
        make_one_equity_sequence dist trades fraction N initial_capital rng
        = Ret (curve, dd, rng')
        /\ (0 <= dd)%R
        /\ Forall (fun peak => 0 < peak)%R (divisors curve)
        /\ Forall (fun peak => initial_capital <= peak)%R (divisors curve)
        /\ (Forall (fun e => 0 <= e)%R curve -> (dd <= 1)%R)) /\
  (forall (fpow : float -> float -> float)
          (G : Type) (dist : nat -> G -> nat * G) (trades : list float)
          (fraction : float) (N : Z) (initial_capital : float) (rng : G),
      in_range dist -> valid_series trades -> valid_path_length N ->
      Binary64.positive initial_capital ->
      exists curve dd rng',
        @make_one_equity_sequence float (Binary64.binary64 fpow) G dist
          trades fraction N initial_capital rng
        = Ret (curve, dd, rng')
        /\ Binary64.nonnegative dd
        /\ Forall Binary64.positive
                  (@divisors float (Binary64.binary64 fpow) curve)
        /\ Forall (fun peak => PrimFloat.leb initial_capital peak = true)
                  (@divisors float (Binary64.binary64 fpow) curve)
        /\ (Forall (fun e => PrimFloat.ltb e 0 = false) curve ->
            PrimFloat.leb dd 1 = true)) /\
  (exists rng',
      make_one_equity_sequence Lcg.dist [-1]%R 1%R 1 100%R 42%Z
      = Ret ([100; 0]%R, 1%R, rng')) /\
  (forall fpow : float -> float -> float,
      @make_one_equity_sequence float (Binary64.binary64 fpow) Lcg.state
        Lcg.dist [-1]%float 1%float 1 100%float 42%Z
      = Ret ([100; 0]%float, 1%float, 1250496027%Z)) /\
  (forall fpow : float -> float -> float,
      exists curve rng',
        @make_one_equity_sequence float (Binary64.binary64 fpow) Lcg.state
          Lcg.dist [-0.5]%float 1%float 54 100%float 42%Z
        = Ret (curve, 1%float, rng')
        /\ Forall Binary64.positive curve).
Proof.
  split; [|split; [|split; [|split]]].
  - intros G dist trades fraction N capital rng Hrange Hseries HN Hcap.
    destruct (@simulated_drawdown_real G dist Hrange trades fraction N
                capital rng Hseries HN Hcap)
      as (curve & dd & rng' & Hrun & Hrest).
    now exists curve, dd, rng'.
  - intros fpow G dist trades fraction N capital rng Hrange Hseries HN Hcap.
    now apply simulated_drawdown_binary64.
  - destruct equity_to_zero_real as (curve & dd & rng' & Hrun & -> & ->).
    now exists rng'.
  - intro fpow. vm_compute. reflexivity.
  - intro fpow.
    destruct (@make_one_equity_sequence float (Binary64.binary64 fpow)
                Lcg.state Lcg.dist [-0.5]%float 1%float 54 100%float 42%Z)
      as [[[curve dd] rng'] | f |] eqn:Hrun; vm_compute in Hrun;
      try discriminate.
    injection Hrun as <- <- <-. eexists. eexists. split; [reflexivity|].
    repeat constructor.
Qed.

Lemma simulated_drawdown_bounds_witness :
  in_range Lcg.dist /\ valid_series [0.01; -0.02; 0.03]%R /\
  valid_path_length 5 /\ (0 < 100000)%R /\
  (exists curve dd rng',
      make_one_equity_sequence Lcg.dist [0.01; -0.02; 0.03]%R 0.5%R 5
                               100000%R 42%Z
      = Ret (curve, dd, rng')
      /\ (0 <= dd)%R
      /\ Forall (fun peak => 0 < peak)%R (divisors curve)
      /\ Forall (fun peak => 100000 <= peak)%R (divisors curve)
      /\ (Forall (fun e => 0 <= e)%R curve -> (dd <= 1)%R)) /\
  valid_series [0.01; -2; 0.03]%float /\ Binary64.positive 100000%float /\
  (exists curve dd rng',
      @make_one_equity_sequence float Binary64.binary64_nopow Lcg.state
        Lcg.dist [0.01; -2; 0.03]%float 1.5%float 5 100000%float 42%Z
      = Ret (curve, dd, rng')
      /\ Binary64.nonnegative dd
      /\ Forall Binary64.positive
                (@divisors float Binary64.binary64_nopow curve)
      /\ Forall (fun peak => PrimFloat.leb 100000 peak = true)
                (@divisors float Binary64.binary64_nopow curve)
      /\ (Forall (fun e => PrimFloat.ltb e 0 = false) curve ->
          PrimFloat.leb dd 1 = true)).
Proof.
  assert (Hseries : valid_series [0.01; -0.02; 0.03]%R)
    by (split; [discriminate | vm_compute; discriminate]).
  assert (HN : valid_path_length 5) by (unfold valid_path_length, INT_MAX; lia).
  assert (Hcap : (0 < 100000)%R) by lra.
  assert (Hseries64 : valid_series [0.01; -2; 0.03]%float)
    by (split; [discriminate | vm_compute; discriminate]).
  assert (Hcap64 : Binary64.positive 100000%float) by reflexivity.
  split; [exact Lcg_in_range|].
  split; [exact Hseries|].
  split; [exact HN|].
  split; [exact Hcap|].
  split.
  { exact (proj1 simulated_drawdown_bounds Lcg.state Lcg.dist
             [0.01; -0.02; 0.03]%R 0.5%R 5%Z 100000%R 42%Z
             Lcg_in_range Hseries HN Hcap). }
  split; [exact Hseries64|]. split; [exact Hcap64|].
  exact (proj1 (proj2 simulated_drawdown_bounds) (fun x _ => x) Lcg.state
           Lcg.dist [0.01; -2; 0.03]%float 1.5%float 5%Z 100000%float 42%Z
           Lcg_in_range Hseries64 HN Hcap64).
Defined.



(** C7. The statistics utilities compute the arithmetic mean and the
    Bessel-corrected sample standard deviation (divisor [n - 1]), the latter
    being [0] for fewer than two elements (at every instance of the
    arithmetic); on [[2,4,4,4,5,5,7,9]] the mean is [5] and the sample
    standard deviation is within [0.0005] of [2.138], in exact arithmetic,
    and they are the doubles [5] and [2.1380899352993952] in binary64. *)
Theorem statistics_utilities_correct :
  (forall data : list R, data <> [] -> computeMean data = Spec.mean data) /\
  (forall data : list R,
      (2 <= length data)%nat -> (Z.of_nat (length data) <= SIZE_MAX)%Z ->
      computeStdDev data (computeMean data) = Spec.sample_stdev data) /\
  (forall (D : Type) (H : Double D) (data : list D) (m : D),
      (length data < 2)%nat -> computeStdDev data m = of_Z 0) /\
  (computeMean [2; 4; 4; 4; 5; 5; 7; 9] = 5
   /\ Rabs (computeStdDev [2; 4; 4; 4; 5; 5; 7; 9] 5 - 2.138) < 0.0005)%R /\
  (@computeMean float Binary64.binary64_nopow [2; 4; 4; 4; 5; 5; 7; 9] = 5
   /\ @computeStdDev float Binary64.binary64_nopow [2; 4; 4; 4; 5; 5; 7; 9] 5
      = 2.1380899352993952)%float.
Proof.
  split; [exact computeMean_mean|].
  split; [exact computeStdDev_sample|].
  split; [intros D H data m; apply computeStdDev_small|].
  split; [split; [exact fixture_mean | exact fixture_stdev]|].
  split; vm_compute; reflexivity.
Qed.

Lemma statistics_utilities_witness :
  (computeMean [1; 2; 3] = Spec.mean [1; 2; 3]
   /\ computeStdDev [1; 2; 3] (computeMean [1; 2; 3])
      = Spec.sample_stdev [1; 2; 3]
   /\ computeStdDev [7] 3 = 0)%R.
Proof.
  destruct statistics_utilities_correct as (Hmean & Hstdev & Hsmall & _).
  split; [apply Hmean; discriminate|].
  split; [apply Hstdev; [simpl; lia | vm_compute; discriminate]|].
  apply (Hsmall R RealArith.real). simpl. lia.
Defined.

(** C8. [calculateCAGR(initial, final, years)] is
    [((final/initial)^(1/years) - 1) * 100] when the three arguments are
    positive and the sentinel [0] when any of them is not (in exact
    arithmetic and in binary64); for [initial = 100000], [final = 121000],
    [years = 2] it is [10] in exact arithmetic, and in binary64, with a
    [std::pow] that rounds the square root correctly, the double
    [10.000000000000009], printed as [10.00000]. *)
Theorem calculateCAGR_correct :
  (forall initial final years : R,
      0 < initial -> 0 < final -> 0 < years ->
      calculateCAGR initial final years
      = (Rpower (final / initial) (1 / years) - 1) * 100)%R /\
  (forall initial final years : R,
      initial <= 0 \/ final <= 0 \/ years <= 0 ->
      calculateCAGR initial final years = 0)%R /\
  (forall (fpow : float -> float -> float) (initial final years : float),
      PrimFloat.leb initial 0 = true \/ PrimFloat.leb final 0 = true
      \/ PrimFloat.leb years 0 = true ->
      @calculateCAGR float (Binary64.binary64 fpow) initial final years
      = 0%float) /\
  (calculateCAGR 100000 121000 2 = 10)%R /\
  (forall fpow : float -> float -> float,
      fpow (121000 / 100000)%float (1 / 2)%float
      = PrimFloat.sqrt (121000 / 100000)%float ->
      @calculateCAGR float (Binary64.binary64 fpow) 100000%float
                     121000%float 2%float
      = 10.000000000000009%float).
Proof.
  split; [exact calculateCAGR_positive|].
  split; [exact calculateCAGR_sentinel|].
  split; [exact calculateCAGR_sentinel_binary64|].
  split; [exact fixture_CAGR|].
  intros fpow Hpow. vm_compute in Hpow. vm_compute. rewrite Hpow.
  vm_compute. reflexivity.
Qed.

Lemma calculateCAGR_witness :
  (calculateCAGR 100 400 2 = (Rpower (400 / 100) (1 / 2) - 1) * 100
   /\ calculateCAGR 100 (-5) 2 = 0)%R /\
  @calculateCAGR float (Binary64.binary64 Binary64.pow_half)
                 100%float (-5)%float 2%float
  = 0%float /\
  @calculateCAGR float (Binary64.binary64 Binary64.pow_half)
                 100000%float 121000%float 2%float
  = 10.000000000000009%float.
Proof.
  destruct calculateCAGR_correct as (Hpos & Hsent & Hsent64 & _ & Hfix64).
  split; [split; [apply Hpos; lra | apply Hsent; lra]|].
  split; [apply Hsent64; right; left; reflexivity|].
  apply Hfix64. reflexivity.
Defined.

(** C9. At risk fraction [0], for every non-empty trade series, positive
    initial capital, positive drawdown tolerance and positive sample count
    (and a path length that can be allocated),
    [analyze_distribution_of_drawdown] returns the tail probability [0]: in
    exact arithmetic, where every equity curve the simulator builds is
    constant at the initial capital, with drawdown [0]; and in binary64, for
    a finite positive capital and whatever doubles the series holds. *)
Theorem zero_fraction_zero_tail :
  (forall (G : Type) (dist : nat -> G -> nat * G) (trades : list R) (N : Z)
          (initial_capital drawdown_tolerance : R) (number_equity_in_CDF : Z),
      in_range dist -> valid_series trades -> valid_path_length N ->
      (0 < initial_capital)%R -> (0 < drawdown_tolerance)%R ->
      (0 < number_equity_in_CDF)%Z ->
      (forall rng, exists rng',
          analyze_distribution_of_drawdown dist trades 0%R N initial_capital
            drawdown_tolerance number_equity_in_CDF rng
          = Ret (0%R, rng')) /\
      (forall rng, exists rng',
          make_one_equity_sequence dist trades 0%R N initial_capital rng
          = Ret (repeat initial_capital (S (Z.to_nat N)), 0%R, rng'))) /\
  (forall (fpow : float -> float -> float)
          (G : Type) (dist : nat -> G -> nat * G) (trades : list float)
          (N : Z) (initial_capital drawdown_tolerance : float)
          (number_equity_in_CDF : Z),
      in_range dist -> valid_series trades -> valid_path_length N ->
      Binary64.positive_finite initial_capital ->
      Binary64.positive drawdown_tolerance ->
      (0 < number_equity_in_CDF <= INT_MAX)%Z ->
      forall rng, exists rng',
        @analyze_distribution_of_drawdown float (Binary64.binary64 fpow) G
          dist trades 0%float N initial_capital drawdown_tolerance
          number_equity_in_CDF rng
        = Ret (0%float, rng')).
Proof.
  split.
  - intros G dist trades N capital tolerance n Hrange Hseries HN Hcap Htol Hn.
    split; intro rng.
    + apply analyze_zero; [assumption .. | lra].
    + now apply flat_curve.
  - intros fpow G dist trades N capital tolerance n
           Hrange Hseries HN Hcap Htol Hn rng.
    now apply analyze_zero_binary64.
Qed.

Lemma zero_fraction_zero_tail_witness :
  in_range Lcg.dist /\ valid_series [0.01; -0.02; 0.03]%R /\
  valid_path_length 5 /\ (0 < 100000)%R /\ (0 < 0.1)%R /\ (0 < 20)%Z /\
  (forall rng, exists rng',
      analyze_distribution_of_drawdown Lcg.dist [0.01; -0.02; 0.03]%R 0%R 5
        100000%R 0.1%R 20 rng
      = Ret (0%R, rng')) /\
  (forall rng, exists rng',
      make_one_equity_sequence Lcg.dist [0.01; -0.02; 0.03]%R 0%R 5 100000%R rng
      = Ret (repeat 100000%R (S (Z.to_nat 5)), 0%R, rng')) /\
  valid_series [0.01; -0.02; infinity]%float /\
  Binary64.positive_finite 100000%float /\ Binary64.positive 0.1%float /\
  (0 < 20 <= INT_MAX)%Z /\
  (forall rng, exists rng',
      @analyze_distribution_of_drawdown float Binary64.binary64_nopow
        Lcg.state Lcg.dist [0.01; -0.02; infinity]%float 0%float 5
        100000%float 0.1%float 20 rng
      = Ret (0%float, rng')).
Proof.
  assert (Hseries : valid_series [0.01; -0.02; 0.03]%R)
    by (split; [discriminate | vm_compute; discriminate]).
  assert (HN : valid_path_length 5) by (unfold valid_path_length, INT_MAX; lia).
  assert (Hcap : (0 < 100000)%R) by lra.
  assert (Htol : (0 < 0.1)%R) by lra.
  assert (Hn : (0 < 20)%Z) by lia.
  assert (Hseries64 : valid_series [0.01; -0.02; infinity]%float)
    by (split; [discriminate | vm_compute; discriminate]).
  assert (Hcap64 : Binary64.positive_finite 100000%float)
    by (split; reflexivity).
  assert (Htol64 : Binary64.positive 0.1%float) by reflexivity.
  assert (Hn64 : (0 < 20 <= INT_MAX)%Z) by (unfold INT_MAX; lia).
  split; [exact Lcg_in_range|].
  split; [exact Hseries|].
  split; [exact HN|].
  split; [exact Hcap|].
  split; [exact Htol|].
  split; [exact Hn|].
  split; [|split].
  - exact (proj1 (proj1 zero_fraction_zero_tail Lcg.state Lcg.dist
                   [0.01; -0.02; 0.03]%R 5%Z 100000%R 0.1%R 20%Z
                   Lcg_in_range Hseries HN Hcap Htol Hn)).
  - exact (proj2 (proj1 zero_fraction_zero_tail Lcg.state Lcg.dist
                   [0.01; -0.02; 0.03]%R 5%Z 100000%R 0.1%R 20%Z
                   Lcg_in_range Hseries HN Hcap Htol Hn)).
  - split; [exact Hseries64|]. split; [exact Hcap64|].
    split; [exact Htol64|]. split; [exact Hn64|].
    exact (proj2 zero_fraction_zero_tail (fun x _ => x) Lcg.state Lcg.dist
             [0.01; -0.02; infinity]%float 5%Z 100000%float 0.1%float 20%Z
             Lcg_in_range Hseries64 HN Hcap64 Htol64 Hn64).
Defined.

(** C10. [computeMean] returns [0.0] on an empty sequence, at every instance
    of the arithmetic; so, when no repetition runs, [risk_normalization]
    returns the means (and deviations) [0], prints nothing and leaves the
    generator as it was. *)
Theorem computeMean_empty :
  forall (D : Type) (H : Double D),
    computeMean ([] : list D) = of_Z 0 /\
    forall (G : Type) (dist : nat -> G -> nat * G) fuel trades days N capital
           tail_percentile tolerance n reps rng,
      (reps <= 0)%Z ->
      risk_normalization dist fuel trades days N capital tail_percentile
                         tolerance n reps rng
      = Ret ({| safe_f_mean := of_Z 0; safe_f_stdev := of_Z 0;
                CAR25_mean := of_Z 0; CAR25_stdev := of_Z 0;
                printed := [] |}, rng).
Proof.
  intros D H. split; [reflexivity|].
  intros. now apply risk_normalization_no_repetition.
Qed.

Lemma computeMean_empty_witness :
  (@computeMean float Binary64.binary64_nopow [] = 0)%float /\
  (0 <= 0)%Z /\
  @risk_normalization R RealArith.real Lcg.state Lcg.dist 1000
      [0.01; -0.02]%R 504 20 100000%R 5%R 0.1%R 50 0 42%Z
  = Ret ({| safe_f_mean := 0%R; safe_f_stdev := 0%R;
            CAR25_mean := 0%R; CAR25_stdev := 0%R; printed := [] |}, 42%Z).
Proof.
  split; [exact (proj1 (computeMean_empty Binary64.binary64_nopow))|].
  split; [lia|].
  apply (proj2 (computeMean_empty RealArith.real)). lia.
Defined.

(** * Further statements about the code *)

(** X1. At every instance of the arithmetic, on a non-empty series and a
    path length that can be allocated, [analyze_distribution_of_drawdown]
    returns [count / number_equity_in_CDF] for a number [count] of curves
    between [0] and [number_equity_in_CDF], and leaves the generator after
    exactly [number_equity_in_CDF * number_trades_in_forecast] draws from
    [[0, trades.size() - 1]], whatever the fraction, the capital and the
    tolerance. *)
Theorem estimator_counts_and_draws :
  forall (D : Type) (H : Double D) (G : Type) (dist : nat -> G -> nat * G)
         (trades : list D) (fraction : D) (N : Z) (capital tolerance : D)
         (n : Z) (rng : G),
    in_range dist -> valid_series trades -> valid_path_length N ->
    exists count,
      analyze_distribution_of_drawdown dist trades fraction N capital
                                       tolerance n rng
      = Ret ((of_Z count / of_Z n)%D,
             advance dist (length trades - 1) (Z.to_nat n * Z.to_nat N) rng)
      /\ (0 <= count <= Z.max 0 n)%Z.
Proof.
  intros D H G dist trades fraction N capital tolerance n rng
         Hrange Hseries HN.
  exact (analyze_distribution_of_drawdown_draws Hrange Hseries HN fraction
           capital tolerance n rng).
Qed.

Lemma estimator_counts_and_draws_witness :
  in_range Lcg.dist /\ valid_series [0.01; -0.02; 0.03]%float /\
  valid_path_length 5 /\
  exists count,
    @analyze_distribution_of_drawdown float Binary64.binary64_nopow Lcg.state
      Lcg.dist [0.01; -0.02; 0.03]%float 0.5%float 5 100000%float 0.1%float
      10 42%Z
    = Ret (PrimFloat.div (Binary64.Z2float count) (Binary64.Z2float 10),
           advance Lcg.dist (3 - 1) (Z.to_nat 10 * Z.to_nat 5) 42%Z)
    /\ (0 <= count <= Z.max 0 10)%Z.
Proof.
  assert (Hseries : valid_series [0.01; -0.02; 0.03]%float)
    by (split; [discriminate | vm_compute; discriminate]).
  assert (HN : valid_path_length 5) by (unfold valid_path_length, INT_MAX; lia).
  split; [exact Lcg_in_range|].
  split; [exact Hseries|].
  split; [exact HN|].
  exact (@estimator_counts_and_draws float Binary64.binary64_nopow Lcg.state
           Lcg.dist [0.01; -0.02; 0.03]%float 0.5%float 5 100000%float
           0.1%float 10 42%Z Lcg_in_range Hseries HN).
Defined.

(** X2. In exact arithmetic, with one sample curve or more, the tail risk
    that [analyze_distribution_of_drawdown] returns lies in [[0, 1]], and
    from the same generator state a larger drawdown tolerance gives a tail
    risk that is no larger, and the same generator state afterwards. *)
Theorem estimator_tolerance_antitone :
  forall (G : Type) (dist : nat -> G -> nat * G) (trades : list R)
         (fraction : R) (N : Z) (capital tol1 tol2 : R) (n : Z) (rng : G),
    in_range dist -> valid_series trades -> valid_path_length N ->
    (0 < n)%Z -> (tol1 <= tol2)%R ->
    exists tail1 tail2 rng',
      analyze_distribution_of_drawdown dist trades fraction N capital tol1 n
                                       rng
      = Ret (tail1, rng')
      /\ analyze_distribution_of_drawdown dist trades fraction N capital tol2
                                          n rng
         = Ret (tail2, rng')
      /\ (0 <= tail2)%R /\ (tail2 <= tail1)%R /\ (tail1 <= 1)%R.
Proof.
  intros G dist trades fraction N capital tol1 tol2 n rng
         Hrange Hseries HN Hn Htol.
  destruct (analyze_tolerance Hrange Hseries HN fraction capital rng Hn Htol)
    as (tail1 & tail2 & rng' & Hrun1 & Hrun2 & Hle).
  destruct (analyze_unit_interval Hrange Hseries HN fraction capital tol1 rng
              Hn) as (t1 & r1 & Hrun1' & Hrange1).
  destruct (analyze_unit_interval Hrange Hseries HN fraction capital tol2 rng
              Hn) as (t2 & r2 & Hrun2' & Hrange2).
  assert (Ht1 : t1 = tail1) by congruence.
  assert (Ht2 : t2 = tail2) by congruence.
  subst t1 t2.
  exists tail1, tail2, rng'.
  split; [exact Hrun1|]. split; [exact Hrun2|].
  split; [exact (proj1 Hrange2)|]. split; [exact Hle | exact (proj2 Hrange1)].
Qed.

Lemma estimator_tolerance_antitone_witness :
  exists tail1 tail2 rng',
    analyze_distribution_of_drawdown Lcg.dist [0.01; -0.02; 0.03]%R 0.5%R 5
                                     100000%R 0.05%R 10 42%Z
    = Ret (tail1, rng')
    /\ analyze_distribution_of_drawdown Lcg.dist [0.01; -0.02; 0.03]%R 0.5%R
                                        5 100000%R 0.1%R 10 42%Z
       = Ret (tail2, rng')
    /\ (0 <= tail2)%R /\ (tail2 <= tail1)%R /\ (tail1 <= 1)%R.
Proof.
  apply (@estimator_tolerance_antitone Lcg.state Lcg.dist
           [0.01; -0.02; 0.03]%R 0.5%R 5 100000%R 0.05%R 0.1%R 10 42%Z).
  - exact Lcg_in_range.
  - split; [discriminate | vm_compute; discriminate].
  - unfold valid_path_length, INT_MAX. lia.
  - lia.
  - lra.
Defined.

(** X4. At every instance of the arithmetic the bisection of a repetition
    makes between [1] and [1000] passes.  If it leaves with [done] set, the
    tail risk it last estimated passed the test
    [fabs(tail_risk - tail_percentile / 100) < 0.003] and the fraction is
    the midpoint [(lower_bound + upper_bound) / 2] of the bracket.  If it
    leaves without [done], it has made all [1000] passes and the fraction
    is one of the two ends of the bracket.  The ends of the bracket and the
    fraction stay within [[0, 10]], in exact arithmetic, where the fraction
    lies between the two ends, and in binary64. *)
Theorem bisection_bracket :
  (forall (D : Type) (H : Double D) (G : Type) (dist : nat -> G -> nat * G)
          (trades : list D) (N : Z) (capital tail_percentile tolerance : D)
          (n : Z) (fuel : nat) (rng : G),
      in_range dist -> valid_series trades -> valid_path_length N ->
      (1000 <= fuel)%nat ->
      exists st rng',
        bisection_loop dist fuel trades N capital tail_percentile tolerance n
                       bisection_init rng
        = Ret (st, rng')
        /\ (1 <= iteration st <= 1000)%Z
        /\ (done st = true ->
            (fabs (tail_risk st - tail_percentile / of_Z 100)
             <? desired_accuracy)%D = true
            /\ fraction st = ((lower_bound st + upper_bound st) / of_Z 2)%D)
        /\ (done st = false ->
            iteration st = 1000%Z
            /\ (fraction st = lower_bound st
                \/ fraction st = upper_bound st))) /\
  (forall (G : Type) (dist : nat -> G -> nat * G) (trades : list R) (N : Z)
          (capital tail_percentile tolerance : R) (n : Z) (fuel : nat)
          (rng : G),
      in_range dist -> valid_series trades -> valid_path_length N ->
      (1000 <= fuel)%nat ->
      exists st rng',
        bisection_loop dist fuel trades N capital tail_percentile tolerance n
                       bisection_init rng
        = Ret (st, rng')
        /\ (0 <= lower_bound st)%R
        /\ (lower_bound st <= fraction st <= upper_bound st)%R
        /\ (upper_bound st <= 10)%R) /\
  (forall (fpow : float -> float -> float)
          (G : Type) (dist : nat -> G -> nat * G) (trades : list float)
          (N : Z) (capital tail_percentile tolerance : float) (n : Z)
          (fuel : nat) (rng : G),
      in_range dist -> valid_series trades -> valid_path_length N ->
      (1000 <= fuel)%nat ->
      exists st rng',
        @bisection_loop float (Binary64.binary64 fpow) G dist fuel trades N
          capital tail_percentile tolerance n
          (@bisection_init float (Binary64.binary64 fpow)) rng
        = Ret (st, rng')
        /\ (PrimFloat.leb 0 (lower_bound st) = true
            /\ PrimFloat.leb (lower_bound st) 10 = true)
        /\ (PrimFloat.leb 0 (upper_bound st) = true
            /\ PrimFloat.leb (upper_bound st) 10 = true)
        /\ (PrimFloat.leb 0 (fraction st) = true
            /\ PrimFloat.leb (fraction st) 10 = true)).
Proof.
  split; [|split].
  - intros D H G dist trades N capital tp tol n fuel rng
           Hrange Hseries HN Hfuel.
    destruct (@bisection_shape D H G dist Hrange trades N Hseries HN capital
                tp tol n (fun _ => True) (fun _ _ _ _ _ _ => I) I fuel rng
                Hfuel)
      as (st & rng' & Hrun & _ & Hrest).
    now exists st, rng'.
  - intros G dist trades N capital tp tol n fuel rng Hrange Hseries HN Hfuel.
    destruct (bisection_searched Hrange Hseries HN capital tp tol n rng Hfuel)
      as (st & rng' & Hrun & Hinv & Hcond & Hpass).
    exists st, rng'. split; [exact Hrun|].
    destruct (searched_fraction Hinv Hpass) as [Hfrac Hin].
    destruct Hinv as (Hiter & Hl & Hu & Hst).
    split; [exact Hl|]. split; [exact Hin | exact Hu].
  - intros fpow G dist trades N capital tp tol n fuel rng
           Hrange Hseries HN Hfuel.
    exact (@bisection_shape_binary64 fpow G dist Hrange trades N Hseries HN
             capital tp tol n fuel rng Hfuel).
Qed.

Lemma bisection_bracket_witness :
  in_range Lcg.dist /\ valid_series [0.01; -0.02; 0.03]%float /\
  valid_path_length 5 /\ (1000 <= 1000)%nat /\
  (exists st rng',
      @bisection_loop float Binary64.binary64_nopow Lcg.state Lcg.dist 1000
        [0.01; -0.02; 0.03]%float 5 100000%float 5%float 0.1%float 10
        (@bisection_init float Binary64.binary64_nopow) 42%Z
      = Ret (st, rng')
      /\ (1 <= iteration st <= 1000)%Z
      /\ (done st = true ->
          @ltb float Binary64.binary64_nopow
            (@fabs float Binary64.binary64_nopow
               (@sub float Binary64.binary64_nopow (tail_risk st)
                  (@div float Binary64.binary64_nopow 5%float
                     (@of_Z float Binary64.binary64_nopow 100))))
            (@desired_accuracy float Binary64.binary64_nopow)
          = true
          /\ fraction st
             = @div float Binary64.binary64_nopow
                 (@add float Binary64.binary64_nopow (lower_bound st)
                    (upper_bound st))
                 (@of_Z float Binary64.binary64_nopow 2))
      /\ (done st = false ->
          iteration st = 1000%Z
          /\ (fraction st = lower_bound st \/ fraction st = upper_bound st))) /\
  (exists st rng',
      @bisection_loop float Binary64.binary64_nopow Lcg.state Lcg.dist 1000
        [0.01; -0.02; 0.03]%float 5 100000%float 5%float 0.1%float 10
        (@bisection_init float Binary64.binary64_nopow) 42%Z
      = Ret (st, rng')
      /\ (PrimFloat.leb 0 (lower_bound st) = true
          /\ PrimFloat.leb (lower_bound st) 10 = true)
      /\ (PrimFloat.leb 0 (upper_bound st) = true
          /\ PrimFloat.leb (upper_bound st) 10 = true)
      /\ (PrimFloat.leb 0 (fraction st) = true
          /\ PrimFloat.leb (fraction st) 10 = true)).
Proof.
  assert (Hseries : valid_series [0.01; -0.02; 0.03]%float)
    by (split; [discriminate | vm_compute; discriminate]).
  assert (HN : valid_path_length 5) by (unfold valid_path_length, INT_MAX; lia).
  assert (Hfuel : (1000 <= 1000)%nat) by apply Nat.le_refl.
  split; [exact Lcg_in_range|].
  split; [exact Hseries|].
  split; [exact HN|].
  split; [exact Hfuel|].
  split.
  - exact (proj1 bisection_bracket float Binary64.binary64_nopow Lcg.state
             Lcg.dist [0.01; -0.02; 0.03]%float 5%Z 100000%float 5%float
             0.1%float 10%Z 1000%nat 42%Z Lcg_in_range Hseries HN Hfuel).
  - exact (proj2 (proj2 bisection_bracket) (fun x _ => x) Lcg.state Lcg.dist
             [0.01; -0.02; 0.03]%float 5%Z 100000%float 5%float 0.1%float
             10%Z 1000%nat 42%Z Lcg_in_range Hseries HN Hfuel).
Defined.

(** X5. At every instance of the arithmetic the bisection makes at least
    one pass, and every pass draws the same number of trades: when the loop
    is left after [iteration] passes the generator has made
    [iteration * number_equity_in_CDF * number_trades_in_forecast] draws. *)
Theorem bisection_draws :
  forall (D : Type) (H : Double D) (G : Type) (dist : nat -> G -> nat * G)
         (trades : list D) (N : Z) (capital tail_percentile tolerance : D)
         (n : Z) (fuel : nat) (rng : G),
    in_range dist -> valid_series trades -> valid_path_length N ->
    (1000 <= fuel)%nat ->
    exists st rng',
      bisection_loop dist fuel trades N capital tail_percentile tolerance n
                     bisection_init rng
      = Ret (st, rng')
      /\ (1 <= iteration st <= 1000)%Z
      /\ rng' = advance dist (length trades - 1)
                        (Z.to_nat (iteration st) * (Z.to_nat n * Z.to_nat N))
                        rng.
Proof.
  intros D H G dist trades N capital tp tol n fuel rng
         Hrange Hseries HN Hfuel.
  exact (bisection_loop_draws Hrange Hseries HN capital tp tol n rng Hfuel).
Qed.

Lemma bisection_draws_witness :
  exists st rng',
    @bisection_loop float Binary64.binary64_nopow Lcg.state Lcg.dist 1000
      [0.01; -0.02; 0.03]%float 5 100000%float 5%float 0.1%float 10
      (@bisection_init float Binary64.binary64_nopow) 42%Z
    = Ret (st, rng')
    /\ (1 <= iteration st <= 1000)%Z
    /\ rng' = advance Lcg.dist (3 - 1)
                      (Z.to_nat (iteration st) * (Z.to_nat 10 * Z.to_nat 5))
                      42%Z.
Proof.
  assert (Hseries : valid_series [0.01; -0.02; 0.03]%float)
    by (split; [discriminate | vm_compute; discriminate]).
  assert (HN : valid_path_length 5) by (unfold valid_path_length, INT_MAX; lia).
  exact (@bisection_draws float Binary64.binary64_nopow Lcg.state Lcg.dist
           [0.01; -0.02; 0.03]%float 5 100000%float 5%float 0.1%float 10
           1000%nat 42%Z Lcg_in_range Hseries HN (Nat.le_refl 1000)).
Defined.



(** X7. At every instance of the arithmetic, with [number_equity_in_CDF]
    zero or negative and one repetition or more, the bisection still runs
    to its end, and the repetition then reads the percentile from an empty
    vector: [risk_normalization] has undefined behaviour. *)
Theorem no_sample_curve_undefined :
  forall (D : Type) (H : Double D) (G : Type) (dist : nat -> G -> nat * G)
         (trades : list D) (days N : Z)
         (capital tail_percentile tolerance : D) (n reps : Z) (fuel : nat)
         (rng : G),
    in_range dist -> valid_series trades -> valid_path_length N ->
    (n <= 0)%Z -> (0 < reps)%Z -> (1000 <= fuel)%nat ->
    risk_normalization dist fuel trades days N capital tail_percentile
                       tolerance n reps rng
    = Stop UB.
Proof.
  intros D H G dist trades days N capital tp tol n reps fuel rng
         Hrange Hseries HN Hn Hreps Hfuel.
  exact (risk_normalization_no_sample Hrange Hseries HN days capital tp tol
           rng Hn Hreps Hfuel).
Qed.

Lemma no_sample_curve_undefined_witness :
  @risk_normalization float Binary64.binary64_nopow Lcg.state Lcg.dist 1000
    [0.01; -0.02; 0.03]%float 504 5 100000%float 5%float 0.1%float 0 1 42%Z
  = Stop UB.
Proof.
  assert (Hseries : valid_series [0.01; -0.02; 0.03]%float)
    by (split; [discriminate | vm_compute; discriminate]).
  assert (HN : valid_path_length 5) by (unfold valid_path_length, INT_MAX; lia).
  exact (@no_sample_curve_undefined float Binary64.binary64_nopow Lcg.state
           Lcg.dist [0.01; -0.02; 0.03]%float 504 5 100000%float 5%float
           0.1%float 0 1 1000%nat 42%Z Lcg_in_range Hseries HN
           (Z.le_refl 0) Z.lt_0_1 (Nat.le_refl 1000)).
Defined.

(** X8. At every instance of the arithmetic, with one sample curve or more
    and one repetition or more, a path length for which
    [number_trades_in_forecast + 1] slots cannot be allocated stops
    [risk_normalization] at the first curve, whatever the series: below [-1]
    the vector constructor throws [std::length_error]; at [-1] the curve is
    empty and [equity_curve[0]] is written outside it, and at [INT_MAX] the
    sum overflows, both undefined behaviour. *)
Theorem unallocatable_path_length :
  forall (D : Type) (H : Double D) (G : Type) (dist : nat -> G -> nat * G)
         (trades : list D) (days N : Z)
         (capital tail_percentile tolerance : D) (n reps : Z) (fuel : nat)
         (rng : G),
    (0 < n)%Z -> (0 < reps)%Z -> (0 < fuel)%nat ->
    ((N < -1)%Z ->
     risk_normalization dist fuel trades days N capital tail_percentile
                        tolerance n reps rng
     = Stop LengthError)
    /\ (N = (-1)%Z \/ N = INT_MAX ->
        risk_normalization dist fuel trades days N capital tail_percentile
                           tolerance n reps rng
        = Stop UB).
Proof.
  intros D H G dist trades days N capital tp tol n reps fuel rng
         Hn Hreps Hfuel.
  split; intro HN.
  - apply risk_normalization_stops; try assumption.
    intros fraction rng'. now apply make_one_equity_sequence_length_error.
  - apply risk_normalization_stops; try assumption.
    intros fraction rng'. now apply make_one_equity_sequence_no_slot.
Qed.

Lemma unallocatable_path_length_witness :
  @risk_normalization float Binary64.binary64_nopow Lcg.state Lcg.dist 1000
    [0.01; -0.02; 0.03]%float 504 (-3) 100000%float 5%float 0.1%float 10 1
    42%Z
  = Stop LengthError
  /\ @risk_normalization float Binary64.binary64_nopow Lcg.state Lcg.dist 1000
       [0.01; -0.02; 0.03]%float 504 (-1) 100000%float 5%float 0.1%float 10
       1 42%Z
     = Stop UB.
Proof.
  split.
  - apply (@unallocatable_path_length float Binary64.binary64_nopow Lcg.state
             Lcg.dist [0.01; -0.02; 0.03]%float 504 (-3) 100000%float 5%float
             0.1%float 10 1 1000%nat 42%Z); lia.
  - apply (@unallocatable_path_length float Binary64.binary64_nopow Lcg.state
             Lcg.dist [0.01; -0.02; 0.03]%float 504 (-1) 100000%float 5%float
             0.1%float 10 1 1000%nat 42%Z); lia.
Defined.



(** X10. In binary64, with a [std::pow] for which [pow(1, 0.5)] is [1], a
    series of fewer than fourteen trades makes [main] forecast no trade at
    all: every curve is the capital alone, no drawdown exceeds the
    tolerance, the bisection runs its [1000] passes up to the end [10] of
    the bracket, and [main] reports a safe fraction of exactly [10] and a
    CAR25 of [0], with standard deviations [0], without drawing from the
    generator and whatever the trades are. *)
Theorem main_short_series :
  forall (fpow : float -> float -> float) (G : Type)
         (dist : nat -> G -> nat * G) (trades : list float) (fuel : nat)
         (rng : G),
    fpow 1%float 0.5%float = 1%float ->
    (1 <= length trades <= 13)%nat -> (1000 <= fuel)%nat ->
    @main float (Binary64.binary64 fpow) G dist fuel trades rng
    = Ret ({| status := 0; complaint := None;
              report := Some {| safe_f_mean := 10%float;
                                safe_f_stdev := 0%float;
                                CAR25_mean := 0%float;
                                CAR25_stdev := 0%float;
                                printed := [0; 0; 0; 0; 0]%float |} |}, rng).
Proof.
  intros fpow G dist trades fuel rng Hpow Hlen Hfuel.
  exact (@main_short fpow G dist trades fuel rng Hpow Hlen Hfuel).
Qed.

Lemma main_short_series_witness :
  @main float (Binary64.binary64 Binary64.pow_half) Lcg.state Lcg.dist 1000
    [0.01; -0.02; 0.03]%float 42%Z
  = Ret ({| status := 0; complaint := None;
            report := Some {| safe_f_mean := 10%float;
                              safe_f_stdev := 0%float;
                              CAR25_mean := 0%float;
                              CAR25_stdev := 0%float;
                              printed := [0; 0; 0; 0; 0]%float |} |}, 42%Z).
Proof.
  apply (@main_short_series Binary64.pow_half Lcg.state Lcg.dist
           [0.01; -0.02; 0.03]%float 1000%nat 42%Z).
  - vm_compute. reflexivity.
  - simpl. lia.
  - apply Nat.le_refl.
Defined.

(** X11. In exact arithmetic the CAR25 of a repetition is a lower quartile
    of the CAR values: it is one of them, at least a quarter of them are at
    most CAR25, and fewer than a quarter of them are below it. *)
Theorem CAR25_lower_quartile :
  forall CAR_list : list R,
    CAR_list <> [] -> (size CAR_list <= SIZE_MAX)%Z ->
    exists CAR25,
      CAR25_of CAR_list = Done CAR25
      /\ In CAR25 CAR_list
      /\ (length CAR_list <= 4 * count_at_most CAR25 CAR_list)%nat
      /\ (4 * count_below CAR25 CAR_list < length CAR_list)%nat.
Proof. exact CAR25_of_quartile. Qed.

Lemma CAR25_lower_quartile_witness :
  exists CAR25,
    CAR25_of [7; 3; 9; 1; 5]%R = Done CAR25
    /\ In CAR25 [7; 3; 9; 1; 5]%R
    /\ (length [7; 3; 9; 1; 5]%R
        <= 4 * count_at_most CAR25 [7; 3; 9; 1; 5]%R)%nat
    /\ (4 * count_below CAR25 [7; 3; 9; 1; 5]%R
        < length [7; 3; 9; 1; 5]%R)%nat.
Proof.
  apply (@CAR25_lower_quartile [7; 3; 9; 1; 5]%R).
  - discriminate.
  - vm_compute. discriminate.
Defined.

(** X13. The drawdown of a non-empty curve does not decrease when the
    curve is continued: in exact arithmetic and in binary64, where the
    drawdown that is returned is never not-a-number, whatever the doubles of
    the curve are. *)
Theorem calculateDrawdown_continued :
  (forall curve more : list R,
      curve <> [] ->
      exists d d',
        calculateDrawdown curve = Done d
        /\ calculateDrawdown (curve ++ more) = Done d'
        /\ (d <= d')%R) /\
  (forall (fpow : float -> float -> float) (curve more : list float),
      curve <> [] ->
      exists d d',
        @calculateDrawdown float (Binary64.binary64 fpow) curve = Done d
        /\ @calculateDrawdown float (Binary64.binary64 fpow) (curve ++ more)
           = Done d'
        /\ PrimFloat.leb d d' = true
        /\ Prim2SF d <> S754_nan).
Proof.
  split.
  - intros curve more Hne. exact (calculateDrawdown_extend more Hne).
  - intros fpow curve more Hne.
    exact (@calculateDrawdown_extend_binary64 fpow curve more Hne).
Qed.

Lemma calculateDrawdown_continued_witness :
  (exists d d',
      calculateDrawdown [100; 120; 90]%R = Done d
      /\ calculateDrawdown ([100; 120; 90]%R ++ [60; 130]%R) = Done d'
      /\ (d <= d')%R) /\
  (exists d d',
      @calculateDrawdown float Binary64.binary64_nopow [100; 120; 90]%float
      = Done d
      /\ @calculateDrawdown float Binary64.binary64_nopow
           ([100; 120; 90]%float ++ [60; 130]%float)
         = Done d'
      /\ PrimFloat.leb d d' = true
      /\ Prim2SF d <> S754_nan).
Proof.
  split.
  - apply (proj1 calculateDrawdown_continued [100; 120; 90]%R [60; 130]%R).
    discriminate.
  - apply (proj2 calculateDrawdown_continued (fun x _ => x)
             [100; 120; 90]%float [60; 130]%float).
    discriminate.
Defined.

(** X15. [readTradesFromCSV] keeps the order of the file and skips what is
    not a number: for a file written line by line, each line ended by a
    newline, it returns the values of the lines that [std::stod] accepts, in
    the order of the lines, and writes no complaint; a last line that no
    newline ends is read as well; a file that cannot be opened gives no
    trade and the complaint [Unable to open file: ] with the name. *)
Theorem readTradesFromCSV_reads_lines :
  forall (D : Type) (stod : string -> option D)
         (open : string -> option string) (filename : string)
         (lines : list string),
    Forall (fun l => has_newline l = false) lines ->
    (open filename = Some (unlines lines) ->
     readTradesFromCSV stod open filename = (parsed stod lines, None))
    /\ (forall last,
           has_newline last = false -> last <> EmptyString ->
           open filename = Some (String.append (unlines lines) last) ->
           readTradesFromCSV stod open filename
           = (parsed stod (lines ++ [last]), None))
    /\ (open filename = None ->
        readTradesFromCSV stod open filename
        = ([], Some (String.append "Unable to open file: "%string filename))).
Proof.
  intros D stod open filename lines Hlines.
  split; [|split].
  - intro Hopen.
    exact (@readTradesFromCSV_lines D stod open filename lines Hlines Hopen).
  - intros last Hlast Hne Hopen. unfold readTradesFromCSV. rewrite Hopen.
    rewrite (@getlines_unlines_unended lines last Hlines Hlast Hne).
    now rewrite fold_push_parsed.
  - intro Hopen. unfold readTradesFromCSV. now rewrite Hopen.
Qed.

Lemma readTradesFromCSV_reads_lines_witness :
  readTradesFromCSV
    (fun s => if String.eqb s "Trades"%string then None
              else Some (Z.of_nat (String.length s)))
    (fun _ => Some (unlines ["Trades"; "0.5"; "12"]%string))
    "trades.csv"%string
  = ([3; 2]%Z, None).
Proof.
  apply (@readTradesFromCSV_reads_lines Z
           (fun s => if String.eqb s "Trades"%string then None
                     else Some (Z.of_nat (String.length s)))
           (fun _ => Some (unlines ["Trades"; "0.5"; "12"]%string))
           "trades.csv"%string ["Trades"; "0.5"; "12"]%string).
  - repeat constructor.
  - reflexivity.
Defined.

(** X16. At every instance of the arithmetic, when the data file cannot be
    opened, or when no line of it is a number for [std::stod], the program
    writes [No trades data found.] and returns [1] without drawing from the
    generator; the complaint of [readTradesFromCSV] is written as well
    exactly when the file could not be opened. *)
Theorem program_without_trades :
  forall (D : Type) (H : Double D) (G : Type) (dist : nat -> G -> nat * G)
         (stod : string -> option D) (open : string -> option string)
         (fuel : nat) (rng : G),
    match open "./data/generated_normal_trades.csv"%string with
    | None => True
    | Some content =>
        Forall (fun l => stod l = None) (getlines EmptyString content)
    end ->
    exists unopened,
      program dist stod open fuel rng
      = Ret ((unopened,
              {| status := 1;
                 complaint := Some "No trades data found."%string;
                 report := None |}), rng)
      /\ (unopened = None
          <-> open "./data/generated_normal_trades.csv"%string <> None).
Proof.
  intros D H G dist stod open fuel rng Hfile.
  exact (@program_no_trades D H G dist stod open fuel rng Hfile).
Qed.

Lemma program_without_trades_witness :
  exists unopened,
    @program float Binary64.binary64_nopow Lcg.state Lcg.dist
      (fun _ => None) (fun _ => Some "date,return"%string) 1000 42%Z
    = Ret ((unopened,
            {| status := 1;
               complaint := Some "No trades data found."%string;
               report := None |}), 42%Z)
    /\ (unopened = None
        <-> (fun _ : string => Some "date,return"%string)
              "./data/generated_normal_trades.csv"%string <> None).
Proof.
  apply (@program_without_trades float Binary64.binary64_nopow Lcg.state
           Lcg.dist (fun _ => None) (fun _ => Some "date,return"%string)
           1000%nat 42%Z).
  repeat constructor.
Defined.



(** X18. In binary64 the standard deviation that [computeStdDev] returns is
    never below zero, whatever the values and the mean it is given (it is
    not a number when the sum of squares is not): so are the two standard
    deviations that [computeStatistics] gives [risk_normalization]. *)
Theorem computeStdDev_never_negative :
  forall (fpow : float -> float -> float) (data : list float) (mean : float),
    PrimFloat.ltb (@computeStdDev float (Binary64.binary64 fpow) data mean) 0
    = false
    /\ PrimFloat.ltb
         (snd (@computeStatistics float (Binary64.binary64 fpow) data)) 0
       = false.
Proof.
  intros fpow data mean. split; [apply computeStdDev_not_below|].
  unfold computeStatistics. cbn [snd]. apply computeStdDev_not_below.
Qed.
